(** * Bragg-disk detection: peak lists, thresholding and the scan loop

    A shallow embedding of [py4DSTEM/process/braggdiskdetection/diskdetection.py].

    Conventions.
    - A finite numpy [float64] is the rational number it denotes ([Q]).  The
      arithmetic the code does on such values in [threshold_Braggpeaks] (the
      quotient by the cell maximum, the differences, squares and sum of the
      spacing test) is rounded after every operation by [float64], to the
      nearest float64 with ties to the even significand; a magnitude beyond
      the largest finite float64 is kept as [float64_inf], which compares with
      finite values as the infinity does.  The division by a zero maximum,
      the only source of a NaN, is modelled case by case ([np_div_lt]).
    - [PointList]s are mutable objects shared between the grid and the
      functions working on one cell.  They live in a heap addressed by
      locations; Python statements become computations in a state-and-exception
      monad [M] whose state survives a raised exception.
    - Calls into the numerical kernels (FFT, correlation, maxima search,
      upsampling, smoothing) are recorded, in call order, in a log that is part
      of the state. *)

From Stdlib Require Import QArith Qminmax Qround Qabs ZArith Lia.
From Stdlib Require Import Qpower Lqa.
From stdpp Require Import base tactics option list sorting strings.

Local Open Scope Q_scope.

(** ** Python values *)

(** The thresholds of [threshold_Braggpeaks] are numbers, or the Python value
    [False] which switches the threshold off. *)
Inductive pyparam (A : Type) : Type :=
  | PyFalse
  | PyVal (a : A).
Arguments PyFalse {A}.
Arguments PyVal {A} a.

(** [p is not False] *)
Definition is_not_False {A} (p : pyparam A) : bool :=
  match p with PyFalse => false | PyVal _ => true end.

(** [p**2] before any rounding; Python evaluates [False**2] to [0]. *)
Definition py_square (p : pyparam Q) : Q :=
  match p with PyFalse => 0 | PyVal v => v ^ 2 end.

Inductive pytype := py_float | py_int | py_bool.

Definition Qlt_bool (x y : Q) : bool := negb (Qle_bool y x).

(** ** Peaks and peak lists *)

Record Peak : Type := mkPeak { qx : Q; qy : Q; intensity : Q }.

(** Only the three columns the detection code reads and writes are kept as
    data; [coordinates] is the declared schema, against which the code asserts. *)
Record PointList : Type := mkPointList {
  coordinates : list (string * pytype);
  data : list Peak
}.

Definition Bragg_coords : list (string * pytype) :=
  [("qx"%string, py_float); ("qy"%string, py_float); ("intensity"%string, py_float)].

Definition loc := nat.

Record PointListArray : Type := mkPointListArray {
  pla_coordinates : list (string * pytype);
  pla_shape : nat * nat;
  pla_pointlists : list (list loc)
}.

(** ** State, exceptions, and the monad *)

Definition rarray := list (list Q).

Inductive event : Type :=
  | ev_DP (Rx Ry : nat)                 (* datacube.data[Rx,Ry,:,:] *)
  | ev_fft2                             (* np.fft.fft2 *)
  | ev_ifft2                            (* np.fft.ifft2 *)
  | ev_get_cross_correlation_fk
  | ev_get_maxima_2D (cc : rarray)
  | ev_upsampled_correlation (xyShift : Q * Q)
  | ev_gaussian_filter (cc : rarray).

Inductive exn : Type :=
  | InvalidConfiguration   (* the assertion on [subpixel] *)
  | SchemaMismatch         (* an assertion on the columns of a PointList *)
  | ShapeMismatch          (* parallel arrays or mask of the wrong length *)
  | ValueError             (* [max()] of an empty sequence *)
  | IndexError.            (* index or location out of range *)

Record state : Type := mkState {
  heap : list PointList;
  log : list event
}.

Definition M (A : Type) : Type := state -> (exn + A) * state.

Definition ret {A} (a : A) : M A := fun s => (inr a, s).

Definition bind {A B} (m : M A) (k : A -> M B) : M B :=
  fun s => match m s with
           | (inl e, s') => (inl e, s')
           | (inr a, s') => k a s'
           end.

Definition raise {A} (e : exn) : M A := fun s => (inl e, s).

Declare Scope py_scope.
Delimit Scope py_scope with py.
Notation "x <- c1 ;; c2" := (bind c1 (fun x => c2))
  (at level 100, c1 at next level, right associativity) : py_scope.
Notation "c1 ;; c2" := (bind c1 (fun _ => c2))
  (at level 100, right associativity) : py_scope.
Local Open Scope py_scope.

(** [assert b], raising [e] when [b] is false *)
Definition py_assert (b : bool) (e : exn) : M unit :=
  if b then ret tt else raise e.

(** [for x in xs: body] *)
Fixpoint for_ {A} (xs : list A) (body : A -> M unit) : M unit :=
  match xs with
  | [] => ret tt
  | x :: xs' => body x ;; for_ xs' body
  end.

(** [range(n)] *)
Definition range (n : nat) : list nat := seq 0 n.

Definition emit (ev : event) : M unit :=
  fun s => (inr tt, mkState (heap s) (log s ++ [ev])).

Definition load (l : loc) : M PointList :=
  fun s => match heap s !! l with
           | Some pl => (inr pl, s)
           | None => (inl IndexError, s)
           end.

Definition store (l : loc) (pl : PointList) : M unit :=
  fun s => (inr tt, mkState (<[l := pl]> (heap s)) (log s)).

Definition alloc (pl : PointList) : M loc :=
  fun s => (inr (length (heap s)), mkState (heap s ++ [pl]) (log s)).

(** ** The PointList and PointListArray containers

    [py4DSTEM.file.datastructure] is not part of the sources at hand; its
    methods are modelled from the specification (section 4.4). *)

Inductive sort_order := ascending | descending.

(** Insertion of [p] in a list sorted by [key], after every row that must stay
    in front of it and before the first row that may follow it, so that rows
    with equal keys keep their relative order. *)
Fixpoint insert_sorted (ord : sort_order) (key : Peak -> Q) (p : Peak) (l : list Peak)
  : list Peak :=
  match l with
  | [] => [p]
  | h :: t =>
      if match ord with
         | descending => Qlt_bool (key p) (key h)
         | ascending => Qlt_bool (key h) (key p)
         end
      then h :: insert_sorted ord key p t
      else p :: h :: t
  end.

Definition stable_sort (ord : sort_order) (key : Peak -> Q) (l : list Peak) : list Peak :=
  foldr (insert_sorted ord key) [] l.

(** Modelled from the spec: [PointList.sort(coordinate, order)], a stable
    in-place sort of all rows by the named column. *)
Definition PointList_sort (pointlist : loc) (coordinate : Peak -> Q) (order : sort_order)
  : M unit :=
  pl <- load pointlist ;;
  store pointlist (mkPointList (coordinates pl) (stable_sort order coordinate (data pl))).

(** The rows of [rows] whose mask entry is [False]. *)
Fixpoint keep_unmasked (rows : list Peak) (mask : list bool) : list Peak :=
  match rows, mask with
  | r :: rows', b :: mask' =>
      if b then keep_unmasked rows' mask' else r :: keep_unmasked rows' mask'
  | _, _ => []
  end.

(** Modelled from the spec: [PointList.remove_points(mask)]; the rows marked
    true are deleted, and a mask whose length is not the row count fails with
    ShapeMismatch. *)
Definition PointList_remove_points (pointlist : loc) (deletemask : list bool) : M unit :=
  pl <- load pointlist ;;
  py_assert (length deletemask =? length (data pl))%nat ShapeMismatch ;;
  store pointlist (mkPointList (coordinates pl) (keep_unmasked (data pl) deletemask)).

(** The rows given by three parallel arrays. *)
Fixpoint rows_of_arrays (xs ys ints : list Q) : list Peak :=
  match xs, ys, ints with
  | x :: xs', y :: ys', i :: ints' => mkPeak x y i :: rows_of_arrays xs' ys' ints'
  | _, _, _ => []
  end.

(** Modelled from the spec: [PointList.add_tuple_of_nparrays(data)], the
    append of rows given as parallel arrays; it fails with SchemaMismatch when
    the number of arrays is not the number of declared columns, and with
    ShapeMismatch when the arrays differ in length. *)
Definition PointList_add_tuple_of_nparrays (pointlist : loc) (arrays : list Q * list Q * list Q)
  : M unit :=
  let '(xs, ys, ints) := arrays in
  pl <- load pointlist ;;
  py_assert (length (coordinates pl) =? 3)%nat SchemaMismatch ;;
  py_assert ((length ys =? length xs)%nat && (length ints =? length xs)%nat) ShapeMismatch ;;
  store pointlist (mkPointList (coordinates pl) (data pl ++ rows_of_arrays xs ys ints)).

(** Modelled from the spec: the constructor [PointList(coordinates=coords)],
    a new empty list. *)
Definition PointList_new (coords : list (string * pytype)) : M loc :=
  alloc (mkPointList coords []).

(** Modelled from the spec: the attribute [pointlist.length], the current
    number of rows. *)
Definition PointList_length (pointlist : loc) : M nat :=
  pl <- load pointlist ;; ret (length (data pl)).

(** Modelled from the spec: [pointlist.data[column]], one column of the rows,
    in row order. *)
Definition PointList_data (pointlist : loc) (column : Peak -> Q) : M (list Q) :=
  pl <- load pointlist ;; ret (column <$> data pl).

(** [n] new empty lists, at consecutive locations. *)
Fixpoint new_pointlists (coords : list (string * pytype)) (n : nat) : M (list loc) :=
  match n with
  | O => ret []
  | S n' =>
      l <- PointList_new coords ;;
      ls <- new_pointlists coords n' ;;
      ret (l :: ls)
  end.

Fixpoint new_grid (coords : list (string * pytype)) (nx ny : nat) : M (list (list loc)) :=
  match nx with
  | O => ret []
  | S nx' =>
      row <- new_pointlists coords ny ;;
      rows <- new_grid coords nx' ny ;;
      ret (row :: rows)
  end.

(** Modelled from the spec: the constructor
    [PointListArray(coordinates=coords, shape=(nx,ny))]; every cell is created
    empty, with the shared schema. *)
Definition PointListArray_new (coords : list (string * pytype)) (shape : nat * nat)
  : M PointListArray :=
  cells <- new_grid coords (fst shape) (snd shape) ;;
  ret (mkPointListArray coords shape cells).

(** Modelled from the spec: [pointlistarray.get_pointlist(Rx,Ry)], the cell
    itself (not a copy). *)
Definition get_pointlist (pointlistarray : PointListArray) (Rx Ry : nat) : M loc :=
  match pla_pointlists pointlistarray !! Rx with
  | Some row => match row !! Ry with
                | Some l => ret l
                | None => raise IndexError
                end
  | None => raise IndexError
  end.

(** ** numpy and builtin helpers used by the thresholds *)

(** [for x in xs: acc = body(acc, x)], a loop that updates local variables *)
Fixpoint for_acc {A S} (xs : list A) (body : S -> A -> M S) (acc : S) : M S :=
  match xs with
  | [] => ret acc
  | x :: xs' => acc' <- body acc x ;; for_acc xs' body acc'
  end.

(** The builtin [max(seq)]: the first largest element; an empty sequence
    raises ValueError. *)
Definition py_max (xs : list Q) : M Q :=
  match xs with
  | [] => raise ValueError
  | x :: xs' => ret (fold_left (fun m y => if Qlt_bool m y then y else m) xs' x)
  end.

(** *** float64 arithmetic *)

(** The integer nearest to [x], halves to the even neighbour. *)
Definition round_half_even (x : Q) : Z :=
  let f := Qfloor x in
  let d := x - inject_Z f in
  if Qlt_bool d (1 # 2) then f
  else if Qlt_bool (1 # 2) d then (f + 1)%Z
  else if Z.even f then f
  else (f + 1)%Z.

(** [floor (log2 a)] for a positive rational [a]. *)
Definition Qlog2_floor (a : Q) : Z :=
  if Qle_bool 1 a then Z.log2 (Qfloor a) else (- Z.log2_up (Qceiling (/ a)))%Z.

(** The spacing of the float64 grid around a positive [a]: 53 significant
    bits, and the subnormal spacing [2^-1074] near zero. *)
Definition float64_ulp (a : Q) : Q := 2 ^ Z.max (Qlog2_floor a - 52) (-1074).

(** The magnitude that stands for an infinity. *)
Definition float64_inf : Q := 2 ^ 1024.

(** The rounding of a positive [a]. *)
Definition float64_magnitude (a : Q) : Q :=
  let u := float64_ulp a in
  let r := inject_Z (round_half_even (a / u)) * u in
  if Qle_bool float64_inf r then float64_inf else r.

(** The float64 result of an operation whose exact result is [q]. *)
Definition float64 (q : Q) : Q :=
  let q := Qred q in
  if Qlt_bool 0 q then Qred (float64_magnitude q)
  else if Qlt_bool q 0 then Qred (- float64_magnitude (- q))
  else 0.

(** [x / m < t] on float64 values, [t] being the value of a Python float.
    For [m = 0] numpy yields [-inf] when [x < 0], which is below every
    threshold, and [+inf] or [nan] otherwise, which are below none. *)
Definition np_div_lt (x m t : Q) : bool :=
  if Qeq_bool m 0 then Qlt_bool x 0 else Qlt_bool (float64 (x / m)) t.

(** [np.zeros(n, dtype=bool)] *)
Definition np_zeros (n : nat) : list bool := replicate n false.

(** [mask[:k] = False] *)
Definition clear_prefix (k : nat) (mask : list bool) : list bool :=
  replicate (Nat.min k (length mask)) false ++ drop k mask.

(** [mask[sel] = True], for a boolean index array [sel] *)
Definition set_where (mask sel : list bool) : list bool :=
  zip_with (fun (d c : bool) => if c then true else d) mask sel.

(** The start of the slice [k:] of a sequence of length [n] *)
Definition slice_start (k : Z) (n : nat) : nat :=
  if (k <? 0)%Z then Z.to_nat (Z.max 0 (Z.of_nat n + k)) else Nat.min (Z.to_nat k) n.

(** [mask[k:] = True] *)
Definition set_from (k : Z) (mask : list bool) : list bool :=
  take (slice_start k (length mask)) mask
    ++ replicate (length mask - slice_start k (length mask)) true.

(** [(x - xi)**2 + (y - yi)**2] on float64 values, every operation rounded. *)
Definition np_dist2 (xi yi x y : Q) : Q :=
  float64 (float64 (float64 (x - xi) ^ 2) + float64 (float64 (y - yi) ^ 2)).

(** [(qxs - qxs[i])**2 + (qys - qys[i])**2 < r2].  [r2] is the Python number
    [minPeakSpacing**2]: the rounded square of a float, or the exact square of
    an int, which numpy converts to float64 for the comparison; either way
    the array is compared with [float64 r2]. *)
Definition closer_than (qxs qys : list Q) (i : nat) (r2 : Q) : list bool :=
  zip_with (fun x y => Qlt_bool (np_dist2 (nth i qxs 0) (nth i qys 0) x y) (float64 r2))
    qxs qys.

(** ** [threshold_Braggpeaks] *)

(** Lines 346-350: remove peaks below the minRelativeIntensity threshold. *)
Definition remove_below_minRelativeIntensity (pointlist : loc) (minRelativeIntensity : pyparam Q)
  : M unit :=
  match minRelativeIntensity with
  | PyVal t =>
      ints <- PointList_data pointlist intensity ;;
      m <- py_max ints ;;
      let deletemask := (fun x => np_div_lt x m t) <$> ints in
      PointList_remove_points pointlist deletemask
  | PyFalse => ret tt
  end.

(** Lines 356-361: one turn of the sweep over the rows. *)
Definition sweep_turn (pointlist : loc) (r2 : Q) (deletemask : list bool) (i : nat)
  : M (list bool) :=
  if negb (nth i deletemask false) then
    qxs <- PointList_data pointlist qx ;;
    qys <- PointList_data pointlist qy ;;
    let tooClose := closer_than qxs qys i r2 in
    let tooClose := clear_prefix (i + 1) tooClose in
    ret (set_where deletemask tooClose)
  else ret deletemask.

(** Lines 352-362: remove peaks that are too close together.  The guard of
    this block tests [maxNumPeaks]. *)
Definition remove_too_close (pointlist : loc) (minPeakSpacing : pyparam Q)
    (maxNumPeaks : pyparam Z) : M unit :=
  if is_not_False maxNumPeaks then
    let r2 := py_square minPeakSpacing in
    n <- PointList_length pointlist ;;
    deletemask <- for_acc (range n) (sweep_turn pointlist r2) (np_zeros n) ;;
    PointList_remove_points pointlist deletemask
  else ret tt.

(** Lines 364-369: keep only up to maxNumPeaks. *)
Definition keep_maxNumPeaks (pointlist : loc) (maxNumPeaks : pyparam Z) : M unit :=
  match maxNumPeaks with
  | PyVal k =>
      n <- PointList_length pointlist ;;
      if (k <? Z.of_nat n)%Z then
        let deletemask := np_zeros n in
        let deletemask := set_from k deletemask in
        PointList_remove_points pointlist deletemask
      else ret tt
  | PyFalse => ret tt
  end.

(** Lines 343-362: what happens to a cell before the count is looked at. *)
Definition threshold_cell_filters (pointlist : loc) (minRelativeIntensity minPeakSpacing : pyparam Q)
    (maxNumPeaks : pyparam Z) : M unit :=
  PointList_sort pointlist intensity descending ;;
  remove_below_minRelativeIntensity pointlist minRelativeIntensity ;;
  remove_too_close pointlist minPeakSpacing maxNumPeaks.

(** Lines 343-369: the body of the loop over the cells. *)
Definition threshold_cell (pointlist : loc) (minRelativeIntensity minPeakSpacing : pyparam Q)
    (maxNumPeaks : pyparam Z) : M unit :=
  threshold_cell_filters pointlist minRelativeIntensity minPeakSpacing maxNumPeaks ;;
  keep_maxNumPeaks pointlist maxNumPeaks.

(** [item in pointlistarray.dtype.fields] *)
Definition has_field (coords : list (string * pytype)) (item : string) : bool :=
  existsb (fun c => String.eqb (fst c) item) coords.

Definition threshold_Braggpeaks (pointlistarray : PointListArray)
    (minRelativeIntensity minPeakSpacing : pyparam Q) (maxNumPeaks : pyparam Z)
  : M PointListArray :=
  py_assert (forallb (has_field (pla_coordinates pointlistarray))
               ["qx"%string; "qy"%string; "intensity"%string]) SchemaMismatch ;;
  for_ (range (fst (pla_shape pointlistarray))) (fun Rx =>
    for_ (range (snd (pla_shape pointlistarray))) (fun Ry =>
      pointlist <- get_pointlist pointlistarray Rx Ry ;;
      threshold_cell pointlist minRelativeIntensity minPeakSpacing maxNumPeaks)) ;;
  ret pointlistarray.

(** Running a computation on a heap, with an empty log. *)
Definition run {A} (m : M A) (h : list PointList) : (exn + A) * state :=
  m (mkState h []).

Definition hundredth (n : Z) : Q := Qmake n 100.

Definition test_cell (rows : list Peak) : list PointList := [mkPointList Bragg_coords rows].
Definition test_grid : PointListArray := mkPointListArray Bragg_coords (1%nat, 1%nat) [[0%nat]].

(** ** The numerical kernels

    numpy, scipy and the helpers of [py4DSTEM.process.utils] are outside the
    sources at hand.  The detection code is written against this interface;
    complex arrays are kept abstract. *)

Class Numerics : Type := {
  carray : Type;
  np_fft2 : rarray -> carray;                  (* np.fft.fft2 *)
  np_ifft2 : carray -> carray;                 (* np.fft.ifft2 *)
  np_conj : carray -> carray;
  np_real : carray -> rarray;
  np_abs : carray -> rarray;
  np_angle : carray -> rarray;
  np_power : rarray -> Q -> rarray;            (* a**p *)
  np_exp_1j : rarray -> carray;                (* np.exp(1j*a) *)
  np_mul : carray -> carray -> carray;         (* complex a*b *)
  np_scale : rarray -> carray -> carray;       (* real a times complex b *)
  gaussian_filter : rarray -> Q -> rarray;     (* scipy.ndimage *)
  get_maxima_2D :
    rarray -> forall (sigma : Q) (edgeBoundary : Z) (minRelativeIntensity minSpacing : Q)
      (maxNumPeaks : Z) (subpixel : bool), list Q * list Q * list Q;
  upsampled_correlation : carray -> Z -> Q * Q -> Q * Q;
  (* the maxima are returned as parallel arrays *)
  get_maxima_2D_parallel :
    forall cc sigma edgeBoundary minRelativeIntensity minSpacing maxNumPeaks subpixel,
      let '(xs, ys, ints) :=
        get_maxima_2D cc sigma edgeBoundary minRelativeIntensity minSpacing maxNumPeaks subpixel in
      length ys = length xs /\ length ints = length xs
}.

(** [np.maximum(a, 0)] *)
Definition np_maximum_0 (a : rarray) : rarray := map (map (fun x => Qmax x 0)) a.

(** [np.round(x)]: to the nearest integer, halves to the even neighbour *)
Definition np_round (x : Q) : Q :=
  let f := Qfloor x in
  let d := x - inject_Z f in
  if Qlt_bool d (1 # 2) then inject_Z f
  else if Qlt_bool (1 # 2) d then inject_Z (f + 1)
  else if Z.even f then inject_Z f
  else inject_Z (f + 1).

(** The keyword arguments shared by the detection functions. *)
Record options : Type := mkOptions {
  corrPower : Q;
  sigma : Q;
  edgeBoundary : Z;
  minRelativeIntensity : Q;
  minPeakSpacing : Q;
  maxNumPeaks : Z;
  subpixel : string;
  upsample_factor : Z
}.

(** The defaults of the signatures. *)
Definition default_options : options :=
  mkOptions 1 2 20 (5 # 1000) 60 70 "poly" 4.

Record DataCube : Type := mkDataCube {
  R_Nx : nat;
  R_Ny : nat;
  datacube_data : nat -> nat -> rarray
}.

Section Detection.
Context {N : Numerics}.

Definition fft2 (a : rarray) : M carray := emit ev_fft2 ;; ret (np_fft2 a).

Definition ifft2 (a : carray) : M carray := emit ev_ifft2 ;; ret (np_ifft2 a).

(** Modelled from the spec: [get_cross_correlation_fk] of
    [py4DSTEM.process.utils] (section 4.1): with [M] the product of the
    pattern's transform and the conjugated probe transform,
    [|M|^corrPower * exp(i angle(M))] is transformed back and its real part
    returned. *)
Definition get_cross_correlation_fk (ar : rarray) (fourierkernel : carray) (corrPower : Q)
  : M rarray :=
  emit ev_get_cross_correlation_fk ;;
  let m := np_mul (np_fft2 ar) fourierkernel in
  ret (np_real (np_ifft2 (np_scale (np_power (np_abs m) corrPower) (np_exp_1j (np_angle m))))).

Definition call_get_maxima_2D (cc : rarray) (kw : options) (subpixel : bool)
  : M (list Q * list Q * list Q) :=
  emit (ev_get_maxima_2D cc) ;;
  ret (get_maxima_2D cc (sigma kw) (edgeBoundary kw) (minRelativeIntensity kw)
         (minPeakSpacing kw) (maxNumPeaks kw) subpixel).

Definition call_upsampled_correlation (ccc : carray) (upsample_factor : Z) (xyShift : Q * Q)
  : M (Q * Q) :=
  emit (ev_upsampled_correlation xyShift) ;;
  ret (upsampled_correlation ccc upsample_factor xyShift).

Definition call_gaussian_filter (cc : rarray) (sigma : Q) : M rarray :=
  emit (ev_gaussian_filter cc) ;;
  ret (gaussian_filter cc sigma).

(** Lines 113-123: one turn of the loop refining the detected peaks. *)
Definition refine_peak (ccc : carray) (upsample_factor : Z)
    (maxima : list Q * list Q * list Q) (ipeak : nat) : M (list Q * list Q * list Q) :=
  let '(maxima_x, maxima_y, maxima_int) := maxima in
  let xyShift := (nth ipeak maxima_x 0, nth ipeak maxima_y 0) in
  let xyShift := (np_round (fst xyShift * 2) / 2, snd xyShift) in
  let xyShift := (fst xyShift, np_round (snd xyShift * 2) / 2) in
  subShift <- call_upsampled_correlation ccc upsample_factor xyShift ;;
  let maxima_x := <[ipeak := fst subShift]> maxima_x in
  let maxima_y := <[ipeak := snd subShift]> maxima_y in
  ret (maxima_x, maxima_y, maxima_int).

(** Lines 80-123: the correlation surface and the maxima found on it. *)
Definition correlate_and_find_maxima (DP : rarray) (probe_kernel_FT : carray) (kw : options)
  : M (rarray * (list Q * list Q * list Q)) :=
  if String.eqb (subpixel kw) "none" then
    cc <- get_cross_correlation_fk DP probe_kernel_FT (corrPower kw) ;;
    let cc := np_maximum_0 cc in
    maxima <- call_get_maxima_2D cc kw false ;;
    ret (cc, maxima)
  else if String.eqb (subpixel kw) "poly" then
    cc <- get_cross_correlation_fk DP probe_kernel_FT (corrPower kw) ;;
    let cc := np_maximum_0 cc in
    maxima <- call_get_maxima_2D cc kw true ;;
    ret (cc, maxima)
  else
    ft <- fft2 DP ;;
    let m := np_mul ft probe_kernel_FT in
    let ccc := np_scale (np_power (np_abs m) (corrPower kw)) (np_exp_1j (np_angle m)) in
    inv <- ifft2 ccc ;;
    let cc := np_maximum_0 (np_real inv) in
    maxima <- call_get_maxima_2D cc kw true ;;
    maxima <- for_acc (range (length (fst (fst maxima))))
                (refine_peak ccc (upsample_factor kw)) maxima ;;
    ret (cc, maxima).

Definition find_Bragg_disks_single_DP_FK (DP : rarray) (probe_kernel_FT : carray)
    (kw : options) (return_cc : bool) (peaks : option loc) : M (loc * option rarray) :=
  py_assert (bool_decide (subpixel kw ∈ ["none"; "poly"; "multicorr"]%string))
    InvalidConfiguration ;;
  found <- correlate_and_find_maxima DP probe_kernel_FT kw ;;
  let '(cc, maxima) := found in
  peaks <- match peaks with
           | None => PointList_new Bragg_coords
           | Some l => ret l
           end ;;
  PointList_add_tuple_of_nparrays peaks maxima ;;
  if return_cc then
    smoothed <- call_gaussian_filter cc (sigma kw) ;;
    ret (peaks, Some smoothed)
  else ret (peaks, None).

Definition find_Bragg_disks_single_DP (DP probe_kernel : rarray) (kw : options)
    (return_cc : bool) : M (loc * option rarray) :=
  ft <- fft2 probe_kernel ;;
  let probe_kernel_FT := np_conj ft in
  find_Bragg_disks_single_DP_FK DP probe_kernel_FT kw return_cc None.

(** [datacube.data[Rx,Ry,:,:]] *)
Definition read_DP (datacube : DataCube) (Rx Ry : nat) : M rarray :=
  emit (ev_DP Rx Ry) ;; ret (datacube_data datacube Rx Ry).

(** Progress and timing output is not modelled. *)
Definition find_Bragg_disks (datacube : DataCube) (probe : rarray) (kw : options)
  : M PointListArray :=
  let coords := Bragg_coords in
  peaks <- PointListArray_new coords (R_Nx datacube, R_Ny datacube) ;;
  ft <- fft2 probe ;;
  let probe_kernel_FT := np_conj ft in
  for_ (range (R_Nx datacube)) (fun Rx =>
    for_ (range (R_Ny datacube)) (fun Ry =>
      DP <- read_DP datacube Rx Ry ;;
      cell <- get_pointlist peaks Rx Ry ;;
      find_Bragg_disks_single_DP_FK DP probe_kernel_FT kw false (Some cell) ;;
      ret tt)) ;;
  ret peaks.

End Detection.

(** ** An executable instance of the interface

    A small backend on which the detection functions can be run: arrays of
    non-negative reals with the transform of a one-point grid (the identity),
    a three-tap smoothing filter along rows, and a maxima search that reports
    every strictly positive sample.  Only the interface matters to the
    properties below; this instance shows it is inhabited and lets concrete
    runs be evaluated. *)

Definition pointwise (f : Q -> Q -> Q) (a b : rarray) : rarray :=
  zip_with (zip_with f) a b.

(** [(prev + 2*x + next) / 4] along a row, the edge samples repeated *)
Fixpoint smooth_row (prev : Q) (r : list Q) : list Q :=
  match r with
  | [] => []
  | x :: r' => (prev + 2 * x + hd x r') / 4 :: smooth_row x r'
  end.

Definition smooth (a : rarray) (sigma : Q) : rarray :=
  map (fun r => smooth_row (hd 0 r) r) a.

(** The samples of a surface, with their row and column. *)
Definition samples (a : rarray) : list (nat * nat * Q) :=
  concat (imap (fun i r => imap (fun j v => (i, j, v)) r) a).

Definition positive_samples (a : rarray) : list (nat * nat * Q) :=
  filter (fun s => Qlt_bool 0 (snd s) = true) (samples a).

Definition sample_maxima (cc : rarray) (sigma : Q) (edgeBoundary : Z)
    (minRelativeIntensity minSpacing : Q) (maxNumPeaks : Z) (subpixel : bool)
  : list Q * list Q * list Q :=
  let found := positive_samples (smooth cc sigma) in
  let offset := if subpixel then 3 # 10 else 0 in
  (map (fun s => inject_Z (Z.of_nat (fst (fst s))) + offset) found,
   map (fun s => inject_Z (Z.of_nat (snd (fst s))) + offset) found,
   map snd found).

#[local] Program Instance toy_backend : Numerics := {|
  carray := rarray;
  np_fft2 := fun a => a;
  np_ifft2 := fun a => a;
  np_conj := fun a => a;
  np_real := fun a => a;
  np_abs := map (map Qabs);
  np_angle := map (map (fun _ => 0));
  np_power := fun a p => a;
  np_exp_1j := map (map (fun _ => 1));
  np_mul := pointwise Qmult;
  np_scale := pointwise Qmult;
  gaussian_filter := smooth;
  get_maxima_2D := sample_maxima;
  upsampled_correlation := fun ccc factor xy =>
    (fst xy + 1 / inject_Z (2 * factor), snd xy - 1 / inject_Z (2 * factor))
|}.
Next Obligation. intros; simpl. rewrite !length_map. split; reflexivity. Qed.

(** ** What the statements compute on the rows of a cell *)

(** The state in which the object at [l] has been replaced. *)
Definition upd (s : state) (l : loc) (pl : PointList) : state :=
  mkState (<[l := pl]> (heap s)) (log s).

Definition with_data (pl : PointList) (rows : list Peak) : PointList :=
  mkPointList (coordinates pl) rows.

(** The value of [max(pointlist.data['intensity'])] on a non-empty cell
    ([0] stands in for the empty one, where [max] raises). *)
Definition cell_max (rows : list Peak) : Q :=
  match intensity <$> rows with
  | [] => 0
  | x :: xs => fold_left (fun m y => if Qlt_bool m y then y else m) xs x
  end.

(** Lines 346-350 on the rows. *)
Definition intensity_filter (mri : pyparam Q) (rows : list Peak) : exn + list Peak :=
  match mri with
  | PyFalse => inr rows
  | PyVal t =>
      match rows with
      | [] => inl ValueError
      | _ => inr (keep_unmasked rows
                    ((fun x => np_div_lt x (cell_max rows) t) <$> (intensity <$> rows)))
      end
  end.

(** The squared distance of row [j] from row [i], as line 358 computes it. *)
Definition dist2 (rows : list Peak) (i j : nat) : Q :=
  np_dist2 (nth i (qx <$> rows) 0) (nth i (qy <$> rows) 0)
    (nth j (qx <$> rows) 0) (nth j (qy <$> rows) 0).

(** Lines 357-361 on the rows. *)
Definition sweep_mask_turn (rows : list Peak) (r2 : Q) (deletemask : list bool) (i : nat)
  : list bool :=
  if negb (nth i deletemask false) then
    set_where deletemask
      (clear_prefix (i + 1) (closer_than (qx <$> rows) (qy <$> rows) i r2))
  else deletemask.

(** The delete mask after the turns [0 .. k-1] of the sweep. *)
Definition sweep_mask_upto (rows : list Peak) (r2 : Q) (k : nat) : list bool :=
  fold_left (sweep_mask_turn rows r2) (range k) (np_zeros (length rows)).

(** The delete mask handed to [remove_points] at line 362. *)
Definition sweep_mask (rows : list Peak) (r2 : Q) : list bool :=
  sweep_mask_upto rows r2 (length rows).

(** Lines 352-362 on the rows. *)
Definition spacing_filter (mps : pyparam Q) (mnp : pyparam Z) (rows : list Peak) : list Peak :=
  if is_not_False mnp then keep_unmasked rows (sweep_mask rows (py_square mps)) else rows.

(** Lines 364-369 on the rows. *)
Definition count_filter (mnp : pyparam Z) (rows : list Peak) : list Peak :=
  match mnp with
  | PyVal k =>
      if (k <? Z.of_nat (length rows))%Z
      then keep_unmasked rows (set_from k (np_zeros (length rows)))
      else rows
  | PyFalse => rows
  end.

(** Lines 343-362 on the rows. *)
Definition cell_filters (mri mps : pyparam Q) (mnp : pyparam Z) (rows : list Peak)
  : exn + list Peak :=
  match intensity_filter mri (stable_sort descending intensity rows) with
  | inr rows' => inr (spacing_filter mps mnp rows')
  | inl e => inl e
  end.

(** Rows in descending order of intensity. *)
Definition descending_intensity (rows : list Peak) : Prop :=
  StronglySorted (fun a b => intensity b <= intensity a) rows.

(** ** Reading the log *)

(** The surfaces handed to the maxima search. *)
Definition surfaces (evs : list event) : list rarray :=
  omap (fun ev => match ev with ev_get_maxima_2D cc => Some cc | _ => None end) evs.

(** The scan positions whose pattern was read. *)
Definition visited (evs : list event) : list (nat * nat) :=
  omap (fun ev => match ev with ev_DP Rx Ry => Some (Rx, Ry) | _ => None end) evs.

(** The positions of an [nx] by [ny] grid in row-major order. *)
Definition row_major (nx ny : nat) : list (nat * nat) :=
  Rx ← range nx; (fun Ry => (Rx, Ry)) <$> range ny.

Definition nonneg (a : rarray) : Prop := Forall (Forall (fun x => 0 <= x)) a.

Definition valid_subpixel (kw : options) : bool :=
  bool_decide (subpixel kw ∈ ["none"; "poly"; "multicorr"]%string).

(** ** Statements about the grid and its cells *)

(** The declared schema has the three columns the thresholds read. *)
Definition schema_ok (pla : PointListArray) : Prop :=
  forallb (has_field (pla_coordinates pla)) ["qx"%string; "qy"%string; "intensity"%string]
  = true.

(** The grid has the rows and columns its shape announces, and every cell is
    an object of the heap [h]. *)
Definition grid_ok (pla : PointListArray) (h : list PointList) : Prop :=
  length (pla_pointlists pla) = fst (pla_shape pla)
  /\ Forall (fun row => length row = snd (pla_shape pla)
                       /\ Forall (fun l : loc => (l < length h)%nat) row)
       (pla_pointlists pla).

(** The rows that are not strictly below [t] times the largest intensity. *)
Definition rows_at_or_above (t : Q) (rows : list Peak) : list Peak :=
  List.filter (fun r => negb (Qlt_bool (intensity r) (t * cell_max rows))) rows.

(** The intensity threshold in the words of the specification, for the cells
    holding [rows] and whatever the other two thresholds are: the intensity
    step goes through and leaves in the cell, in descending order, the rows
    that are not strictly below [t] times the largest intensity; the spacing
    and count steps run on that cell. *)
Definition intensity_threshold_as_stated (t : Q) (rows : list Peak) : Prop :=
  forall s l pl mps mnp, heap s !! l = Some pl -> data pl = rows ->
    threshold_cell l (PyVal t) mps mnp s
    = (remove_too_close l mps mnp ;; keep_maxNumPeaks l mnp)
        (upd s l (with_data pl (rows_at_or_above t (stable_sort descending intensity rows)))).

(** The rows of [rows] whose quotient by the largest intensity, as line 348
    computes and compares it, is not strictly below [t]. *)
Definition rows_kept_by_quotient (t : Q) (rows : list Peak) : list Peak :=
  List.filter (fun r => negb (np_div_lt (intensity r) (cell_max rows) t)) rows.


(** A peak at integer coordinates. *)
Definition peak_at (x y i : Z) : Peak := mkPeak (inject_Z x) (inject_Z y) (inject_Z i).

(** The rows kept by a count limit [k] among [rows]. *)
Definition top_rows (k : Z) (rows : list Peak) : list Peak :=
  if (k <? Z.of_nat (length rows))%Z then take (Z.to_nat k) rows else rows.

(** The cell at [l0] is empty, and the heap has [n] objects. *)
Definition empty_cell_inv (l0 : loc) (n : nat) (s : state) : Prop :=
  (exists pl, heap s !! l0 = Some pl /\ data pl = []) /\ length (heap s) = n.

(** Ten peaks, 100 pixels apart, of intensities 1 to 10 in no particular order. *)
Definition ten_peaks : list Peak :=
  (fun i => peak_at (100 * i) 0 (i + 1)) <$> [3; 7; 1; 9; 0; 5; 2; 8; 4; 6]%Z.

(** ** What a detection computes and logs *)

Section DetectionReadings.
Context {N : Numerics}.

(** [|m|^corrPower * exp(i angle(m))] for [m = FFT(DP) * probe_kernel_FT]. *)
Definition hybrid_ccc (DP : rarray) (probe_kernel_FT : carray) (corrPower : Q) : carray :=
  let m := np_mul (np_fft2 DP) probe_kernel_FT in
  np_scale (np_power (np_abs m) corrPower) (np_exp_1j (np_angle m)).

(** The real part of its inverse transform, clamped at [0]. *)
Definition hybrid_surface (DP : rarray) (probe_kernel_FT : carray) (corrPower : Q) : rarray :=
  np_maximum_0 (np_real (np_ifft2 (hybrid_ccc DP probe_kernel_FT corrPower))).

(** The maxima [get_maxima_2D] reports on that surface. *)
Definition found_maxima (DP : rarray) (probe_kernel_FT : carray) (kw : options)
  : list Q * list Q * list Q :=
  get_maxima_2D (hybrid_surface DP probe_kernel_FT (corrPower kw))
    (sigma kw) (edgeBoundary kw) (minRelativeIntensity kw) (minPeakSpacing kw)
    (maxNumPeaks kw) (negb (String.eqb (subpixel kw) "none")).

(** The half-pixel estimate handed to the upsampler for peak [ipeak]. *)
Definition xyShift_of (maxima : list Q * list Q * list Q) (ipeak : nat) : Q * Q :=
  (np_round (nth ipeak (fst (fst maxima)) 0 * 2) / 2,
   np_round (nth ipeak (snd (fst maxima)) 0 * 2) / 2).

(** The arrays after the turn of peak [ipeak]. *)
Definition refined_at (ccc : carray) (upsample_factor : Z)
    (maxima : list Q * list Q * list Q) (ipeak : nat) : list Q * list Q * list Q :=
  let subShift := upsampled_correlation ccc upsample_factor (xyShift_of maxima ipeak) in
  (<[ipeak := fst subShift]> (fst (fst maxima)),
   <[ipeak := snd subShift]> (snd (fst maxima)),
   snd maxima).

(** The calls to the upsampler made by the turns [ipeaks]. *)
Fixpoint refine_events (ccc : carray) (upsample_factor : Z) (ipeaks : list nat)
    (maxima : list Q * list Q * list Q) : list event :=
  match ipeaks with
  | [] => []
  | i :: ipeaks' =>
      ev_upsampled_correlation (xyShift_of maxima i)
        :: refine_events ccc upsample_factor ipeaks' (refined_at ccc upsample_factor maxima i)
  end.

(** The arrays appended to the PointList. *)
Definition final_maxima (DP : rarray) (probe_kernel_FT : carray) (kw : options)
  : list Q * list Q * list Q :=
  let maxima := found_maxima DP probe_kernel_FT kw in
  if String.eqb (subpixel kw) "none" then maxima
  else if String.eqb (subpixel kw) "poly" then maxima
  else fold_left (refined_at (hybrid_ccc DP probe_kernel_FT (corrPower kw)) (upsample_factor kw))
         (range (length (fst (fst maxima)))) maxima.

(** The calls into the kernels made by lines 80-123. *)
Definition correlation_events (DP : rarray) (probe_kernel_FT : carray) (kw : options)
  : list event :=
  let cc := hybrid_surface DP probe_kernel_FT (corrPower kw) in
  let maxima := found_maxima DP probe_kernel_FT kw in
  if String.eqb (subpixel kw) "none" then [ev_get_cross_correlation_fk; ev_get_maxima_2D cc]
  else if String.eqb (subpixel kw) "poly" then [ev_get_cross_correlation_fk; ev_get_maxima_2D cc]
  else [ev_fft2; ev_ifft2; ev_get_maxima_2D cc]
         ++ refine_events (hybrid_ccc DP probe_kernel_FT (corrPower kw)) (upsample_factor kw)
              (range (length (fst (fst maxima)))) maxima.

(** The rows a detection appends to its PointList. *)
Definition detected_rows (DP : rarray) (probe_kernel_FT : carray) (kw : options) : list Peak :=
  let '(xs, ys, ints) := final_maxima DP probe_kernel_FT kw in rows_of_arrays xs ys ints.

(** The calls made by a whole detection. *)
Definition detection_events (DP : rarray) (probe_kernel_FT : carray) (kw : options)
    (return_cc : bool) : list event :=
  correlation_events DP probe_kernel_FT kw
    ++ (if return_cc then [ev_gaussian_filter (hybrid_surface DP probe_kernel_FT (corrPower kw))]
        else []).

(** A caller-supplied list is an object of the heap with three columns. *)
Definition peaks_ok (peaks : option loc) (s : state) : Prop :=
  match peaks with
  | None => True
  | Some l => exists pl, heap s !! l = Some pl /\ length (coordinates pl) = 3%nat
  end.

(** [return_cc] in the words of the specification: the second value returned
    is the surface that was handed to the maxima search. *)
Definition return_cc_as_stated (DP : rarray) (probe_kernel_FT : carray) (kw : options)
    (peaks : option loc) (s : state) : Prop :=
  forall l out s',
    find_Bragg_disks_single_DP_FK DP probe_kernel_FT kw true peaks s = (inr (l, out), s') ->
    exists cc, surfaces (log s') = surfaces (log s) ++ [cc] /\ out = Some cc.

End DetectionReadings.

(** The cells of a new grid: consecutive locations from [base], row by row. *)
Fixpoint grid_locs (base nx ny : nat) : list (list loc) :=
  match nx with
  | O => []
  | S nx' => seq base ny :: grid_locs (base + ny) nx' ny
  end.

(** The rows a caller-supplied list holds before the detection. *)
Definition prior_rows (peaks : option loc) (s : state) : list Peak :=
  match peaks with
  | Some l => from_option data [] (heap s !! l)
  | None => []
  end.

(** During the scan, the cell [(Rx', Ry')] has been filled once the loops
    have passed it: its row is before row [Rx], or it is in row [Rx] before
    column [Ry]. *)
Definition filled_before (Rx Ry Rx' Ry' : nat) : bool :=
  (Rx' <? Rx)%nat || ((Rx' =? Rx)%nat && (Ry' <? Ry)%nat).

Section ScanInvariant.
Context {N : Numerics}.

(** The state of [find_Bragg_disks] when its loops stand at [(Rx, Ry)]: the
    grid occupies the heap from [base] on, every cell has the declared
    schema, the cells already passed hold the rows detected on their pattern
    and the others are empty, and the patterns read so far (after the reads
    [v0] made before the call) are those of the positions already passed, in
    row-major order. *)
Definition scan_inv (datacube : DataCube) (pk : carray) (kw : options) (base : nat)
    (v0 : list (nat * nat)) (Rx Ry : nat) (s : state) : Prop :=
  length (heap s) = (base + R_Nx datacube * R_Ny datacube)%nat
  /\ (forall Rx' Ry', (Rx' < R_Nx datacube)%nat -> (Ry' < R_Ny datacube)%nat ->
        exists pl, heap s !! (base + Rx' * R_Ny datacube + Ry')%nat = Some pl
          /\ coordinates pl = Bragg_coords
          /\ data pl = if filled_before Rx Ry Rx' Ry'
                       then detected_rows (datacube_data datacube Rx' Ry') pk kw
                       else [])
  /\ visited (log s)
     = v0 ++ row_major Rx (R_Ny datacube) ++ ((fun Ry' => (Rx, Ry')) <$> range Ry).

End ScanInvariant.

(** ** Inputs for concrete runs *)

Definition sample_DP : rarray := [[1; 3; 1]; [0; 2; 0]].

Definition flat_kernel : rarray := [[1; 1; 1]; [1; 1; 1]].

Definition multicorr_options : options := mkOptions 1 2 20 (5 # 1000) 60 70 "multicorr" 4.

Definition gaussian_options : options := mkOptions 1 2 20 (5 # 1000) 60 70 "gaussian" 4.

(** A 2 by 3 scan; the pattern at [(Rx, Ry)] is a single row. *)
Definition sample_datacube : DataCube :=
  mkDataCube 2 3 (fun Rx Ry => [[inject_Z (Z.of_nat Rx); 1; inject_Z (Z.of_nat Ry)]]).

(** ** Further statements about the thresholds *)






(** A grid whose schema lacks the intensity column. *)
Definition positions_only_grid : PointListArray :=
  mkPointListArray [("qx"%string, py_float); ("qy"%string, py_float)] (1%nat, 1%nat) [[0%nat]].

(** ** Detection at selected scan positions *)

(** An integer index [i] into an axis of [n] entries, as numpy resolves it:
    [-n <= i < n], the negative ones counting from the end. *)
Definition np_index (i : Z) (n : nat) : option nat :=
  if ((- Z.of_nat n <=? i) && (i <? Z.of_nat n))%Z
  then Some (Z.to_nat (i mod Z.of_nat n))
  else None.

Section Selected.
Context {N : Numerics}.

(** [datacube.data[rx,ry,:,:]] for integers [rx], [ry] given by the caller. *)
Definition read_DP_at (datacube : DataCube) (rx ry : Z) : M rarray :=
  match np_index rx (R_Nx datacube), np_index ry (R_Ny datacube) with
  | Some x, Some y => read_DP datacube x y
  | _, _ => raise IndexError
  end.

(** Lines 239-249: one turn of the loop over the selected positions. *)
Definition selected_turn (datacube : DataCube) (probe_kernel_FT : carray) (Rx Ry : list Z)
    (kw : options) (peaks : list loc) (i : nat) : M (list loc) :=
  DP <- read_DP_at datacube (nth i Rx 0%Z) (nth i Ry 0%Z) ;;
  found <- find_Bragg_disks_single_DP_FK DP probe_kernel_FT kw false None ;;
  ret (peaks ++ [fst found]).

(** Progress and timing output is not modelled; the assertion on the lengths
    of [Rx] and [Ry] is reported as ShapeMismatch. *)
Definition find_Bragg_disks_selected (datacube : DataCube) (probe : rarray) (Rx Ry : list Z)
    (kw : options) : M (list loc) :=
  py_assert (length Rx =? length Ry)%nat ShapeMismatch ;;
  let peaks := [] in
  ft <- fft2 probe ;;
  let probe_kernel_FT := np_conj ft in
  peaks <- for_acc (range (length Rx))
             (selected_turn datacube probe_kernel_FT Rx Ry kw) peaks ;;
  ret peaks.

(** The position selected by the [i]-th entries of [Rx] and [Ry]. *)
Definition selected_position (datacube : DataCube) (Rx Ry : list Z) (i : nat) : nat * nat :=
  (Z.to_nat (nth i Rx 0%Z mod Z.of_nat (R_Nx datacube)),
   Z.to_nat (nth i Ry 0%Z mod Z.of_nat (R_Ny datacube))).

(** The list detected on the pattern at a position. *)
Definition detected_list (datacube : DataCube) (pk : carray) (kw : options) (p : nat * nat)
  : PointList :=
  mkPointList Bragg_coords (detected_rows (datacube_data datacube (fst p) (snd p)) pk kw).

(** The estimate [v] at half-pixel precision. *)
Definition half_pixel (v : Q) : Q := np_round (v * 2) / 2.

(** The refined position of the maximum found at [(x, y)]. *)
Definition refined_position (ccc : carray) (upsample_factor : Z) (x y : Q) : Q * Q :=
  upsampled_correlation ccc upsample_factor (half_pixel x, half_pixel y).

End Selected.

(** The shifts handed to the upsampler. *)
Definition upsample_calls (evs : list event) : list (Q * Q) :=
  omap (fun ev => match ev with ev_upsampled_correlation xy => Some xy | _ => None end) evs.

(** Every entry of [idx] is an index into an axis of [n] entries. *)
Definition indices_ok (idx : list Z) (n : nat) : Prop :=
  Forall (fun i => (- Z.of_nat n <= i < Z.of_nat n)%Z) idx.



(** A scan with no position along its second axis. *)
Definition empty_datacube : DataCube := mkDataCube 2 0 (fun _ _ => sample_DP).

(** * Properties *)

(** ** Comparisons on rationals *)

Lemma Qlt_bool_iff x y : Qlt_bool x y = true <-> x < y.
Proof.
  unfold Qlt_bool. rewrite negb_true_iff. split.
  - intros H. apply Qnot_le_lt. intros Hle.
    apply Qle_bool_iff in Hle. congruence.
  - intros H. destruct (Qle_bool y x) eqn:E; [|reflexivity].
    apply Qle_bool_iff in E. exfalso. exact (Qlt_not_le _ _ H E).
Qed.

Lemma Qlt_bool_false_iff x y : Qlt_bool x y = false <-> y <= x.
Proof. unfold Qlt_bool. rewrite negb_false_iff. apply Qle_bool_iff. Qed.

(** ** float64 rounding *)

Lemma float64_morph q q' : q == q' -> float64 q = float64 q'.
Proof. intros H. unfold float64. rewrite (Qred_complete _ _ H). reflexivity. Qed.

Lemma float64_0 q : q == 0 -> float64 q = 0.
Proof. intros H. rewrite (float64_morph _ _ H). reflexivity. Qed.

Lemma float64_1 q : q == 1 -> float64 q = 1.
Proof. intros H. rewrite (float64_morph _ _ H). vm_compute. reflexivity. Qed.

(** Known float64 values: the literal 0.1, the sum [0.1 + 0.2], a tie
    between two neighbours, the smallest subnormal, and the overflow
    threshold. *)
Lemma float64_samples :
  float64 (1 # 10) == 3602879701896397 # 36028797018963968
  /\ float64 (float64 (1 # 10) + float64 (2 # 10)) == float64 (3 # 10) + 2 ^ (-54)
  /\ float64 (2 ^ 53 + 1) == 2 ^ 53
  /\ float64 (2 ^ 53 + 3) == 2 ^ 53 + 4
  /\ float64 (2 ^ (-1075)) == 0
  /\ float64 (3 * 2 ^ (-1076)) == 2 ^ (-1074)
  /\ float64 (2 ^ 1024 - 2 ^ 970 - 1) == 2 ^ 1024 - 2 ^ 971
  /\ float64 (2 ^ 1024 - 2 ^ 970) == float64_inf.
Proof. repeat split; vm_compute; reflexivity. Qed.

Lemma round_half_even_floor x : (Qfloor x <= round_half_even x)%Z.
Proof.
  unfold round_half_even. repeat case_match; lia.
Qed.

Lemma round_half_even_le x n : x <= inject_Z n -> (round_half_even x <= n)%Z.
Proof.
  intros Hx. pose proof (Qfloor_le x) as Hf.
  assert (Qfloor x <= n)%Z as Hfn.
  { rewrite <- (Qfloor_Z n). apply Qfloor_resp_le. exact Hx. }
  assert (Qfloor x < n -> Qfloor x + 1 <= n)%Z as Hstep by lia.
  assert (~ x - inject_Z (Qfloor x) < 1 # 2 -> (Qfloor x < n)%Z) as Hlt.
  { intros Hd. destruct (Z.eq_dec (Qfloor x) n) as [E|E]; [|lia].
    exfalso. apply Hd. rewrite E in *. lra. }
  unfold round_half_even.
  destruct (Qlt_bool (x - inject_Z (Qfloor x)) (1 # 2)) eqn:E1; [exact Hfn|].
  assert (~ x - inject_Z (Qfloor x) < 1 # 2) as N1
    by (intros H; apply Qlt_bool_iff in H; congruence).
  repeat case_match; auto.
Qed.

Lemma float64_ulp_pos a : 0 < float64_ulp a.
Proof. unfold float64_ulp. apply Qpower_0_lt. reflexivity. Qed.

Lemma float64_inf_gt_1 : 1 < float64_inf.
Proof. vm_compute. reflexivity. Qed.

Lemma float64_magnitude_nonneg a : 0 <= a -> 0 <= float64_magnitude a.
Proof.
  intros Ha. unfold float64_magnitude.
  destruct (Qle_bool _ _); [apply Qlt_le_weak, Qlt_trans with 1; [reflexivity|apply float64_inf_gt_1]|].
  apply Qmult_le_0_compat; [|apply Qlt_le_weak, float64_ulp_pos].
  change 0 with (inject_Z 0). rewrite <- Zle_Qle.
  etrans; [|apply round_half_even_floor].
  rewrite <- (Qfloor_Z 0). apply Qfloor_resp_le.
  apply Qle_shift_div_l; [apply float64_ulp_pos|]. rewrite Qmult_0_l. exact Ha.
Qed.

Lemma float64_nonneg q : 0 <= q -> 0 <= float64 q.
Proof.
  intros Hq. unfold float64. cbv zeta.
  destruct (Qlt_bool 0 (Qred q)) eqn:E1.
  - rewrite Qred_correct. apply float64_magnitude_nonneg. rewrite Qred_correct. exact Hq.
  - destruct (Qlt_bool (Qred q) 0) eqn:E2; [|apply Qle_refl].
    apply Qlt_bool_iff in E2. rewrite Qred_correct in E2. lra.
Qed.

Lemma float64_nonpos q : q <= 0 -> float64 q <= 0.
Proof.
  intros Hq. unfold float64. cbv zeta.
  destruct (Qlt_bool 0 (Qred q)) eqn:E1.
  - apply Qlt_bool_iff in E1. rewrite Qred_correct in E1. lra.
  - destruct (Qlt_bool (Qred q) 0) eqn:E2; [|apply Qle_refl].
    rewrite Qred_correct.
    assert (0 <= float64_magnitude (- Qred q)) as H.
    { apply float64_magnitude_nonneg. rewrite Qred_correct. lra. }
    lra.
Qed.

Lemma Qlog2_floor_le_0 a : a <= 1 -> (Qlog2_floor a <= 0)%Z.
Proof.
  intros Ha. unfold Qlog2_floor. destruct (Qle_bool 1 a) eqn:E.
  - apply Qle_bool_iff in E. assert (a == 1) as -> by (apply Qle_antisym; assumption).
    reflexivity.
  - pose proof (Z.log2_up_nonneg (Qceiling (/ a))). lia.
Qed.

Lemma float64_magnitude_le_1 a : 0 < a -> a <= 1 -> float64_magnitude a <= 1.
Proof.
  intros Ha0 Ha. unfold float64_magnitude.
  set (e := Z.max (Qlog2_floor a - 52) (-1074)).
  assert (e <= 0)%Z as He by (pose proof (Qlog2_floor_le_0 a Ha); lia).
  assert (float64_ulp a = 2 ^ e) as Hu by reflexivity.
  assert (/ 2 ^ e == inject_Z (2 ^ (- e))) as Hinv.
  { rewrite <- Qpower_opp. rewrite (Zpower_Qpower 2 (- e)) by lia. reflexivity. }
  pose proof (float64_ulp_pos a) as Hpos. rewrite Hu in *.
  assert (inject_Z (round_half_even (a / 2 ^ e)) * 2 ^ e <= 1) as Hr.
  { assert (round_half_even (a / 2 ^ e) <= 2 ^ (- e))%Z as Hn.
    { apply round_half_even_le. rewrite <- Hinv. unfold Qdiv.
      rewrite <- (Qmult_1_l (/ 2 ^ e)) at 2.
      apply Qmult_le_compat_r; [exact Ha|]. apply Qlt_le_weak, Qinv_lt_0_compat, Hpos. }
    rewrite Zle_Qle, <- Hinv in Hn.
    apply Qle_trans with (/ 2 ^ e * 2 ^ e).
    - apply Qmult_le_compat_r; [exact Hn|apply Qlt_le_weak, Hpos].
    - rewrite Qmult_comm, Qmult_inv_r; [apply Qle_refl|]. intros E. rewrite E in Hpos.
      exact (Qlt_irrefl _ Hpos). }
  destruct (Qle_bool float64_inf _) eqn:E; [|exact Hr].
  apply Qle_bool_iff in E. pose proof float64_inf_gt_1. lra.
Qed.

Lemma float64_le_1 q : q <= 1 -> float64 q <= 1.
Proof.
  intros Hq. destruct (Qlt_le_dec 0 q) as [Hpos|Hneg].
  - unfold float64. cbv zeta.
    assert (Qlt_bool 0 (Qred q) = true) as -> by (apply Qlt_bool_iff; rewrite Qred_correct; exact Hpos).
    rewrite Qred_correct. apply float64_magnitude_le_1; rewrite Qred_correct; assumption.
  - pose proof (float64_nonpos q Hneg). lra.
Qed.

(** ** Running computations *)

Lemma bind_inr {A B} (m : M A) (k : A -> M B) s a s' :
  m s = (inr a, s') -> bind m k s = k a s'.
Proof. unfold bind. intros ->. reflexivity. Qed.

Lemma bind_inl {A B} (m : M A) (k : A -> M B) s e s' :
  m s = (inl e, s') -> bind m k s = (inl e, s').
Proof. unfold bind. intros ->. reflexivity. Qed.

Lemma load_Some s l pl : heap s !! l = Some pl -> load l s = (inr pl, s).
Proof. unfold load. intros ->. reflexivity. Qed.

Lemma state_eta s : mkState (heap s) (log s) = s.
Proof. destruct s; reflexivity. Qed.

Lemma upd_lookup s l pl pl0 : heap s !! l = Some pl0 -> heap (upd s l pl) !! l = Some pl.
Proof. intros H. simpl. apply list_lookup_insert_eq. eapply lookup_lt_Some, H. Qed.

Lemma upd_lookup_ne s l l' pl : l <> l' -> heap (upd s l pl) !! l' = heap s !! l'.
Proof. intros H. simpl. apply list_lookup_insert_ne, H. Qed.

Lemma upd_upd s l a b : upd (upd s l a) l b = upd s l b.
Proof. unfold upd. simpl. rewrite list_insert_insert_eq. reflexivity. Qed.

Lemma upd_same s l pl : heap s !! l = Some pl -> upd s l pl = s.
Proof. intros H. unfold upd. rewrite list_insert_id by exact H. apply state_eta. Qed.

Lemma upd_length s l pl : length (heap (upd s l pl)) = length (heap s).
Proof. simpl. apply length_insert. Qed.

Lemma PointList_sort_run s l pl key ord :
  heap s !! l = Some pl ->
  PointList_sort l key ord s = (inr tt, upd s l (with_data pl (stable_sort ord key (data pl)))).
Proof.
  intros H. unfold PointList_sort.
  rewrite (bind_inr _ _ _ _ _ (load_Some _ _ _ H)). reflexivity.
Qed.

Lemma PointList_length_run s l pl :
  heap s !! l = Some pl -> PointList_length l s = (inr (length (data pl)), s).
Proof.
  intros H. unfold PointList_length.
  rewrite (bind_inr _ _ _ _ _ (load_Some _ _ _ H)). reflexivity.
Qed.

Lemma PointList_data_run s l pl column :
  heap s !! l = Some pl -> PointList_data l column s = (inr (column <$> data pl), s).
Proof.
  intros H. unfold PointList_data.
  rewrite (bind_inr _ _ _ _ _ (load_Some _ _ _ H)). reflexivity.
Qed.

Lemma PointList_remove_points_run s l pl mask :
  heap s !! l = Some pl -> length mask = length (data pl) ->
  PointList_remove_points l mask s
  = (inr tt, upd s l (with_data pl (keep_unmasked (data pl) mask))).
Proof.
  intros H Hlen. unfold PointList_remove_points.
  rewrite (bind_inr _ _ _ _ _ (load_Some _ _ _ H)).
  rewrite Hlen, Nat.eqb_refl. reflexivity.
Qed.

(** ** Sorting *)

Lemma insert_sorted_Permutation ord key p l : insert_sorted ord key p l ≡ₚ p :: l.
Proof.
  induction l as [|h t IH]; simpl; [reflexivity|].
  destruct (match ord with descending => _ | ascending => _ end); [|reflexivity].
  rewrite IH. apply Permutation_swap.
Qed.

Lemma stable_sort_Permutation ord key l : stable_sort ord key l ≡ₚ l.
Proof.
  induction l as [|p l IH]; simpl; [reflexivity|].
  rewrite insert_sorted_Permutation. rewrite IH. reflexivity.
Qed.

Lemma length_stable_sort ord key l : length (stable_sort ord key l) = length l.
Proof. apply Permutation_length, stable_sort_Permutation. Qed.

Lemma stable_sort_nil_inv ord key l : stable_sort ord key l = [] -> l = [].
Proof.
  intros H. apply length_zero_iff_nil. rewrite <- (length_stable_sort ord key), H. reflexivity.
Qed.

Lemma insert_sorted_descending p l :
  descending_intensity l -> descending_intensity (insert_sorted descending intensity p l).
Proof.
  unfold descending_intensity.
  induction l as [|h t IH]; intros Hs; simpl.
  - repeat constructor.
  - apply StronglySorted_inv in Hs as [Ht Hh].
    destruct (Qlt_bool (intensity p) (intensity h)) eqn:E.
    + constructor; [apply IH, Ht|].
      rewrite insert_sorted_Permutation. constructor; [|exact Hh].
      apply Qlt_le_weak, Qlt_bool_iff, E.
    + apply Qlt_bool_false_iff in E.
      constructor; [constructor; assumption|].
      constructor; [exact E|].
      eapply Forall_impl; [exact Hh|]. intros b Hb. simpl in Hb.
      eapply Qle_trans; eassumption.
Qed.

Lemma stable_sort_descending l :
  descending_intensity (stable_sort descending intensity l).
Proof.
  induction l as [|p l IH]; simpl; [constructor|].
  apply insert_sorted_descending, IH.
Qed.

Lemma keep_unmasked_Forall (P : Peak -> Prop) rows mask :
  Forall P rows -> Forall P (keep_unmasked rows mask).
Proof.
  intros H. revert mask. induction H as [|r rows Hr _ IH]; intros [|[] mask]; simpl;
    try constructor; auto.
Qed.

Lemma keep_unmasked_descending rows mask :
  descending_intensity rows -> descending_intensity (keep_unmasked rows mask).
Proof.
  unfold descending_intensity. intros H. revert mask.
  induction H as [|r rows Hs IH Hr]; intros [|[] mask]; simpl; try constructor; auto.
  apply keep_unmasked_Forall, Hr.
Qed.

Lemma take_descending n rows :
  descending_intensity rows -> descending_intensity (take n rows).
Proof.
  unfold descending_intensity. intros H. revert n.
  induction H as [|r rows Hs IH Hr]; intros [|n]; simpl; try constructor; auto.
  apply Forall_take, Hr.
Qed.

(** ** The statements of the loop body, on the rows of the cell *)

Lemma with_data_id pl : with_data pl (data pl) = pl.
Proof. destruct pl; reflexivity. Qed.

Lemma upd_with_data_same s l pl : heap s !! l = Some pl -> upd s l (with_data pl (data pl)) = s.
Proof. intros H. rewrite with_data_id. apply upd_same, H. Qed.

Lemma upd_with_data s l pl rows rows' :
  upd (upd s l (with_data pl rows)) l (with_data (with_data pl rows) rows')
  = upd s l (with_data pl rows').
Proof. apply upd_upd. Qed.

Lemma remove_below_minRelativeIntensity_run s l pl mri :
  heap s !! l = Some pl ->
  remove_below_minRelativeIntensity l mri s
  = match intensity_filter mri (data pl) with
    | inr rows' => (inr tt, upd s l (with_data pl rows'))
    | inl e => (inl e, s)
    end.
Proof.
  intros H. destruct mri as [|t]; simpl.
  - rewrite upd_with_data_same by exact H. reflexivity.
  - rewrite (bind_inr _ _ _ _ _ (PointList_data_run _ _ _ intensity H)).
    destruct (data pl) as [|r rows] eqn:E; [reflexivity|].
    rewrite fmap_cons. unfold bind at 1. simpl py_max. unfold ret at 1. cbv beta iota.
    rewrite (PointList_remove_points_run _ _ _ _ H).
    + rewrite E. reflexivity.
    + rewrite E. simpl. rewrite !length_fmap. reflexivity.
Qed.

Lemma length_clear_prefix k mask : length (clear_prefix k mask) = length mask.
Proof.
  unfold clear_prefix. rewrite length_app, length_replicate, length_drop. lia.
Qed.

Lemma length_closer_than rows i r2 :
  length (closer_than (qx <$> rows) (qy <$> rows) i r2) = length rows.
Proof.
  unfold closer_than. rewrite length_zip_with, !length_fmap. lia.
Qed.

Lemma length_set_where mask sel :
  length sel = length mask -> length (set_where mask sel) = length mask.
Proof. intros H. unfold set_where. rewrite length_zip_with. lia. Qed.

Lemma length_sweep_mask_turn rows r2 mask i :
  length mask = length rows -> length (sweep_mask_turn rows r2 mask i) = length rows.
Proof.
  intros H. unfold sweep_mask_turn. destruct (negb _); [|exact H].
  rewrite length_set_where; [exact H|].
  rewrite length_clear_prefix, length_closer_than. symmetry. exact H.
Qed.

Lemma length_sweep_fold rows r2 xs mask :
  length mask = length rows ->
  length (fold_left (sweep_mask_turn rows r2) xs mask) = length rows.
Proof.
  revert mask. induction xs as [|i xs IH]; intros mask H; simpl; [exact H|].
  apply IH, length_sweep_mask_turn, H.
Qed.

Lemma length_sweep_mask_upto rows r2 k : length (sweep_mask_upto rows r2 k) = length rows.
Proof. apply length_sweep_fold, length_replicate. Qed.

Lemma sweep_turn_run s l pl r2 mask i :
  heap s !! l = Some pl ->
  sweep_turn l r2 mask i s = (inr (sweep_mask_turn (data pl) r2 mask i), s).
Proof.
  intros H. unfold sweep_turn, sweep_mask_turn. destruct (negb _); [|reflexivity].
  rewrite (bind_inr _ _ _ _ _ (PointList_data_run _ _ _ qx H)).
  rewrite (bind_inr _ _ _ _ _ (PointList_data_run _ _ _ qy H)).
  reflexivity.
Qed.

Lemma sweep_loop_run s l pl r2 xs mask :
  heap s !! l = Some pl ->
  for_acc xs (sweep_turn l r2) mask s
  = (inr (fold_left (sweep_mask_turn (data pl) r2) xs mask), s).
Proof.
  intros H. revert mask. induction xs as [|i xs IH]; intros mask; simpl; [reflexivity|].
  rewrite (bind_inr _ _ _ _ _ (sweep_turn_run _ _ _ _ _ _ H)). apply IH.
Qed.

Lemma remove_too_close_run s l pl mps mnp :
  heap s !! l = Some pl ->
  remove_too_close l mps mnp s
  = (inr tt, upd s l (with_data pl (spacing_filter mps mnp (data pl)))).
Proof.
  intros H. unfold remove_too_close, spacing_filter. destruct (is_not_False mnp).
  - rewrite (bind_inr _ _ _ _ _ (PointList_length_run _ _ _ H)).
    rewrite (bind_inr _ _ _ _ _ (sweep_loop_run _ _ _ _ _ _ H)).
    fold (sweep_mask_upto (data pl) (py_square mps) (length (data pl))).
    fold (sweep_mask (data pl) (py_square mps)).
    rewrite (PointList_remove_points_run _ _ _ _ H); [reflexivity|].
    unfold sweep_mask. exact (length_sweep_mask_upto _ _ _).
  - rewrite upd_with_data_same by exact H. reflexivity.
Qed.

Lemma slice_start_le k n : (slice_start k n <= n)%nat.
Proof. unfold slice_start. destruct (k <? 0)%Z eqn:E; lia. Qed.

Lemma length_set_from k mask : length (set_from k mask) = length mask.
Proof.
  unfold set_from. rewrite length_app, length_take, length_replicate.
  pose proof (slice_start_le k (length mask)). lia.
Qed.

Lemma keep_maxNumPeaks_run s l pl mnp :
  heap s !! l = Some pl ->
  keep_maxNumPeaks l mnp s = (inr tt, upd s l (with_data pl (count_filter mnp (data pl)))).
Proof.
  intros H. unfold keep_maxNumPeaks, count_filter. destruct mnp as [|k].
  - rewrite upd_with_data_same by exact H. reflexivity.
  - rewrite (bind_inr _ _ _ _ _ (PointList_length_run _ _ _ H)).
    destruct (k <? Z.of_nat (length (data pl)))%Z.
    + apply PointList_remove_points_run; [exact H|].
      rewrite length_set_from. apply length_replicate.
    + rewrite upd_with_data_same by exact H. reflexivity.
Qed.

Lemma threshold_cell_filters_run s l pl mri mps mnp :
  heap s !! l = Some pl ->
  threshold_cell_filters l mri mps mnp s
  = match cell_filters mri mps mnp (data pl) with
    | inr rows' => (inr tt, upd s l (with_data pl rows'))
    | inl e => (inl e, upd s l (with_data pl (stable_sort descending intensity (data pl))))
    end.
Proof.
  intros H. unfold threshold_cell_filters, cell_filters.
  rewrite (bind_inr _ _ _ _ _ (PointList_sort_run _ _ _ intensity descending H)).
  pose proof (upd_lookup s l (with_data pl (stable_sort descending intensity (data pl))) pl H)
    as H1.
  set (s1 := upd s l _) in *.
  unfold bind at 1. rewrite (remove_below_minRelativeIntensity_run _ _ _ _ H1). simpl data.
  destruct (intensity_filter mri _) as [e|rows1]; [reflexivity|].
  subst s1. rewrite upd_with_data.
  rewrite (remove_too_close_run _ _ (with_data pl rows1)) by (eapply upd_lookup, H).
  rewrite upd_upd. reflexivity.
Qed.

Lemma threshold_cell_run s l pl mri mps mnp :
  heap s !! l = Some pl ->
  threshold_cell l mri mps mnp s
  = match cell_filters mri mps mnp (data pl) with
    | inr rows' => (inr tt, upd s l (with_data pl (count_filter mnp rows')))
    | inl e => (inl e, upd s l (with_data pl (stable_sort descending intensity (data pl))))
    end.
Proof.
  intros H. unfold threshold_cell. unfold bind at 1.
  rewrite (threshold_cell_filters_run _ _ _ _ _ _ H).
  destruct (cell_filters mri mps mnp (data pl)) as [e|rows']; [reflexivity|].
  rewrite (keep_maxNumPeaks_run _ _ (with_data pl rows')) by (eapply upd_lookup, H).
  rewrite upd_upd. reflexivity.
Qed.

(** ** The sweep of the spacing filter *)

Lemma nth_zip_with {A B C} (f : A -> B -> C) l k j da db dc :
  (j < length l)%nat -> (j < length k)%nat ->
  nth j (zip_with f l k) dc = f (nth j l da) (nth j k db).
Proof.
  revert k j. induction l as [|a l IH]; intros [|b k] [|j]; simpl; try lia; auto.
  intros. apply IH; lia.
Qed.

Lemma nth_clear_prefix k mask j :
  nth j (clear_prefix k mask) false = if (j <? k)%nat then false else nth j mask false.
Proof.
  revert mask j. induction k as [|k IH]; intros mask j.
  - unfold clear_prefix. simpl. rewrite drop_0. reflexivity.
  - destruct mask as [|b mask].
    + unfold clear_prefix. simpl. destruct j; simpl; repeat case_match; reflexivity.
    + change (clear_prefix (S k) (b :: mask)) with (false :: clear_prefix k mask).
      destruct j as [|j]; [reflexivity|]. simpl nth. rewrite IH. reflexivity.
Qed.

Lemma nth_closer_than rows k j r2 :
  (j < length rows)%nat ->
  nth j (closer_than (qx <$> rows) (qy <$> rows) k r2) false
  = Qlt_bool (dist2 rows k j) (float64 r2).
Proof.
  intros Hj. unfold closer_than, dist2.
  rewrite (nth_zip_with _ _ _ _ 0 0); [reflexivity| |]; rewrite length_fmap; exact Hj.
Qed.

(** One turn, entry by entry: row [j] is marked when it already was, or when
    row [k] is unmarked, comes before [j], and is closer than the spacing. *)
Lemma nth_sweep_mask_turn rows r2 mask k j :
  length mask = length rows -> (j < length rows)%nat ->
  nth j (sweep_mask_turn rows r2 mask k) false
  = nth j mask false
    || (negb (nth k mask false) && (k <? j)%nat && Qlt_bool (dist2 rows k j) (float64 r2)).
Proof.
  intros Hlen Hj. unfold sweep_mask_turn.
  destruct (negb (nth k mask false)); simpl; [|rewrite orb_false_r; reflexivity].
  unfold set_where.
  rewrite (nth_zip_with _ _ _ _ false false).
  - rewrite nth_clear_prefix, nth_closer_than by exact Hj.
    replace (j <? k + 1)%nat with (negb (k <? j)%nat).
    + destruct (nth j mask false), (k <? j)%nat, (Qlt_bool _ _); reflexivity.
    + destruct (Nat.ltb_spec k j), (Nat.ltb_spec j (k + 1)); simpl; try reflexivity; lia.
  - lia.
  - rewrite length_clear_prefix, length_closer_than. exact Hj.
Qed.

Lemma range_S k : range (S k) = range k ++ [k].
Proof. unfold range. rewrite seq_S. reflexivity. Qed.

Lemma sweep_mask_upto_S rows r2 k :
  sweep_mask_upto rows r2 (S k)
  = sweep_mask_turn rows r2 (sweep_mask_upto rows r2 k) k.
Proof.
  unfold sweep_mask_upto. rewrite range_S, fold_left_app. reflexivity.
Qed.

Lemma nth_sweep_mask_upto_0 rows r2 j : nth j (sweep_mask_upto rows r2 0) false = false.
Proof.
  unfold sweep_mask_upto, np_zeros. simpl.
  rewrite nth_lookup. destruct (replicate _ _ !! j) eqn:E; [|reflexivity].
  apply lookup_replicate in E as [-> _]. reflexivity.
Qed.

(** A turn leaves the entries up to its own row as they were. *)
Lemma sweep_mask_upto_stable_step rows r2 k j :
  (j <= k)%nat -> (j < length rows)%nat ->
  nth j (sweep_mask_upto rows r2 (S k)) false = nth j (sweep_mask_upto rows r2 k) false.
Proof.
  intros Hjk Hj. rewrite sweep_mask_upto_S.
  rewrite nth_sweep_mask_turn by (auto using length_sweep_mask_upto).
  destruct (Nat.ltb_spec k j); [lia|].
  rewrite andb_false_r. simpl. apply orb_false_r.
Qed.


(** After [k] turns, row [j] is marked exactly when one of the first [k] rows
    is unmarked, comes before [j], and is closer than the spacing. *)
Lemma sweep_mask_upto_spec rows r2 k j :
  (j < length rows)%nat ->
  nth j (sweep_mask_upto rows r2 k) false = true
  <-> exists i, (i < k)%nat /\ (i < j)%nat
        /\ nth i (sweep_mask_upto rows r2 k) false = false
        /\ dist2 rows i j < float64 r2.
Proof.
  intros Hj. induction k as [|k IH].
  - rewrite nth_sweep_mask_upto_0. split; [discriminate|]. intros (i & Hi & _). lia.
  - rewrite sweep_mask_upto_S at 1.
    rewrite nth_sweep_mask_turn by (auto using length_sweep_mask_upto).
    rewrite orb_true_iff, IH, !andb_true_iff, negb_true_iff, Nat.ltb_lt, Qlt_bool_iff.
    split.
    + intros [(i & Hik & Hij & Hi & Hd)|[[Hk Hkj] Hd]].
      * exists i. repeat split; try lia; [|exact Hd].
        rewrite sweep_mask_upto_stable_step by lia. exact Hi.
      * exists k. repeat split; try lia; [|exact Hd].
        rewrite sweep_mask_upto_stable_step by lia. exact Hk.
    + intros (i & Hik & Hij & Hi & Hd).
      rewrite sweep_mask_upto_stable_step in Hi by lia.
      destruct (decide (i = k)) as [->|Hne].
      * right. auto.
      * left. exists i. repeat split; try lia; assumption.
Qed.

Lemma sweep_mask_spec rows r2 j :
  (j < length rows)%nat ->
  nth j (sweep_mask rows r2) false = true
  <-> exists i, (i < j)%nat /\ nth i (sweep_mask rows r2) false = false
        /\ dist2 rows i j < float64 r2.
Proof.
  intros Hj. unfold sweep_mask. rewrite sweep_mask_upto_spec by exact Hj.
  split; intros (i & H); exists i; intuition lia.
Qed.








(** ** The intensity threshold *)

Lemma keep_unmasked_fmap (f : Q -> bool) rows :
  keep_unmasked rows (f <$> (intensity <$> rows))
  = List.filter (fun r => negb (f (intensity r))) rows.
Proof.
  induction rows as [|r rows IH]; [reflexivity|].
  rewrite !fmap_cons. cbn [keep_unmasked List.filter]. rewrite IH.
  destruct (f (intensity r)); reflexivity.
Qed.

Lemma fold_max_ge (xs : list Q) (m : Q) :
  m <= fold_left (fun m y => if Qlt_bool m y then y else m) xs m
  /\ Forall (fun x => x <= fold_left (fun m y => if Qlt_bool m y then y else m) xs m) xs.
Proof.
  revert m. induction xs as [|x xs IH]; intros m; simpl.
  - split; [apply Qle_refl|constructor].
  - destruct (Qlt_bool m x) eqn:E.
    + destruct (IH x) as [H1 H2]. apply Qlt_bool_iff in E.
      split; [eapply Qle_trans; [apply Qlt_le_weak, E|exact H1]|].
      constructor; assumption.
    + destruct (IH m) as [H1 H2]. apply Qlt_bool_false_iff in E.
      split; [exact H1|].
      constructor; [eapply Qle_trans; eassumption|exact H2].
Qed.

Lemma fold_max_In (xs : list Q) (m : Q) :
  fold_left (fun m y => if Qlt_bool m y then y else m) xs m ∈ m :: xs.
Proof.
  revert m. induction xs as [|x xs IH]; intros m; simpl; [left|].
  destruct (Qlt_bool m x).
  - right. apply IH.
  - specialize (IH m). apply elem_of_cons in IH as [->|IH]; [left|right; right; exact IH].
Qed.

(** [cell_max] is an upper bound of the intensities of the cell ... *)
Lemma cell_max_ge rows r : r ∈ rows -> intensity r <= cell_max rows.
Proof.
  destruct rows as [|r0 rows]; [intros H; inversion H|].
  unfold cell_max. rewrite fmap_cons.
  destruct (fold_max_ge (intensity <$> rows) (intensity r0)) as [H0 Hall].
  intros [->|Hin]%elem_of_cons; [exact H0|].
  rewrite Forall_forall in Hall. apply Hall.
  apply list_elem_of_fmap. exists r. split; [reflexivity|exact Hin].
Qed.

(** ... and is the intensity of one of its rows. *)
Lemma cell_max_In rows : rows <> [] -> exists r, r ∈ rows /\ intensity r = cell_max rows.
Proof.
  destruct rows as [|r0 rows]; [congruence|]. intros _.
  unfold cell_max. rewrite fmap_cons.
  pose proof (fold_max_In (intensity <$> rows) (intensity r0)) as H.
  rewrite <- fmap_cons in H. apply list_elem_of_fmap in H as (r & Hr & Hin).
  exists r. split; [exact Hin|symmetry; exact Hr].
Qed.

(** The maximum taken on the sorted rows bounds every row of the cell, and is
    the intensity of one of them. *)
Lemma cell_max_sorted_ge rows r :
  r ∈ rows -> intensity r <= cell_max (stable_sort descending intensity rows).
Proof.
  intros Hin. apply cell_max_ge. rewrite stable_sort_Permutation. exact Hin.
Qed.

Lemma cell_max_sorted_In rows :
  rows <> [] ->
  exists r, r ∈ rows /\ intensity r = cell_max (stable_sort descending intensity rows).
Proof.
  intros Hne.
  destruct (cell_max_In (stable_sort descending intensity rows)) as (r & Hin & Hr).
  { intros E. apply Hne. eapply stable_sort_nil_inv, E. }
  exists r. split; [|exact Hr]. rewrite stable_sort_Permutation in Hin. exact Hin.
Qed.

Lemma intensity_filter_quotient t rows :
  rows <> [] -> intensity_filter (PyVal t) rows = inr (rows_kept_by_quotient t rows).
Proof.
  intros Hne. unfold intensity_filter, rows_kept_by_quotient.
  destruct rows as [|r rows]; [congruence|].
  rewrite keep_unmasked_fmap. reflexivity.
Qed.

(** The test of line 348 fails on a row exactly when its rounded quotient is
    at least the threshold (for a zero maximum: when the row is not
    negative). *)
Lemma np_div_lt_false_iff x m t :
  np_div_lt x m t = false
  <-> if Qeq_bool m 0 then 0 <= x else t <= float64 (x / m).
Proof.
  unfold np_div_lt. destruct (Qeq_bool m 0); apply Qlt_bool_false_iff.
Qed.

(** The spacing and count steps on a cell holding [rows]. *)
Lemma after_intensity_run s l pl rows mps mnp :
  heap s !! l = Some pl ->
  (remove_too_close l mps mnp ;; keep_maxNumPeaks l mnp) (upd s l (with_data pl rows))
  = (inr tt, upd s l (with_data pl (count_filter mnp (spacing_filter mps mnp rows)))).
Proof.
  intros H.
  pose proof (upd_lookup s l (with_data pl rows) pl H) as H1.
  rewrite (bind_inr _ _ _ _ _ (remove_too_close_run _ _ _ mps mnp H1)).
  rewrite upd_upd.
  rewrite (keep_maxNumPeaks_run _ _ (with_data pl (spacing_filter mps mnp rows)))
    by (eapply upd_lookup, H).
  rewrite upd_upd. reflexivity.
Qed.

(** C4 (amended).  In a cell that is not empty, processed with the intensity
    threshold [t] enabled and whatever the other two thresholds are, the
    intensity step goes through and removes exactly the rows whose quotient
    by the largest intensity of the cell, computed in float64 as line 348
    does, is strictly below [t] (for a largest intensity of zero: the
    negative rows); all other rows remain, in descending order, and are what
    the spacing and count steps then work on. *)
Theorem C4_intensity_threshold s l pl t mps mnp :
  heap s !! l = Some pl -> data pl <> [] ->
  threshold_cell l (PyVal t) mps mnp s
  = (remove_too_close l mps mnp ;; keep_maxNumPeaks l mnp)
      (upd s l (with_data pl
         (rows_kept_by_quotient t (stable_sort descending intensity (data pl)))))
  /\ (forall r,
        r ∈ rows_kept_by_quotient t (stable_sort descending intensity (data pl))
        <-> r ∈ data pl
            /\ if Qeq_bool (cell_max (stable_sort descending intensity (data pl))) 0
               then 0 <= intensity r
               else t <= float64
                           (intensity r
                            / cell_max (stable_sort descending intensity (data pl))))
  /\ descending_intensity
       (rows_kept_by_quotient t (stable_sort descending intensity (data pl)))
  /\ (exists r, r ∈ data pl
        /\ intensity r = cell_max (stable_sort descending intensity (data pl)))
  /\ (forall r, r ∈ data pl ->
        intensity r <= cell_max (stable_sort descending intensity (data pl))).
Proof.
  intros H Hne.
  assert (stable_sort descending intensity (data pl) <> []) as Hne'
    by (intros E; apply Hne; eapply stable_sort_nil_inv, E).
  split; [|split; [|split; [|split]]].
  - rewrite (after_intensity_run _ _ _ _ _ _ H), (threshold_cell_run _ _ _ _ _ _ H).
    unfold cell_filters. rewrite (intensity_filter_quotient _ _ Hne'). reflexivity.
  - intros r. unfold rows_kept_by_quotient.
    rewrite list_elem_of_In, List.filter_In, <- list_elem_of_In, negb_true_iff,
      np_div_lt_false_iff.
    assert (r ∈ stable_sort descending intensity (data pl) <-> r ∈ data pl) as Hperm
      by (rewrite stable_sort_Permutation; reflexivity).
    split; intros [Hin Hq]; (split; [apply Hperm, Hin|exact Hq]).
  - unfold rows_kept_by_quotient.
    rewrite <- (keep_unmasked_fmap
                  (fun x => np_div_lt x
                              (cell_max (stable_sort descending intensity (data pl))) t)).
    apply keep_unmasked_descending, stable_sort_descending.
  - apply cell_max_sorted_In, Hne.
  - intros r. apply cell_max_sorted_ge.
Qed.

(** Intensities [3, 100, 40] and the threshold 0.05, with a spacing of 60
    and at most 70 peaks: only the row of intensity 3 is removed. *)
Lemma C4_intensity_threshold_witness :
  run (threshold_cell 0%nat (PyVal (float64 (hundredth 5))) (PyVal 60) (PyVal 70%Z))
      (test_cell [peak_at 0 0 3; peak_at 100 100 100; peak_at 200 200 40])
  = (inr tt, mkState (test_cell [peak_at 100 100 100; peak_at 200 200 40]) []).
Proof.
  destruct (C4_intensity_threshold
              (mkState (test_cell [peak_at 0 0 3; peak_at 100 100 100; peak_at 200 200 40]) [])
              0%nat
              (mkPointList Bragg_coords
                 [peak_at 0 0 3; peak_at 100 100 100; peak_at 200 200 40])
              (float64 (hundredth 5)) (PyVal 60) (PyVal 70%Z)
              eq_refl ltac:(discriminate)) as [Hrun _].
  unfold run. rewrite Hrun. vm_compute. reflexivity.
Defined.

(** Intensities 10 and 1 with the threshold 0.1: the quotient [1/10] rounds
    to the float 0.1, which is not below the threshold, and both rows stay. *)
Lemma threshold_one_tenth_keeps_both :
  run (threshold_cell 0%nat (PyVal (float64 (1 # 10))) PyFalse PyFalse)
      (test_cell [peak_at 0 0 10; peak_at 50 50 1])
  = (inr tt, mkState (test_cell [peak_at 0 0 10; peak_at 50 50 1]) []).
Proof. vm_compute. reflexivity. Qed.

(** The words of the specification fail on float64 values: in a cell of
    intensities 100 and 55 with the threshold 0.55, the quotient [55/100]
    rounds to the float 0.55, which is not below the threshold, so the code
    keeps the row, although 55 is strictly below 0.55 times 100 (the float
    0.55 is slightly above 55/100, and the float64 product exceeds 55 too).
    They also fail on a cell whose intensities are all negative (the
    quotients [-1/-1] and [-2/-1] are not below [1/2], so the code keeps both
    rows, although both intensities are below [1/2 * -1]), and on an empty
    cell (the call raises). *)
Lemma C4_as_stated_counterexample :
  (~ intensity_threshold_as_stated (float64 (55 # 100)) [peak_at 0 0 100; peak_at 1 1 55]
   /\ 55 < float64 (float64 (55 # 100) * 100))
  /\ ~ intensity_threshold_as_stated (1 # 2) [peak_at 0 0 (-1); peak_at 1 1 (-2)]
  /\ ~ intensity_threshold_as_stated (1 # 2) [].
Proof.
  split; [split|split]; try intros H.
  - specialize (H (mkState (test_cell [peak_at 0 0 100; peak_at 1 1 55]) []) 0%nat
                  (mkPointList Bragg_coords [peak_at 0 0 100; peak_at 1 1 55])
                  PyFalse PyFalse eq_refl eq_refl).
    vm_compute in H. discriminate H.
  - vm_compute. reflexivity.
  - specialize (H (mkState (test_cell [peak_at 0 0 (-1); peak_at 1 1 (-2)]) []) 0%nat
                  (mkPointList Bragg_coords [peak_at 0 0 (-1); peak_at 1 1 (-2)])
                  PyFalse PyFalse eq_refl eq_refl).
    vm_compute in H. discriminate H.
  - specialize (H (mkState (test_cell []) []) 0%nat (mkPointList Bragg_coords [])
                  PyFalse PyFalse eq_refl eq_refl).
    vm_compute in H. discriminate H.
Qed.

(** ** The guards of the three thresholds *)

(** C1.  The block that removes peaks closer than the spacing is guarded by
    [maxNumPeaks]: with [maxNumPeaks] set to [False] it does nothing, whatever
    [minPeakSpacing] is, so that the loop body does not depend on
    [minPeakSpacing] at all, and two peaks at distance 1 both survive a
    spacing of 10; the same cell loses the weaker peak once [maxNumPeaks] is a
    number.
    The truncation to [maxNumPeaks] rows depends on [maxNumPeaks] alone, and
    the intensity threshold on [minRelativeIntensity] alone. *)
Theorem C1_spacing_guarded_by_maxNumPeaks :
  (forall l mps s, remove_too_close l mps PyFalse s = (inr tt, s))
  /\ (forall l mri mps mps' s,
        threshold_cell l mri mps PyFalse s = threshold_cell l mri mps' PyFalse s)
  /\ run (threshold_Braggpeaks test_grid PyFalse (PyVal 10) PyFalse)
       (test_cell [peak_at 0 0 10; peak_at 1 0 5])
     = (inr test_grid, mkState (test_cell [peak_at 0 0 10; peak_at 1 0 5]) [])
  /\ run (threshold_Braggpeaks test_grid PyFalse (PyVal 10) (PyVal 70%Z))
       (test_cell [peak_at 0 0 10; peak_at 1 0 5])
     = (inr test_grid, mkState (test_cell [peak_at 0 0 10]) [])
  /\ (forall l s, keep_maxNumPeaks l PyFalse s = (inr tt, s))
  /\ (forall l s, remove_below_minRelativeIntensity l PyFalse s = (inr tt, s)).
Proof.
  split; [reflexivity|].
  split; [reflexivity|].
  split; [vm_compute; reflexivity|].
  split; [vm_compute; reflexivity|].
  split; reflexivity.
Qed.

(** ** The count limit *)

Lemma keep_unmasked_take rows a b :
  (a + b = length rows)%nat ->
  keep_unmasked rows (replicate a false ++ replicate b true) = take a rows.
Proof.
  revert a b. induction rows as [|r rows IH]; intros a b H.
  - destruct a, b; simpl in *; try lia; reflexivity.
  - destruct a as [|a]; simpl in *.
    + destruct b as [|b]; [lia|]. simpl. apply (IH 0%nat b). lia.
    + f_equal. apply IH. lia.
Qed.

Lemma count_filter_top k rows : (0 <= k)%Z -> count_filter (PyVal k) rows = top_rows k rows.
Proof.
  intros Hk. unfold count_filter, top_rows.
  destruct (Z.ltb_spec k (Z.of_nat (length rows))) as [Hlt|]; [|reflexivity].
  unfold set_from, np_zeros. rewrite length_replicate.
  assert (slice_start k (length rows) = Z.to_nat k) as ->.
  { unfold slice_start. destruct (Z.ltb_spec k 0); [lia|]. apply Nat.min_l. lia. }
  rewrite take_replicate, Nat.min_l by lia. apply keep_unmasked_take. lia.
Qed.

Lemma top_rows_descending k rows :
  descending_intensity rows -> descending_intensity (top_rows k rows).
Proof. intros H. unfold top_rows. destruct (_ <? _)%Z; [apply take_descending|]; exact H. Qed.

Lemma length_top_rows k rows :
  (0 <= k)%Z -> length (top_rows k rows) = Nat.min (Z.to_nat k) (length rows).
Proof.
  intros Hk. unfold top_rows.
  destruct (Z.ltb_spec k (Z.of_nat (length rows))); [rewrite length_take|]; lia.
Qed.

Lemma cell_filters_descending mri mps mnp rows0 rows :
  cell_filters mri mps mnp rows0 = inr rows -> descending_intensity rows.
Proof.
  unfold cell_filters. pose proof (stable_sort_descending rows0) as Hs.
  destruct (intensity_filter mri _) as [e|rows1] eqn:E; [discriminate|].
  intros [= <-].
  assert (descending_intensity rows1) as H1.
  { unfold intensity_filter in E. destruct mri as [|t]; [congruence|].
    destruct (stable_sort descending intensity rows0) as [|r l] eqn:E0; [discriminate|].
    assert (rows1 = keep_unmasked (r :: l)
              ((fun x => np_div_lt x (cell_max (r :: l)) t) <$> (intensity <$> r :: l)))
      as -> by congruence.
    apply keep_unmasked_descending, Hs. }
  unfold spacing_filter. destruct (is_not_False mnp); [apply keep_unmasked_descending|]; exact H1.
Qed.

Lemma load_None s l : heap s !! l = None -> load l s = (inl IndexError, s).
Proof. unfold load. intros ->. reflexivity. Qed.

(** A cell whose filters went through was an object of the heap, and holds
    what [cell_filters] computes. *)
Lemma threshold_cell_filters_inv s s1 l mri mps mnp :
  threshold_cell_filters l mri mps mnp s = (inr tt, s1) ->
  exists pl rows, heap s !! l = Some pl
    /\ cell_filters mri mps mnp (data pl) = inr rows
    /\ s1 = upd s l (with_data pl rows).
Proof.
  intros Hrun. destruct (heap s !! l) as [pl|] eqn:H.
  - rewrite (threshold_cell_filters_run _ _ _ _ _ _ H) in Hrun.
    destruct (cell_filters mri mps mnp (data pl)) as [e|rows] eqn:Hf; [discriminate|].
    exists pl, rows. injection Hrun as <-. auto.
  - unfold threshold_cell_filters, PointList_sort in Hrun.
    rewrite (bind_inl _ _ _ _ _ (bind_inl _ _ _ _ _ (load_None _ _ H))) in Hrun.
    discriminate.
Qed.

(** C5.  With [maxNumPeaks] a number [k >= 0]: let the filters of lines
    343-362 have gone through and left [pl1] in the cell.  Then the whole loop
    body goes through and leaves in the cell the first [k] rows of [pl1] when
    [pl1] has more than [k] rows, and [pl1] as it is otherwise; the cut is
    taken on the rows that survived the filters, the rows left are in
    descending order of intensity, and there are [min k (length pl1)] of
    them. *)
Theorem C5_max_count_truncation s s1 l pl1 mri mps k :
  (0 <= k)%Z ->
  threshold_cell_filters l mri mps (PyVal k) s = (inr tt, s1) ->
  heap s1 !! l = Some pl1 ->
  threshold_cell l mri mps (PyVal k) s
  = (inr tt, upd s1 l (with_data pl1 (top_rows k (data pl1))))
  /\ descending_intensity (top_rows k (data pl1))
  /\ length (top_rows k (data pl1)) = Nat.min (Z.to_nat k) (length (data pl1)).
Proof.
  intros Hk Hrun H1.
  split; [|split].
  - unfold threshold_cell. rewrite (bind_inr _ _ _ _ _ Hrun).
    rewrite (keep_maxNumPeaks_run _ _ _ _ H1), count_filter_top by exact Hk. reflexivity.
  - apply top_rows_descending.
    destruct (threshold_cell_filters_inv _ _ _ _ _ _ Hrun) as (pl & rows & H & Hf & ->).
    rewrite (upd_lookup _ _ _ _ H) in H1. injection H1 as <-.
    eapply cell_filters_descending, Hf.
  - apply length_top_rows, Hk.
Qed.

(** Ten peaks and a limit of five: the five brightest remain, brightest first. *)
Lemma C5_max_count_truncation_witness :
  run (threshold_cell 0%nat PyFalse (PyVal 60) (PyVal 5%Z)) (test_cell ten_peaks)
  = (inr tt,
     mkState (test_cell ((fun i => peak_at (100 * i) 0 (i + 1)) <$> [9; 8; 7; 6; 5]%Z)) []).
Proof.
  apply (proj1 (C5_max_count_truncation
           (mkState (test_cell ten_peaks) []) 
           (mkState (test_cell (stable_sort descending intensity ten_peaks)) [])
           0%nat
           (mkPointList Bragg_coords (stable_sort descending intensity ten_peaks))
           PyFalse (PyVal 60) 5%Z
           ltac:(lia) ltac:(vm_compute; reflexivity) ltac:(reflexivity))).
Defined.

(** ** Empty cells *)

Lemma bind_raises {A B} (m : M A) (k : A -> M B) s e :
  fst (m s) = inl e -> fst (bind m k s) = inl e.
Proof. unfold bind. destruct (m s) as [[e'|a] s']; simpl; congruence. Qed.

Lemma get_pointlist_run pla Rx Ry row l s :
  pla_pointlists pla !! Rx = Some row -> row !! Ry = Some l ->
  get_pointlist pla Rx Ry s = (inr l, s).
Proof. unfold get_pointlist. intros -> ->. reflexivity. Qed.

(** A loop whose turns either raise [e] or keep [I] does the same as a whole. *)
Lemma for_raises_or_keeps {A} (I : state -> Prop) (e : exn) (xs : list A) (body : A -> M unit) :
  (forall x s, x ∈ xs -> I s ->
     fst (body x s) = inl e \/ exists s', body x s = (inr tt, s') /\ I s') ->
  forall s, I s ->
    fst (for_ xs body s) = inl e \/ exists s', for_ xs body s = (inr tt, s') /\ I s'.
Proof.
  induction xs as [|x xs IH]; intros Hbody s Hs; simpl.
  - right. exists s. split; [reflexivity|exact Hs].
  - destruct (Hbody x s) as [Hr|(s' & Hrun & Hs')]; [left|exact Hs| |].
    + left. apply bind_raises, Hr.
    + rewrite (bind_inr _ _ _ _ _ Hrun). apply IH; [|exact Hs'].
      intros y s0 Hy. apply Hbody. right. exact Hy.
Qed.

(** If moreover one of the turns always raises, so does the loop. *)
Lemma for_raises {A} (I : state -> Prop) (e : exn) (xs : list A) (body : A -> M unit) x0 :
  (forall x s, x ∈ xs -> I s ->
     fst (body x s) = inl e \/ exists s', body x s = (inr tt, s') /\ I s') ->
  x0 ∈ xs -> (forall s, I s -> fst (body x0 s) = inl e) ->
  forall s, I s -> fst (for_ xs body s) = inl e.
Proof.
  induction xs as [|x xs IH]; intros Hbody Hin Hx0 s Hs; [inversion Hin|]. simpl.
  apply elem_of_cons in Hin as [<-|Hin].
  - apply bind_raises, Hx0, Hs.
  - destruct (Hbody x s) as [Hr|(s' & Hrun & Hs')]; [left|exact Hs| |].
    + apply bind_raises, Hr.
    + rewrite (bind_inr _ _ _ _ _ Hrun). apply IH; auto.
      intros y s0 Hy. apply Hbody. right. exact Hy.
Qed.

Lemma intensity_filter_error t rows e :
  intensity_filter (PyVal t) rows = inl e -> e = ValueError /\ rows = [].
Proof. destruct rows; simpl; intros [=]; auto. Qed.

(** With the intensity threshold on, a cell is processed with a ValueError or
    leaves the empty cell empty; the empty cell itself raises. *)
Lemma threshold_cell_empty_inv l0 n t mps mnp l s :
  empty_cell_inv l0 n s -> (l < n)%nat ->
  fst (threshold_cell l (PyVal t) mps mnp s) = inl ValueError
  \/ exists s', threshold_cell l (PyVal t) mps mnp s = (inr tt, s') /\ empty_cell_inv l0 n s'.
Proof.
  intros [(pl0 & H0 & Hempty) Hn] Hl.
  destruct (lookup_lt_is_Some_2 (heap s) l) as [pl H]; [lia|].
  rewrite (threshold_cell_run _ _ _ _ _ _ H). unfold cell_filters.
  destruct (intensity_filter (PyVal t) _) as [e|rows1] eqn:E.
  - left. apply intensity_filter_error in E as [-> _]. reflexivity.
  - right. eexists. split; [reflexivity|].
    destruct (decide (l = l0)) as [->|Hne].
    + assert (Some pl0 = Some pl) as [= <-] by exact (eq_trans (eq_sym H0) H).
      rewrite Hempty in E. discriminate E.
    + split; [|rewrite upd_length; exact Hn].
      exists pl0. rewrite upd_lookup_ne by exact Hne. auto.
Qed.

Lemma threshold_cell_empty_raises l0 n t mps mnp s :
  empty_cell_inv l0 n s -> fst (threshold_cell l0 (PyVal t) mps mnp s) = inl ValueError.
Proof.
  intros [(pl0 & H0 & Hempty) Hn].
  rewrite (threshold_cell_run _ _ _ _ _ _ H0). unfold cell_filters.
  rewrite Hempty. reflexivity.
Qed.

Lemma grid_ok_lookup pla h Rx Ry :
  grid_ok pla h -> (Rx < fst (pla_shape pla))%nat -> (Ry < snd (pla_shape pla))%nat ->
  exists row l, pla_pointlists pla !! Rx = Some row /\ row !! Ry = Some l
    /\ (l < length h)%nat.
Proof.
  intros [Hx Hrows] HRx HRy.
  destruct (lookup_lt_is_Some_2 (pla_pointlists pla) Rx) as [row Hrow]; [lia|].
  rewrite Forall_forall in Hrows.
  destruct (Hrows row) as [Hy Hlocs]; [eapply list_elem_of_lookup_2, Hrow|].
  destruct (lookup_lt_is_Some_2 row Ry) as [l Hl]; [lia|].
  exists row, l. repeat split; try assumption.
  rewrite Forall_forall in Hlocs. eapply Hlocs, list_elem_of_lookup_2, Hl.
Qed.

Lemma in_range n k : k ∈ range n <-> (k < n)%nat.
Proof. unfold range. rewrite elem_of_seq. lia. Qed.

(** C10.  On a well-formed grid one of whose cells has no rows,
    [threshold_Braggpeaks] with the intensity threshold on raises the
    ValueError of [max] of an empty sequence; it does not return. *)
Theorem C10_empty_cell_raises pla t mps mnp s Rx Ry row l0 pl0 :
  schema_ok pla -> grid_ok pla (heap s) ->
  pla_pointlists pla !! Rx = Some row -> row !! Ry = Some l0 ->
  heap s !! l0 = Some pl0 -> data pl0 = [] ->
  fst (threshold_Braggpeaks pla (PyVal t) mps mnp s) = inl ValueError.
Proof.
  intros Hschema Hgrid Hrow Hl0 H0 Hempty.
  unfold threshold_Braggpeaks. unfold schema_ok in Hschema. rewrite Hschema.
  simpl py_assert. rewrite (bind_inr _ _ s tt s eq_refl).
  apply bind_raises.
  set (I := empty_cell_inv l0 (length (heap s))).
  assert (I s) as Hs by (split; [exists pl0; auto|reflexivity]).
  assert (forall Rx' Ry' s', Rx' ∈ range (fst (pla_shape pla)) ->
            Ry' ∈ range (snd (pla_shape pla)) -> I s' ->
            fst ((pointlist <- get_pointlist pla Rx' Ry' ;;
                  threshold_cell pointlist (PyVal t) mps mnp) s') = inl ValueError
            \/ exists s'', (pointlist <- get_pointlist pla Rx' Ry' ;;
                            threshold_cell pointlist (PyVal t) mps mnp) s' = (inr tt, s'')
                 /\ I s'') as Hcell.
  { intros Rx' Ry' s' HRx%in_range HRy%in_range Hs'.
    destruct (grid_ok_lookup _ _ _ _ Hgrid HRx HRy) as (row' & l & Hr & Hl & Hlt).
    rewrite (bind_inr _ _ _ _ _ (get_pointlist_run _ _ _ _ _ s' Hr Hl)).
    apply threshold_cell_empty_inv; assumption. }
  destruct Hgrid as [Hx Hrows].
  assert (Rx ∈ range (fst (pla_shape pla))) as HRx.
  { apply in_range. rewrite <- Hx. eapply lookup_lt_Some, Hrow. }
  assert (Ry ∈ range (snd (pla_shape pla))) as HRy.
  { apply in_range. rewrite Forall_forall in Hrows.
    destruct (Hrows row) as [<- _]; [eapply list_elem_of_lookup_2, Hrow|].
    eapply lookup_lt_Some, Hl0. }
  apply (for_raises I ValueError _ _ Rx); [| exact HRx | | exact Hs].
  - intros Rx' s' HRx' Hs'. apply for_raises_or_keeps; [|exact Hs'].
    intros Ry' s'' HRy' Hs''. apply Hcell; assumption.
  - intros s' Hs'. apply (for_raises I ValueError _ _ Ry); [| exact HRy | | exact Hs'].
    + intros Ry' s'' HRy' Hs''. apply Hcell; assumption.
    + intros s'' Hs''.
      rewrite (bind_inr _ _ _ _ _ (get_pointlist_run _ _ _ _ _ s'' Hrow Hl0)).
      apply threshold_cell_empty_raises with (n := length (heap s)). exact Hs''.
Qed.

(** A 1 by 2 grid whose second cell is empty. *)
Lemma C10_empty_cell_raises_witness :
  fst (run (threshold_Braggpeaks (mkPointListArray Bragg_coords (1%nat, 2%nat) [[0%nat; 1%nat]])
              (PyVal (hundredth 5)) (PyVal 60) (PyVal 70%Z))
           [mkPointList Bragg_coords [peak_at 0 0 10; peak_at 1 0 5];
            mkPointList Bragg_coords []])
  = inl ValueError.
Proof.
  apply (C10_empty_cell_raises
           (mkPointListArray Bragg_coords (1%nat, 2%nat) [[0%nat; 1%nat]])
           (hundredth 5) (PyVal 60) (PyVal 70%Z)
           (mkState [mkPointList Bragg_coords [peak_at 0 0 10; peak_at 1 0 5];
                     mkPointList Bragg_coords []] [])
           0%nat 1%nat [0%nat; 1%nat] 1%nat (mkPointList Bragg_coords []));
    try reflexivity.
  split; [reflexivity|]. repeat constructor.
Defined.

(** ** Detection on one pattern *)

Section DetectionFacts.
Context {N : Numerics}.

Lemma refine_peak_run ccc uf maxima i s :
  refine_peak ccc uf maxima i s
  = (inr (refined_at ccc uf maxima i),
     mkState (heap s) (log s ++ [ev_upsampled_correlation (xyShift_of maxima i)])).
Proof. destruct maxima as [[xs ys] ints]. reflexivity. Qed.

Lemma refine_loop_run ccc uf ipeaks maxima s :
  for_acc ipeaks (refine_peak ccc uf) maxima s
  = (inr (fold_left (refined_at ccc uf) ipeaks maxima),
     mkState (heap s) (log s ++ refine_events ccc uf ipeaks maxima)).
Proof.
  revert maxima s. induction ipeaks as [|i ipeaks IH]; intros maxima s.
  - simpl. rewrite app_nil_r, state_eta. reflexivity.
  - cbn [for_acc fold_left refine_events].
    rewrite (bind_inr _ _ _ _ _ (refine_peak_run ccc uf maxima i s)).
    rewrite IH. cbn [heap log]. rewrite <- app_assoc. reflexivity.
Qed.

Lemma emit_then {B} ev (v : B) s :
  (emit ev ;; ret v) s = (inr v, mkState (heap s) (log s ++ [ev])).
Proof. reflexivity. Qed.

Lemma correlate_and_find_maxima_run DP pk kw s :
  correlate_and_find_maxima DP pk kw s
  = (inr (hybrid_surface DP pk (corrPower kw), final_maxima DP pk kw),
     mkState (heap s) (log s ++ correlation_events DP pk kw)).
Proof.
  unfold correlate_and_find_maxima, final_maxima, correlation_events, found_maxima.
  destruct (String.eqb (subpixel kw) "none").
  - unfold get_cross_correlation_fk, call_get_maxima_2D.
    rewrite (bind_inr _ _ _ _ _ (emit_then _ _ _)).
    rewrite (bind_inr _ _ _ _ _ (emit_then _ _ _)).
    unfold ret. cbn [heap log]. rewrite <- app_assoc. reflexivity.
  - destruct (String.eqb (subpixel kw) "poly").
    + unfold get_cross_correlation_fk, call_get_maxima_2D.
      rewrite (bind_inr _ _ _ _ _ (emit_then _ _ _)).
      rewrite (bind_inr _ _ _ _ _ (emit_then _ _ _)).
      unfold ret. cbn [heap log]. rewrite <- app_assoc. reflexivity.
    + unfold fft2, ifft2, call_get_maxima_2D.
      rewrite (bind_inr _ _ _ _ _ (emit_then _ _ _)).
      rewrite (bind_inr _ _ _ _ _ (emit_then _ _ _)).
      rewrite (bind_inr _ _ _ _ _ (emit_then _ _ _)).
      rewrite (bind_inr _ _ _ _ _ (refine_loop_run _ _ _ _ _)).
      unfold ret. cbn [heap log]. rewrite <- !app_assoc. reflexivity.
Qed.

Lemma np_maximum_0_nonneg a : nonneg (np_maximum_0 a).
Proof.
  unfold nonneg, np_maximum_0. apply Forall_forall. intros r Hr.
  apply list_elem_of_In, in_map_iff in Hr as (r0 & <- & _).
  apply Forall_forall. intros x Hx.
  apply list_elem_of_In, in_map_iff in Hx as (x0 & <- & _).
  apply Q.le_max_r.
Qed.

Lemma fold_refined_at ccc uf ipeaks maxima :
  snd (fold_left (refined_at ccc uf) ipeaks maxima) = snd maxima
  /\ length (fst (fst (fold_left (refined_at ccc uf) ipeaks maxima)))
     = length (fst (fst maxima))
  /\ length (snd (fst (fold_left (refined_at ccc uf) ipeaks maxima)))
     = length (snd (fst maxima)).
Proof.
  revert maxima. induction ipeaks as [|i ipeaks IH]; intros maxima; [auto|].
  cbn [fold_left]. destruct (IH (refined_at ccc uf maxima i)) as (H1 & H2 & H3).
  rewrite H1, H2, H3. unfold refined_at. cbn [fst snd]. rewrite !length_insert. auto.
Qed.

(** The refinement leaves the intensities as the maxima search gave them. *)
Lemma final_maxima_intensity DP pk kw :
  snd (final_maxima DP pk kw) = snd (found_maxima DP pk kw).
Proof.
  unfold final_maxima. destruct (String.eqb _ "none"); [reflexivity|].
  destruct (String.eqb _ "poly"); [reflexivity|]. apply fold_refined_at.
Qed.

Lemma found_maxima_parallel DP pk kw :
  length (snd (fst (found_maxima DP pk kw))) = length (fst (fst (found_maxima DP pk kw)))
  /\ length (snd (found_maxima DP pk kw)) = length (fst (fst (found_maxima DP pk kw))).
Proof.
  unfold found_maxima.
  pose proof (get_maxima_2D_parallel (hybrid_surface DP pk (corrPower kw))
                (sigma kw) (edgeBoundary kw) (minRelativeIntensity kw) (minPeakSpacing kw)
                (maxNumPeaks kw) (negb (String.eqb (subpixel kw) "none"))) as H.
  destruct (get_maxima_2D _ _ _ _ _ _ _) as [[xs ys] ints]. exact H.
Qed.

Lemma final_maxima_parallel DP pk kw :
  length (snd (fst (final_maxima DP pk kw))) = length (fst (fst (final_maxima DP pk kw)))
  /\ length (snd (final_maxima DP pk kw)) = length (fst (fst (final_maxima DP pk kw))).
Proof.
  pose proof (found_maxima_parallel DP pk kw) as [H1 H2].
  unfold final_maxima. destruct (String.eqb _ "none"); [auto|].
  destruct (String.eqb _ "poly"); [auto|].
  destruct (fold_refined_at (hybrid_ccc DP pk (corrPower kw)) (upsample_factor kw)
              (range (length (fst (fst (found_maxima DP pk kw))))) (found_maxima DP pk kw))
    as (E1 & E2 & E3).
  rewrite E1, E2, E3. auto.
Qed.

Lemma rows_of_arrays_intensity xs ys ints :
  length ys = length xs -> length ints = length xs ->
  intensity <$> rows_of_arrays xs ys ints = ints.
Proof.
  revert ys ints. induction xs as [|x xs IH]; intros [|y ys] [|i ints];
    cbn [rows_of_arrays length]; try discriminate; [reflexivity|].
  intros [= H1] [= H2]. rewrite fmap_cons. cbn [intensity]. f_equal. apply IH; assumption.
Qed.

(** The intensities of the appended rows are those of the maxima search. *)
Lemma detected_rows_intensity DP pk kw :
  intensity <$> detected_rows DP pk kw = snd (found_maxima DP pk kw).
Proof.
  unfold detected_rows. rewrite <- final_maxima_intensity.
  pose proof (final_maxima_parallel DP pk kw) as [H1 H2].
  destruct (final_maxima DP pk kw) as [[xs ys] ints].
  apply rows_of_arrays_intensity; assumption.
Qed.

Lemma PointList_add_tuple_of_nparrays_run s l pl xs ys ints :
  heap s !! l = Some pl -> length (coordinates pl) = 3%nat ->
  length ys = length xs -> length ints = length xs ->
  PointList_add_tuple_of_nparrays l (xs, ys, ints) s
  = (inr tt, upd s l (with_data pl (data pl ++ rows_of_arrays xs ys ints))).
Proof.
  intros H Hc H1 H2. unfold PointList_add_tuple_of_nparrays.
  rewrite (bind_inr _ _ _ _ _ (load_Some _ _ _ H)).
  rewrite Hc, H1, H2, !Nat.eqb_refl. reflexivity.
Qed.

Lemma add_detected_rows_run s l pl DP pk kw :
  heap s !! l = Some pl -> length (coordinates pl) = 3%nat ->
  PointList_add_tuple_of_nparrays l (final_maxima DP pk kw) s
  = (inr tt, upd s l (with_data pl (data pl ++ detected_rows DP pk kw))).
Proof.
  intros H Hc. unfold detected_rows.
  pose proof (final_maxima_parallel DP pk kw) as [H1 H2].
  destruct (final_maxima DP pk kw) as [[xs ys] ints].
  apply PointList_add_tuple_of_nparrays_run; assumption.
Qed.

Lemma valid_subpixel_assert kw s :
  valid_subpixel kw = true ->
  py_assert (bool_decide (subpixel kw ∈ ["none"; "poly"; "multicorr"]%string))
    InvalidConfiguration s = (inr tt, s).
Proof. unfold valid_subpixel. intros ->. reflexivity. Qed.

(** A detection into a caller-supplied list. *)
Lemma find_Bragg_disks_single_DP_FK_run_Some DP pk kw return_cc l pl s :
  valid_subpixel kw = true ->
  heap s !! l = Some pl -> length (coordinates pl) = 3%nat ->
  find_Bragg_disks_single_DP_FK DP pk kw return_cc (Some l) s
  = (inr (l, if return_cc
             then Some (gaussian_filter (hybrid_surface DP pk (corrPower kw)) (sigma kw))
             else None),
     mkState (<[l := with_data pl (data pl ++ detected_rows DP pk kw)]> (heap s))
       (log s ++ detection_events DP pk kw return_cc)).
Proof.
  intros Hv H Hc. unfold find_Bragg_disks_single_DP_FK.
  rewrite (bind_inr _ _ _ _ _ (valid_subpixel_assert _ _ Hv)).
  rewrite (bind_inr _ _ _ _ _ (correlate_and_find_maxima_run _ _ _ _)).
  set (s1 := mkState (heap s) (log s ++ correlation_events DP pk kw)).
  rewrite (bind_inr _ _ s1 l s1 eq_refl).
  rewrite (bind_inr _ _ _ _ _ (add_detected_rows_run s1 l pl _ _ _ H Hc)).
  unfold detection_events, upd, s1. cbn [heap log].
  destruct return_cc.
  - unfold call_gaussian_filter. rewrite (bind_inr _ _ _ _ _ (emit_then _ _ _)).
    unfold ret. cbn [heap log]. rewrite <- app_assoc. reflexivity.
  - unfold ret. rewrite app_nil_r. reflexivity.
Qed.

(** A detection into a list of its own. *)
Lemma find_Bragg_disks_single_DP_FK_run_None DP pk kw return_cc s :
  valid_subpixel kw = true ->
  find_Bragg_disks_single_DP_FK DP pk kw return_cc None s
  = (inr (length (heap s),
          if return_cc
          then Some (gaussian_filter (hybrid_surface DP pk (corrPower kw)) (sigma kw))
          else None),
     mkState (heap s ++ [mkPointList Bragg_coords (detected_rows DP pk kw)])
       (log s ++ detection_events DP pk kw return_cc)).
Proof.
  intros Hv. unfold find_Bragg_disks_single_DP_FK.
  rewrite (bind_inr _ _ _ _ _ (valid_subpixel_assert _ _ Hv)).
  rewrite (bind_inr _ _ _ _ _ (correlate_and_find_maxima_run _ _ _ _)).
  unfold PointList_new.
  set (s1 := mkState (heap s ++ [mkPointList Bragg_coords []])
               (log s ++ correlation_events DP pk kw)).
  rewrite (bind_inr (alloc _) _ (mkState (heap s) (log s ++ correlation_events DP pk kw))
             (length (heap s)) s1 eq_refl).
  rewrite (bind_inr _ _ _ _ _
             (add_detected_rows_run s1 (length (heap s)) (mkPointList Bragg_coords []) _ _ _
                (list_lookup_middle _ _ _ _ eq_refl) eq_refl)).
  unfold s1.
  unfold detection_events, upd, with_data. cbn [heap log data coordinates app].
  rewrite (insert_app_r_alt (heap s)) by lia. rewrite Nat.sub_diag. cbn [insert list_insert].
  destruct return_cc.
  - unfold call_gaussian_filter. rewrite (bind_inr _ _ _ _ _ (emit_then _ _ _)).
    unfold ret. cbn [heap log]. rewrite <- app_assoc. reflexivity.
  - unfold ret. rewrite app_nil_r. reflexivity.
Qed.

Lemma surfaces_app evs1 evs2 : surfaces (evs1 ++ evs2) = surfaces evs1 ++ surfaces evs2.
Proof. apply omap_app. Qed.

Lemma surfaces_refine_events ccc uf ipeaks maxima :
  surfaces (refine_events ccc uf ipeaks maxima) = [].
Proof.
  revert maxima. induction ipeaks as [|i ipeaks IH]; intros maxima; [reflexivity|].
  cbn [refine_events]. unfold surfaces. cbn [omap list_omap]. apply IH.
Qed.

Lemma surfaces_correlation_events DP pk kw :
  surfaces (correlation_events DP pk kw) = [hybrid_surface DP pk (corrPower kw)].
Proof.
  unfold correlation_events. destruct (String.eqb _ "none"); [reflexivity|].
  destruct (String.eqb _ "poly"); [reflexivity|].
  rewrite surfaces_app, surfaces_refine_events. reflexivity.
Qed.

Lemma surfaces_detection_events DP pk kw return_cc :
  surfaces (detection_events DP pk kw return_cc) = [hybrid_surface DP pk (corrPower kw)].
Proof.
  unfold detection_events. rewrite surfaces_app, surfaces_correlation_events.
  destruct return_cc; reflexivity.
Qed.

Lemma PointList_add_tuple_of_nparrays_log l arrays s :
  log (snd (PointList_add_tuple_of_nparrays l arrays s)) = log s.
Proof.
  destruct arrays as [[xs ys] ints]. unfold PointList_add_tuple_of_nparrays, bind, load.
  destruct (heap s !! l) as [pl|]; [|reflexivity].
  destruct (length (coordinates pl) =? 3)%nat; [|reflexivity]. cbn [py_assert ret].
  destruct (_ && _); reflexivity.
Qed.

(** What a detection adds to the log, whatever its outcome. *)
Lemma find_Bragg_disks_single_DP_FK_log DP pk kw return_cc peaks s :
  exists evs,
    log (snd (find_Bragg_disks_single_DP_FK DP pk kw return_cc peaks s)) = log s ++ evs
    /\ surfaces evs
       = if valid_subpixel kw then [hybrid_surface DP pk (corrPower kw)] else [].
Proof.
  unfold find_Bragg_disks_single_DP_FK. destruct (valid_subpixel kw) eqn:Hv.
  - rewrite (bind_inr _ _ _ _ _ (valid_subpixel_assert _ _ Hv)).
    rewrite (bind_inr _ _ _ _ _ (correlate_and_find_maxima_run _ _ _ _)).
    set (s1 := mkState (heap s) (log s ++ correlation_events DP pk kw)).
    assert (exists l s2, (match peaks with
                          | Some l => ret l
                          | None => PointList_new Bragg_coords
                          end) s1 = (inr l, s2) /\ log s2 = log s1) as (l & s2 & Hp & Hlog).
    { destruct peaks as [l|]; eexists _, _; split; reflexivity. }
    rewrite (bind_inr _ _ _ _ _ Hp). unfold bind at 1.
    pose proof (PointList_add_tuple_of_nparrays_log l (final_maxima DP pk kw) s2) as Hadd.
    destruct (PointList_add_tuple_of_nparrays l (final_maxima DP pk kw) s2) as [[e|[]] s3].
    + exists (correlation_events DP pk kw). cbn [snd] in *. rewrite Hadd, Hlog.
      split; [reflexivity|apply surfaces_correlation_events].
    + cbn [snd] in Hadd. destruct return_cc.
      * exists (detection_events DP pk kw true). split; [|apply surfaces_detection_events].
        unfold call_gaussian_filter. rewrite (bind_inr _ _ _ _ _ (emit_then _ _ _)).
        unfold ret, detection_events. cbn [snd log]. rewrite Hadd, Hlog. unfold s1.
        cbn [log]. rewrite <- app_assoc. reflexivity.
      * exists (correlation_events DP pk kw). unfold ret. cbn [snd]. rewrite Hadd, Hlog.
        split; [reflexivity|apply surfaces_correlation_events].
  - exists []. unfold valid_subpixel in Hv. rewrite Hv. cbn [py_assert].
    rewrite (bind_inl (raise _) _ s InvalidConfiguration s eq_refl). cbn [snd].
    rewrite app_nil_r. split; reflexivity.
Qed.

(** C7.  A [subpixel] value outside 'none', 'poly', 'multicorr' makes
    [find_Bragg_disks_single_DP_FK] fail with the InvalidConfiguration
    assertion in the state it was called in: no PointList is touched and no
    call into the numerical kernels is logged. *)
Theorem C7_unrecognized_subpixel DP pk kw return_cc peaks s :
  subpixel kw ∉ ["none"; "poly"; "multicorr"]%string ->
  find_Bragg_disks_single_DP_FK DP pk kw return_cc peaks s = (inl InvalidConfiguration, s).
Proof.
  intros Hv. unfold find_Bragg_disks_single_DP_FK.
  rewrite bool_decide_eq_false_2 by exact Hv. reflexivity.
Qed.

(** C2 (amended).  With [return_cc] set and a recognised [subpixel], the call
    goes through and its second value is [gaussian_filter(cc, sigma)], where
    [cc] is the clamped, non-negative surface that was handed to the maxima
    search (and only [cc] was handed to it). *)
Theorem C2_return_cc_smoothed DP pk kw peaks s :
  valid_subpixel kw = true -> peaks_ok peaks s ->
  exists l s',
    find_Bragg_disks_single_DP_FK DP pk kw true peaks s
    = (inr (l, Some (gaussian_filter (hybrid_surface DP pk (corrPower kw)) (sigma kw))), s')
    /\ surfaces (log s') = surfaces (log s) ++ [hybrid_surface DP pk (corrPower kw)]
    /\ nonneg (hybrid_surface DP pk (corrPower kw)).
Proof.
  intros Hv Hp. destruct peaks as [l|].
  - destruct Hp as (pl & H & Hc). eexists _, _.
    rewrite (find_Bragg_disks_single_DP_FK_run_Some _ _ _ _ _ _ _ Hv H Hc).
    split; [reflexivity|]. cbn [log].
    rewrite surfaces_app, surfaces_detection_events.
    split; [reflexivity|apply np_maximum_0_nonneg].
  - eexists _, _. rewrite (find_Bragg_disks_single_DP_FK_run_None _ _ _ _ _ Hv).
    split; [reflexivity|]. cbn [log].
    rewrite surfaces_app, surfaces_detection_events.
    split; [reflexivity|apply np_maximum_0_nonneg].
Qed.

(** C6.  Whatever the pattern, the probe transform, [corrPower] and the
    other arguments, and whatever the outcome of the call, every surface that
    [find_Bragg_disks_single_DP_FK] hands to the maxima search has all its
    elements [>= 0]; for a recognised [subpixel] exactly one surface is handed
    over, and it is the real part of the inverse transform of
    [|M|^corrPower * exp(i angle(M))], [M = FFT(DP) * probe_kernel_FT],
    clamped at [0]. *)
Theorem C6_surface_nonneg DP pk kw return_cc peaks s :
  exists evs,
    log (snd (find_Bragg_disks_single_DP_FK DP pk kw return_cc peaks s)) = log s ++ evs
    /\ Forall nonneg (surfaces evs)
    /\ surfaces evs
       = (if valid_subpixel kw
          then [np_maximum_0
                  (np_real (np_ifft2
                     (np_scale
                        (np_power (np_abs (np_mul (np_fft2 DP) pk)) (corrPower kw))
                        (np_exp_1j (np_angle (np_mul (np_fft2 DP) pk))))))]
          else []).
Proof.
  destruct (find_Bragg_disks_single_DP_FK_log DP pk kw return_cc peaks s) as (evs & Hlog & Hs).
  exists evs. split; [exact Hlog|]. split; [|exact Hs].
  rewrite Hs. destruct (valid_subpixel kw); [|constructor].
  constructor; [apply np_maximum_0_nonneg|constructor].
Qed.

Lemma valid_subpixel_multicorr kw : subpixel kw = "multicorr"%string -> valid_subpixel kw = true.
Proof. unfold valid_subpixel. intros ->. reflexivity. Qed.

Lemma found_maxima_multicorr DP pk kw :
  subpixel kw = "multicorr"%string ->
  found_maxima DP pk kw
  = get_maxima_2D (hybrid_surface DP pk (corrPower kw)) (sigma kw) (edgeBoundary kw)
      (minRelativeIntensity kw) (minPeakSpacing kw) (maxNumPeaks kw) true.
Proof. unfold found_maxima. intros ->. reflexivity. Qed.

(** C8.  In 'multicorr' mode the call goes through, appends the detected rows
    to the PointList (the caller's, or a new one), and the intensity column of
    the appended rows is the intensity array returned by [get_maxima_2D],
    one intensity per detected maximum: the upsampling pass, which is logged
    once per maximum, writes positions only. *)
Theorem C8_multicorr_keeps_intensity DP pk kw return_cc peaks s :
  subpixel kw = "multicorr"%string -> peaks_ok peaks s ->
  exists l out s' pl',
    find_Bragg_disks_single_DP_FK DP pk kw return_cc peaks s = (inr (l, out), s')
    /\ heap s' !! l = Some pl'
    /\ data pl' = prior_rows peaks s ++ detected_rows DP pk kw
    /\ intensity <$> detected_rows DP pk kw
       = snd (get_maxima_2D (hybrid_surface DP pk (corrPower kw)) (sigma kw)
                (edgeBoundary kw) (minRelativeIntensity kw) (minPeakSpacing kw)
                (maxNumPeaks kw) true)
    /\ log s' = log s ++ detection_events DP pk kw return_cc.
Proof.
  intros Hm Hp. pose proof (valid_subpixel_multicorr kw Hm) as Hv.
  pose proof (detected_rows_intensity DP pk kw) as Hint.
  rewrite (found_maxima_multicorr _ _ _ Hm) in Hint.
  destruct peaks as [l|].
  - destruct Hp as (pl & H & Hc). eexists _, _, _, _.
    rewrite (find_Bragg_disks_single_DP_FK_run_Some _ _ _ _ _ _ _ Hv H Hc).
    split; [reflexivity|]. cbn [heap log].
    split; [apply list_lookup_insert_eq; eapply lookup_lt_Some, H|].
    unfold prior_rows. rewrite H. auto.
  - eexists _, _, _, _. rewrite (find_Bragg_disks_single_DP_FK_run_None _ _ _ _ _ Hv).
    split; [reflexivity|]. cbn [heap log].
    split; [apply list_lookup_middle; reflexivity|]. auto.
Qed.

End DetectionFacts.

(** ** The grid of a full scan *)

Lemma new_pointlists_run coords n s :
  new_pointlists coords n s
  = (inr (seq (length (heap s)) n),
     mkState (heap s ++ replicate n (mkPointList coords [])) (log s)).
Proof.
  revert s. induction n as [|n IH]; intros s.
  - simpl. rewrite app_nil_r, state_eta. reflexivity.
  - cbn [new_pointlists]. unfold PointList_new.
    rewrite (bind_inr (alloc _) _ s (length (heap s))
               (mkState (heap s ++ [mkPointList coords []]) (log s)) eq_refl).
    rewrite (bind_inr _ _ _ _ _ (IH _)). unfold ret. cbn [heap log].
    rewrite length_app, <- app_assoc. cbn [length app replicate seq].
    rewrite Nat.add_1_r. reflexivity.
Qed.

Lemma new_grid_run coords nx ny s :
  new_grid coords nx ny s
  = (inr (grid_locs (length (heap s)) nx ny),
     mkState (heap s ++ replicate (nx * ny) (mkPointList coords [])) (log s)).
Proof.
  revert s. induction nx as [|nx IH]; intros s.
  - simpl. rewrite app_nil_r, state_eta. reflexivity.
  - cbn [new_grid grid_locs].
    rewrite (bind_inr _ _ _ _ _ (new_pointlists_run _ _ _)).
    rewrite (bind_inr _ _ _ _ _ (IH _)). unfold ret. cbn [heap log].
    rewrite length_app, length_replicate, <- app_assoc, <- replicate_add.
    reflexivity.
Qed.

Lemma PointListArray_new_run coords nx ny s :
  PointListArray_new coords (nx, ny) s
  = (inr (mkPointListArray coords (nx, ny) (grid_locs (length (heap s)) nx ny)),
     mkState (heap s ++ replicate (nx * ny) (mkPointList coords [])) (log s)).
Proof.
  unfold PointListArray_new. cbn [fst snd].
  rewrite (bind_inr _ _ _ _ _ (new_grid_run _ _ _ _)). reflexivity.
Qed.

Lemma length_grid_locs base nx ny : length (grid_locs base nx ny) = nx.
Proof. revert base. induction nx as [|nx IH]; intros base; simpl; [|rewrite IH]; reflexivity. Qed.

Lemma grid_locs_lookup base nx ny Rx :
  (Rx < nx)%nat -> grid_locs base nx ny !! Rx = Some (seq (base + Rx * ny) ny).
Proof.
  revert base Rx. induction nx as [|nx IH]; intros base Rx H; [lia|].
  destruct Rx as [|Rx]; cbn [grid_locs].
  - simpl. rewrite Nat.add_0_r. reflexivity.
  - change (grid_locs (base + ny) nx ny !! Rx = Some (seq (base + S Rx * ny) ny)).
    rewrite IH by lia. do 2 f_equal. lia.
Qed.

Lemma concat_grid_locs base nx ny : concat (grid_locs base nx ny) = seq base (nx * ny).
Proof.
  revert base. induction nx as [|nx IH]; intros base; [reflexivity|].
  cbn [grid_locs concat]. rewrite IH. cbn [Nat.mul]. rewrite seq_app. reflexivity.
Qed.

Lemma grid_locs_cell base nx ny Rx Ry :
  (Rx < nx)%nat -> (Ry < ny)%nat ->
  exists row, grid_locs base nx ny !! Rx = Some row
    /\ row !! Ry = Some (base + Rx * ny + Ry)%nat.
Proof.
  intros HRx HRy. eexists. split; [apply grid_locs_lookup, HRx|].
  apply lookup_seq. auto.
Qed.

(** A loop over [range n] whose turns carry an invariant from [k] to [k+1]. *)
Lemma for_range_inv (I : nat -> state -> Prop) n (body : nat -> M unit) :
  (forall k s, (k < n)%nat -> I k s -> exists s', body k s = (inr tt, s') /\ I (S k) s') ->
  forall s, I 0%nat s -> exists s', for_ (range n) body s = (inr tt, s') /\ I n s'.
Proof.
  intros Hbody. induction n as [|n IH]; intros s H0.
  - exists s. split; [reflexivity|exact H0].
  - assert (forall xs ys s, for_ (xs ++ ys) body s
              = (for_ xs body ;; for_ ys body) s) as Happ.
    { clear. induction xs as [|x xs IHx]; intros ys s; cbn [for_ app].
      - reflexivity.
      - unfold bind in *. destruct (body x s) as [[e|[]] s1]; [reflexivity|].
        apply IHx. }
    assert (forall k s, (k < n)%nat -> I k s ->
              exists s', body k s = (inr tt, s') /\ I (S k) s') as Hbody'
      by (intros; apply Hbody; auto; lia).
    destruct (IH Hbody' s H0) as (s1 & Hrun & H1).
    destruct (Hbody n s1) as (s2 & Hrun2 & H2); [lia|exact H1|].
    exists s2. split; [|exact H2].
    rewrite range_S, Happ, (bind_inr _ _ _ _ _ Hrun). cbn [for_].
    rewrite (bind_inr _ _ _ _ _ Hrun2). reflexivity.
Qed.

Lemma cell_index_inj ny Rx Ry Rx' Ry' :
  (Ry < ny)%nat -> (Ry' < ny)%nat ->
  (Rx * ny + Ry = Rx' * ny + Ry')%nat -> Rx = Rx' /\ Ry = Ry'.
Proof.
  intros H1 H2 H.
  assert (Rx = Rx') as -> by nia. split; [reflexivity|lia].
Qed.

Lemma row_major_S k ny :
  row_major (S k) ny = row_major k ny ++ ((fun Ry => (k, Ry)) <$> range ny).
Proof.
  unfold row_major. rewrite range_S, bind_app. cbn [mbind list_bind].
  rewrite app_nil_r. reflexivity.
Qed.

Lemma visited_app evs1 evs2 : visited (evs1 ++ evs2) = visited evs1 ++ visited evs2.
Proof. apply omap_app. Qed.

Section ScanFacts.
Context {N : Numerics}.

Lemma visited_refine_events ccc uf ipeaks maxima :
  visited (refine_events ccc uf ipeaks maxima) = [].
Proof.
  revert maxima. induction ipeaks as [|i ipeaks IH]; intros maxima; [reflexivity|].
  cbn [refine_events]. unfold visited. cbn [omap list_omap]. apply IH.
Qed.

Lemma visited_detection_events DP pk kw return_cc :
  visited (detection_events DP pk kw return_cc) = [].
Proof.
  unfold detection_events, correlation_events. rewrite visited_app.
  assert (visited (if return_cc
                   then [ev_gaussian_filter (hybrid_surface DP pk (corrPower kw))]
                   else []) = []) as -> by (destruct return_cc; reflexivity).
  rewrite app_nil_r.
  destruct (String.eqb _ "none"); [reflexivity|].
  destruct (String.eqb _ "poly"); [reflexivity|].
  rewrite visited_app, visited_refine_events. reflexivity.
Qed.

Lemma scan_inv_start datacube pk kw s evs :
  visited evs = [] ->
  scan_inv datacube pk kw (length (heap s)) (visited (log s)) 0 0
    (mkState (heap s ++ replicate (R_Nx datacube * R_Ny datacube) (mkPointList Bragg_coords []))
       (log s ++ evs)).
Proof.
  intros Hevs. split; [|split]; cbn [heap log].
  - rewrite length_app, length_replicate. reflexivity.
  - intros Rx' Ry' HRx HRy. exists (mkPointList Bragg_coords []).
    split; [|split; [reflexivity|]].
    + rewrite lookup_app_r by lia. apply lookup_replicate_2. nia.
    + unfold filled_before. cbn [Nat.ltb Nat.leb]. rewrite andb_false_r. reflexivity.
  - rewrite visited_app, Hevs. reflexivity.
Qed.

Lemma filled_before_next Rx Ry Rx' Ry' :
  filled_before Rx (S Ry) Rx' Ry'
  = bool_decide (Rx' = Rx /\ Ry' = Ry) || filled_before Rx Ry Rx' Ry'.
Proof.
  unfold filled_before.
  destruct (Nat.ltb_spec Rx' Rx), (Nat.eqb_spec Rx' Rx), (Nat.ltb_spec Ry' (S Ry)),
    (Nat.ltb_spec Ry' Ry), (bool_decide_reflect (Rx' = Rx /\ Ry' = Ry));
    cbn; try reflexivity; lia.
Qed.

Lemma filled_before_row Rx ny Rx' Ry' :
  (Ry' < ny)%nat -> filled_before (S Rx) 0 Rx' Ry' = filled_before Rx ny Rx' Ry'.
Proof.
  intros H. unfold filled_before.
  destruct (Nat.ltb_spec Rx' (S Rx)), (Nat.eqb_spec Rx' (S Rx)), (Nat.ltb_spec Rx' Rx),
    (Nat.eqb_spec Rx' Rx), (Nat.ltb_spec Ry' ny); cbn; try reflexivity; lia.
Qed.

Lemma scan_inv_row datacube pk kw base v0 Rx s :
  scan_inv datacube pk kw base v0 Rx (R_Ny datacube) s ->
  scan_inv datacube pk kw base v0 (S Rx) 0 s.
Proof.
  intros (Hlen & Hcells & Hvis). split; [exact Hlen|]. split.
  - intros Rx' Ry' HRx HRy. destruct (Hcells Rx' Ry' HRx HRy) as (pl & H & Hc & Hd).
    exists pl. rewrite (filled_before_row Rx (R_Ny datacube)) by exact HRy. auto.
  - rewrite Hvis, row_major_S. cbn [range seq fmap list_fmap].
    rewrite app_nil_r. reflexivity.
Qed.

(** One turn of the inner loop of [find_Bragg_disks]. *)
Lemma scan_step datacube pk kw base v0 Rx Ry s :
  valid_subpixel kw = true ->
  (Rx < R_Nx datacube)%nat -> (Ry < R_Ny datacube)%nat ->
  scan_inv datacube pk kw base v0 Rx Ry s ->
  exists s',
    (DP <- read_DP datacube Rx Ry ;;
     cell <- get_pointlist
               (mkPointListArray Bragg_coords (R_Nx datacube, R_Ny datacube)
                  (grid_locs base (R_Nx datacube) (R_Ny datacube))) Rx Ry ;;
     find_Bragg_disks_single_DP_FK DP pk kw false (Some cell) ;;
     ret tt) s = (inr tt, s')
    /\ scan_inv datacube pk kw base v0 Rx (S Ry) s'.
Proof.
  intros Hv HRx HRy (Hlen & Hcells & Hvis).
  destruct (Hcells Rx Ry HRx HRy) as (pl & H & Hc & Hd).
  destruct (grid_locs_cell base _ _ Rx Ry HRx HRy) as (row & Hrow & Hcell).
  set (s1 := mkState (heap s) (log s ++ [ev_DP Rx Ry])).
  eexists. split.
  - unfold read_DP. rewrite (bind_inr _ _ _ _ _ (emit_then _ _ _)).
    rewrite (bind_inr _ _ _ _ _
               (get_pointlist_run
                  (mkPointListArray Bragg_coords (R_Nx datacube, R_Ny datacube)
                     (grid_locs base (R_Nx datacube) (R_Ny datacube)))
                  Rx Ry row _ s1 Hrow Hcell)).
    rewrite (bind_inr _ _ _ _ _
               (find_Bragg_disks_single_DP_FK_run_Some _ pk kw false _ pl s1 Hv H
                  ltac:(rewrite Hc; reflexivity))).
    reflexivity.
  - unfold s1. split; [|split]; cbn [heap log].
    + rewrite length_insert. exact Hlen.
    + intros Rx' Ry' HRx' HRy'. rewrite filled_before_next.
      destruct (bool_decide_reflect (Rx' = Rx /\ Ry' = Ry)) as [[-> ->]|Hne].
      * eexists. split; [apply list_lookup_insert_eq; eapply lookup_lt_Some, H|].
        split; [exact Hc|]. cbn [orb with_data data].
        replace (filled_before Rx Ry Rx Ry) with false in Hd.
        -- rewrite Hd. reflexivity.
        -- unfold filled_before. rewrite Nat.ltb_irrefl, Nat.eqb_refl, Nat.ltb_irrefl.
           reflexivity.
      * destruct (Hcells Rx' Ry' HRx' HRy') as (pl' & H' & Hc' & Hd').
        exists pl'. rewrite list_lookup_insert_ne; [auto|].
        intros E. apply Hne. 
        destruct (cell_index_inj (R_Ny datacube) Rx' Ry' Rx Ry HRy' HRy); [lia|auto].
    + rewrite <- app_assoc, visited_app, visited_app, visited_detection_events, Hvis.
      rewrite range_S, fmap_app, <- !app_assoc. reflexivity.
Qed.

End ScanFacts.

Lemma grid_locs_elem base nx ny row :
  row ∈ grid_locs base nx ny ->
  exists Rx, (Rx < nx)%nat /\ row = seq (base + Rx * ny) ny.
Proof.
  intros (Rx & H)%list_elem_of_lookup_1.
  assert (Rx < nx)%nat as HRx.
  { rewrite <- (length_grid_locs base nx ny). eapply lookup_lt_Some, H. }
  exists Rx. split; [exact HRx|].
  assert (Some row = Some (seq (base + Rx * ny) ny)) as [= ->]
    by exact (eq_trans (eq_sym H) (grid_locs_lookup base nx ny Rx HRx)).
  reflexivity.
Qed.

Lemma grid_ok_grid_locs coords base nx ny h :
  length h = (base + nx * ny)%nat ->
  grid_ok (mkPointListArray coords (nx, ny) (grid_locs base nx ny)) h.
Proof.
  intros Hlen. split; cbn [pla_pointlists pla_shape fst snd].
  - apply length_grid_locs.
  - apply Forall_forall. intros row (Rx & HRx & ->)%grid_locs_elem.
    split; [apply length_seq|].
    apply Forall_forall. intros l Hl%elem_of_seq. nia.
Qed.

Section FullScan.
Context {N : Numerics}.

(** C9.  For a recognised [subpixel], [find_Bragg_disks] returns a
    PointListArray of shape [(R_Nx, R_Ny)] with the schema
    [('qx',float), ('qy',float), ('intensity',float)]: its cells are
    [R_Nx * R_Ny] distinct new PointLists, one per scan position; each of
    them, empty or not, has that schema and holds exactly the rows detected
    on the pattern of its position; and the patterns were read in row-major
    order. *)
Theorem C9_full_scan_grid datacube probe kw s :
  valid_subpixel kw = true ->
  exists pla s',
    find_Bragg_disks datacube probe kw s = (inr pla, s')
    /\ pla_shape pla = (R_Nx datacube, R_Ny datacube)
    /\ pla_coordinates pla = Bragg_coords
    /\ grid_ok pla (heap s')
    /\ concat (pla_pointlists pla)
       = seq (length (heap s)) (R_Nx datacube * R_Ny datacube)
    /\ (forall Rx Ry, (Rx < R_Nx datacube)%nat -> (Ry < R_Ny datacube)%nat ->
          exists l pl,
            get_pointlist pla Rx Ry s' = (inr l, s')
            /\ heap s' !! l = Some pl
            /\ coordinates pl = Bragg_coords
            /\ data pl
               = detected_rows (datacube_data datacube Rx Ry) (np_conj (np_fft2 probe)) kw)
    /\ visited (log s')
       = visited (log s) ++ row_major (R_Nx datacube) (R_Ny datacube).
Proof.
  intros Hv. unfold find_Bragg_disks.
  rewrite (bind_inr _ _ _ _ _ (PointListArray_new_run _ _ _ _)).
  unfold fft2. rewrite (bind_inr _ _ _ _ _ (emit_then _ _ _)). cbn [heap log].
  set (base := length (heap s)).
  set (pk := np_conj (np_fft2 probe)).
  set (pla := mkPointListArray Bragg_coords (R_Nx datacube, R_Ny datacube)
                (grid_locs base (R_Nx datacube) (R_Ny datacube))).
  set (s0 := mkState _ _).
  assert (scan_inv datacube pk kw base (visited (log s)) 0 0 s0) as H0
    by (apply scan_inv_start; reflexivity).
  destruct (for_range_inv
              (fun Rx => scan_inv datacube pk kw base (visited (log s)) Rx 0)
              (R_Nx datacube)
              (fun Rx => for_ (range (R_Ny datacube)) (fun Ry =>
                 DP <- read_DP datacube Rx Ry ;;
                 cell <- get_pointlist pla Rx Ry ;;
                 find_Bragg_disks_single_DP_FK DP pk kw false (Some cell) ;;
                 ret tt))) with (s := s0) as (s' & Hrun & Hinv); [|exact H0|].
  { intros Rx s1 HRx H1.
    destruct (for_range_inv
                (fun Ry => scan_inv datacube pk kw base (visited (log s)) Rx Ry)
                (R_Ny datacube)
                (fun Ry =>
                   DP <- read_DP datacube Rx Ry ;;
                   cell <- get_pointlist pla Rx Ry ;;
                   find_Bragg_disks_single_DP_FK DP pk kw false (Some cell) ;;
                   ret tt)) with (s := s1) as (s2 & Hrun & Hinv); [|exact H1|].
    - intros Ry s2 HRy H2. apply scan_step; assumption.
    - exists s2. split; [exact Hrun|]. apply scan_inv_row, Hinv. }
  exists pla, s'. rewrite (bind_inr _ _ _ _ _ Hrun).
  destruct Hinv as (Hlen & Hcells & Hvis).
  split; [reflexivity|]. split; [reflexivity|]. split; [reflexivity|].
  split; [apply grid_ok_grid_locs, Hlen|].
  split; [apply concat_grid_locs|].
  split.
  - intros Rx Ry HRx HRy.
    destruct (grid_locs_cell base _ _ Rx Ry HRx HRy) as (row & Hrow & Hcell).
    destruct (Hcells Rx Ry HRx HRy) as (pl & H & Hc & Hd).
    exists (base + Rx * R_Ny datacube + Ry)%nat, pl.
    split; [exact (get_pointlist_run pla Rx Ry row _ s' Hrow Hcell)|].
    split; [exact H|]. split; [exact Hc|].
    rewrite Hd. unfold filled_before.
    destruct (Nat.ltb_spec Rx (R_Nx datacube)); [reflexivity|lia].
  - rewrite Hvis. cbn [range seq fmap list_fmap]. rewrite app_nil_r. reflexivity.
Qed.

End FullScan.

(** ** Concrete runs on the executable backend *)

(** An unrecognised mode on a caller-supplied list: the assertion fails and
    the state is the one of the call. *)
Lemma C7_unrecognized_subpixel_witness :
  @find_Bragg_disks_single_DP_FK toy_backend sample_DP flat_kernel gaussian_options true
    (Some 0%nat) (mkState (test_cell [peak_at 0 0 10]) [])
  = (inl InvalidConfiguration, mkState (test_cell [peak_at 0 0 10]) []).
Proof.
  apply (@C7_unrecognized_subpixel toy_backend).
  apply (bool_decide_eq_false_1 (subpixel gaussian_options ∈ ["none"; "poly"; "multicorr"]%string)).
  reflexivity.
Defined.

(** With [return_cc], the second value is the smoothed surface. *)
Lemma C2_return_cc_smoothed_witness :
  exists l s',
    @find_Bragg_disks_single_DP_FK toy_backend sample_DP flat_kernel default_options true None
      (mkState [] [])
    = (inr (l, Some (smooth sample_DP 2)), s')
    /\ surfaces (log s') = surfaces [] ++ [sample_DP]
    /\ nonneg sample_DP.
Proof.
  exact (@C2_return_cc_smoothed toy_backend sample_DP flat_kernel default_options None
           (mkState [] []) eq_refl I).
Defined.

(** On the surface [[1,3,1],[0,2,0]] the value returned with [return_cc] is
    the smoothed surface, which is not the surface handed to the maxima
    search. *)
Lemma C2_as_stated_counterexample :
  ~ @return_cc_as_stated toy_backend sample_DP flat_kernel default_options None
      (mkState [] []).
Proof.
  intros H.
  destruct (H _ _ _ (@find_Bragg_disks_single_DP_FK_run_None toy_backend sample_DP
                       flat_kernel default_options true (mkState [] []) eq_refl))
    as (cc & Hs & Hout).
  vm_compute in Hs. vm_compute in Hout.
  injection Hs as <-. discriminate Hout.
Qed.

(** 'multicorr' on a list that already holds a row. *)
Lemma C8_multicorr_keeps_intensity_witness :
  exists l out s' pl',
    @find_Bragg_disks_single_DP_FK toy_backend sample_DP flat_kernel multicorr_options false
      (Some 0%nat) (mkState (test_cell [peak_at 0 0 10]) [])
    = (inr (l, out), s')
    /\ heap s' !! l = Some pl'
    /\ data pl' = [peak_at 0 0 10]
                  ++ @detected_rows toy_backend sample_DP flat_kernel multicorr_options
    /\ intensity <$> @detected_rows toy_backend sample_DP flat_kernel multicorr_options
       = snd (sample_maxima sample_DP 2 20 (5 # 1000) 60 70 true)
    /\ log s' = [] ++ @detection_events toy_backend sample_DP flat_kernel multicorr_options false.
Proof.
  exact (@C8_multicorr_keeps_intensity toy_backend sample_DP flat_kernel multicorr_options
           false (Some 0%nat) (mkState (test_cell [peak_at 0 0 10]) []) eq_refl
           (ex_intro _ (mkPointList Bragg_coords [peak_at 0 0 10]) (conj eq_refl eq_refl))).
Defined.

(** A 2 by 3 scan with the default options. *)
Lemma C9_full_scan_grid_witness :
  exists pla s',
    @find_Bragg_disks toy_backend sample_datacube flat_kernel default_options (mkState [] [])
    = (inr pla, s')
    /\ pla_shape pla = (2%nat, 3%nat)
    /\ pla_coordinates pla = Bragg_coords
    /\ grid_ok pla (heap s')
    /\ concat (pla_pointlists pla) = seq 0 6
    /\ (forall Rx Ry, (Rx < 2)%nat -> (Ry < 3)%nat ->
          exists l pl,
            get_pointlist pla Rx Ry s' = (inr l, s')
            /\ heap s' !! l = Some pl
            /\ coordinates pl = Bragg_coords
            /\ data pl
               = @detected_rows toy_backend (datacube_data sample_datacube Rx Ry)
                   flat_kernel default_options)
    /\ visited (log s') = [] ++ row_major 2 3.
Proof.
  exact (@C9_full_scan_grid toy_backend sample_datacube flat_kernel default_options
           (mkState [] []) eq_refl).
Defined.

(** * Further properties of the thresholds *)

Lemma threshold_cell_None s l mri mps mnp :
  heap s !! l = None -> threshold_cell l mri mps mnp s = (inl IndexError, s).
Proof.
  intros H. unfold threshold_cell, threshold_cell_filters, PointList_sort.
  rewrite (bind_inl _ _ _ _ _ (bind_inl _ _ _ _ _ (bind_inl _ _ _ _ _ (load_None _ _ H)))).
  reflexivity.
Qed.

(** A loop body that went through ran on an object of the heap, and left
    there what the filters and the count limit compute. *)
Lemma threshold_cell_inv s s' l mri mps mnp :
  threshold_cell l mri mps mnp s = (inr tt, s') ->
  exists pl rows, heap s !! l = Some pl
    /\ cell_filters mri mps mnp (data pl) = inr rows
    /\ s' = upd s l (with_data pl (count_filter mnp rows)).
Proof.
  intros Hrun. destruct (heap s !! l) as [pl|] eqn:H.
  - rewrite (threshold_cell_run _ _ _ _ _ _ H) in Hrun.
    destruct (cell_filters mri mps mnp (data pl)) as [e|rows] eqn:Hf; [discriminate|].
    exists pl, rows. injection Hrun as <-. auto.
  - rewrite (threshold_cell_None _ _ _ _ _ H) in Hrun. discriminate.
Qed.

Lemma keep_unmasked_sublist rows mask : keep_unmasked rows mask `sublist_of` rows.
Proof.
  revert mask. induction rows as [|r rows IH]; intros [|[] mask]; simpl;
    try (apply sublist_nil_l); [apply sublist_cons|apply sublist_skip]; apply IH.
Qed.

(** For every integer [k]: the rows in front of the start of the slice [k:]. *)
Lemma count_filter_take k rows :
  count_filter (PyVal k) rows
  = if (k <? Z.of_nat (length rows))%Z
    then take (slice_start k (length rows)) rows
    else rows.
Proof.
  unfold count_filter. destruct (k <? Z.of_nat (length rows))%Z; [|reflexivity].
  unfold set_from, np_zeros. rewrite length_replicate.
  pose proof (slice_start_le k (length rows)) as Hle.
  rewrite take_replicate, Nat.min_l by exact Hle.
  apply keep_unmasked_take. lia.
Qed.

Lemma count_filter_sublist mnp rows : count_filter mnp rows `sublist_of` rows.
Proof.
  destruct mnp as [|k]; [reflexivity|]. rewrite count_filter_take.
  destruct (_ <? _)%Z; [apply sublist_take|reflexivity].
Qed.

Lemma cell_filters_sublist mri mps mnp rows0 rows :
  cell_filters mri mps mnp rows0 = inr rows ->
  rows `sublist_of` stable_sort descending intensity rows0.
Proof.
  unfold cell_filters.
  destruct (intensity_filter mri _) as [e|rows1] eqn:E; [discriminate|].
  intros [= <-].
  assert (rows1 `sublist_of` stable_sort descending intensity rows0) as H1.
  { unfold intensity_filter in E. destruct mri as [|t]; [injection E as <-; reflexivity|].
    destruct (stable_sort descending intensity rows0) as [|r l]; [discriminate|].
    assert (rows1 = keep_unmasked (r :: l)
              ((fun x => np_div_lt x (cell_max (r :: l)) t) <$> (intensity <$> r :: l)))
      as -> by congruence.
    apply keep_unmasked_sublist. }
  unfold spacing_filter. destruct (is_not_False mnp); [|exact H1].
  etransitivity; [apply keep_unmasked_sublist|exact H1].
Qed.

(** X2.  Whenever the loop body of [threshold_Braggpeaks] goes through on a
    cell, the cell keeps its schema and is left with a selection of the rows
    it had (no row is added or altered), in descending order of intensity;
    nothing else in the heap and nothing in the log of kernel calls
    changes. *)
Theorem X2_threshold_cell_selects s s' l mri mps mnp :
  threshold_cell l mri mps mnp s = (inr tt, s') ->
  exists pl pl',
    heap s !! l = Some pl /\ heap s' !! l = Some pl'
    /\ coordinates pl' = coordinates pl
    /\ data pl' `sublist_of` stable_sort descending intensity (data pl)
    /\ data pl' ⊆+ data pl
    /\ descending_intensity (data pl')
    /\ log s' = log s
    /\ length (heap s') = length (heap s)
    /\ (forall l', l' <> l -> heap s' !! l' = heap s !! l').
Proof.
  intros (pl & rows & H & Hf & ->)%threshold_cell_inv.
  assert (count_filter mnp rows `sublist_of` stable_sort descending intensity (data pl)) as Hsub.
  { etransitivity; [apply count_filter_sublist|eapply cell_filters_sublist, Hf]. }
  exists pl, (with_data pl (count_filter mnp rows)).
  split; [exact H|]. split; [eapply upd_lookup, H|].
  split; [reflexivity|]. split; [exact Hsub|].
  split; [rewrite <- (stable_sort_Permutation descending intensity (data pl));
          apply sublist_submseteq, Hsub|].
  split.
  - cbn [data with_data]. destruct mnp as [|k]; [eapply cell_filters_descending, Hf|].
    rewrite count_filter_take. destruct (_ <? _)%Z.
    + apply take_descending. eapply cell_filters_descending, Hf.
    + eapply cell_filters_descending, Hf.
  - split; [reflexivity|]. split; [apply upd_length|].
    intros l' Hne. apply upd_lookup_ne. congruence.
Qed.

(** Ten peaks, a spacing of 60 and a limit of five. *)
Lemma X2_threshold_cell_selects_witness :
  exists pl pl',
    heap (mkState (test_cell ten_peaks) []) !! 0%nat = Some pl
    /\ heap (snd (run (threshold_cell 0%nat PyFalse (PyVal 60) (PyVal 5%Z))
                    (test_cell ten_peaks))) !! 0%nat = Some pl'
    /\ coordinates pl' = coordinates pl
    /\ data pl' `sublist_of` stable_sort descending intensity (data pl)
    /\ data pl' ⊆+ data pl
    /\ descending_intensity (data pl')
    /\ log (snd (run (threshold_cell 0%nat PyFalse (PyVal 60) (PyVal 5%Z))
                   (test_cell ten_peaks)))
       = log (mkState (test_cell ten_peaks) [])
    /\ length (heap (snd (run (threshold_cell 0%nat PyFalse (PyVal 60) (PyVal 5%Z))
                            (test_cell ten_peaks))))
       = length (heap (mkState (test_cell ten_peaks) []))
    /\ (forall l', l' <> 0%nat ->
          heap (snd (run (threshold_cell 0%nat PyFalse (PyVal 60) (PyVal 5%Z))
                       (test_cell ten_peaks))) !! l'
          = heap (mkState (test_cell ten_peaks) []) !! l').
Proof.
  exact (X2_threshold_cell_selects (mkState (test_cell ten_peaks) [])
           (snd (run (threshold_cell 0%nat PyFalse (PyVal 60) (PyVal 5%Z))
                   (test_cell ten_peaks)))
           0%nat PyFalse (PyVal 60) (PyVal 5%Z) ltac:(vm_compute; reflexivity)).
Defined.

(** X1.  A grid whose schema lacks one of the columns 'qx', 'qy', 'intensity'
    is refused by the assertion of line 340 before any cell is looked at: the
    state is the one of the call. *)
Theorem X1_schema_assertion pla mri mps mnp s :
  ~ schema_ok pla ->
  threshold_Braggpeaks pla mri mps mnp s = (inl SchemaMismatch, s).
Proof.
  intros Hs. unfold threshold_Braggpeaks. unfold schema_ok in Hs.
  destruct (forallb _ _); [congruence|]. reflexivity.
Qed.

Lemma X1_schema_assertion_witness :
  run (threshold_Braggpeaks positions_only_grid PyFalse PyFalse PyFalse)
      (test_cell [peak_at 0 0 5; peak_at 1 1 10])
  = (inl SchemaMismatch, mkState (test_cell [peak_at 0 0 5; peak_at 1 1 10]) []).
Proof.
  apply X1_schema_assertion. vm_compute. discriminate.
Defined.

(** ** Survivors of the spacing filter *)









(** ** Edge values of the thresholds *)

Lemma np_dist2_nonneg xi yi x y : 0 <= np_dist2 xi yi x y.
Proof.
  unfold np_dist2. apply float64_nonneg.
  apply (Qle_trans _ (0 + 0)); [apply Qle_refl|].
  apply Qplus_le_compat; apply float64_nonneg, Qsqr_nonneg.
Qed.

Lemma dist2_nonneg rows i j : 0 <= dist2 rows i j.
Proof. unfold dist2. exact (np_dist2_nonneg _ _ _ _). Qed.

Lemma nth_np_zeros n j : nth j (np_zeros n) false = false.
Proof.
  unfold np_zeros. rewrite nth_lookup.
  destruct (replicate n false !! j) as [b|] eqn:E; [|reflexivity].
  apply lookup_replicate in E as [-> _]. reflexivity.
Qed.

(** With a squared spacing that is not positive the sweep marks no row. *)
Lemma sweep_mask_nonpos rows r2 : r2 <= 0 -> sweep_mask rows r2 = np_zeros (length rows).
Proof.
  intros Hr.
  apply (nth_ext _ _ false false).
  - unfold sweep_mask. rewrite length_sweep_mask_upto. unfold np_zeros.
    rewrite length_replicate. reflexivity.
  - intros j Hj. unfold sweep_mask in Hj. rewrite length_sweep_mask_upto in Hj.
    rewrite nth_np_zeros.
    destruct (nth j (sweep_mask rows r2) false) eqn:E; [|reflexivity].
    apply sweep_mask_spec in E as (i & _ & _ & Hd); [|exact Hj].
    exfalso. apply (Qlt_not_le _ _ Hd).
    eapply Qle_trans; [apply float64_nonpos, Hr|apply dist2_nonneg].
Qed.

Lemma keep_unmasked_zeros rows : keep_unmasked rows (np_zeros (length rows)) = rows.
Proof. induction rows as [|r rows IH]; [reflexivity|]. simpl. f_equal. exact IH. Qed.

(** X7.  With [minPeakSpacing] set to [False] (or to a number whose square is
    not positive) the block of lines 352-362 removes no row, whether
    [maxNumPeaks] lets it run or not: the state is left as it was. *)
Theorem X7_no_spacing_removes_nothing s l pl mps mnp :
  heap s !! l = Some pl -> py_square mps <= 0 ->
  remove_too_close l mps mnp s = (inr tt, s).
Proof.
  intros H Hr. rewrite (remove_too_close_run _ _ _ _ _ H).
  unfold spacing_filter. destruct (is_not_False mnp).
  - rewrite sweep_mask_nonpos by exact Hr. rewrite keep_unmasked_zeros.
    rewrite upd_with_data_same by exact H. reflexivity.
  - rewrite upd_with_data_same by exact H. reflexivity.
Qed.

(** Two peaks on the same spot, [minPeakSpacing=False], [maxNumPeaks=70]. *)
Lemma X7_no_spacing_removes_nothing_witness :
  run (remove_too_close 0%nat PyFalse (PyVal 70%Z)) (test_cell [peak_at 1 1 10; peak_at 1 1 5])
  = (inr tt, mkState (test_cell [peak_at 1 1 10; peak_at 1 1 5]) []).
Proof.
  apply (X7_no_spacing_removes_nothing
           (mkState (test_cell [peak_at 1 1 10; peak_at 1 1 5]) []) 0%nat
           (mkPointList Bragg_coords [peak_at 1 1 10; peak_at 1 1 5]) PyFalse (PyVal 70%Z)
           eq_refl).
  vm_compute. discriminate.
Defined.

(** X8.  A negative [maxNumPeaks] is below every row count, and the slice
    [deletemask[maxNumPeaks:]] then counts from the end: the last
    [-maxNumPeaks] rows of the cell are deleted (all of them when the cell
    has no more than that). *)
Theorem X8_negative_maxNumPeaks s l pl k :
  heap s !! l = Some pl -> (k < 0)%Z ->
  keep_maxNumPeaks l (PyVal k) s
  = (inr tt,
     upd s l (with_data pl (take (length (data pl) - Z.to_nat (- k)) (data pl)))).
Proof.
  intros H Hk. rewrite (keep_maxNumPeaks_run _ _ _ _ H), count_filter_take.
  destruct (Z.ltb_spec k (Z.of_nat (length (data pl)))) as [_|]; [|lia].
  unfold slice_start. destruct (Z.ltb_spec k 0) as [_|]; [|lia].
  do 4 f_equal. lia.
Qed.

(** Three rows and [maxNumPeaks = -1]: the last row goes. *)
Lemma X8_negative_maxNumPeaks_witness :
  run (keep_maxNumPeaks 0%nat (PyVal (-1)%Z))
      (test_cell [peak_at 0 0 10; peak_at 3 3 7; peak_at 1 0 5])
  = (inr tt, mkState (test_cell [peak_at 0 0 10; peak_at 3 3 7]) []).
Proof.
  apply (X8_negative_maxNumPeaks
           (mkState (test_cell [peak_at 0 0 10; peak_at 3 3 7; peak_at 1 0 5]) []) 0%nat
           (mkPointList Bragg_coords [peak_at 0 0 10; peak_at 3 3 7; peak_at 1 0 5])
           (-1)%Z eq_refl).
  lia.
Defined.

(** ** The brightest peak *)

Lemma fold_max_dominated (xs : list Q) (m : Q) :
  Forall (fun x => x <= m) xs ->
  fold_left (fun m y => if Qlt_bool m y then y else m) xs m = m.
Proof.
  induction 1 as [|x xs Hx _ IH]; [reflexivity|]. simpl.
  apply Qlt_bool_false_iff in Hx. rewrite Hx. exact IH.
Qed.

(** In a cell sorted by descending intensity the maximum is the intensity of
    the first row. *)
Lemma cell_max_head r rest :
  descending_intensity (r :: rest) -> cell_max (r :: rest) = intensity r.
Proof.
  intros Hs. apply StronglySorted_inv in Hs as [_ Hr].
  unfold cell_max. rewrite fmap_cons. apply fold_max_dominated.
  apply Forall_fmap. exact Hr.
Qed.

(** For a positive maximum the test is on the rounded quotient. *)
Lemma np_div_lt_pos x m t : 0 < m -> np_div_lt x m t = Qlt_bool (float64 (x / m)) t.
Proof.
  intros Hm. unfold np_div_lt. destruct (Qeq_bool m 0) eqn:E; [|reflexivity].
  apply Qeq_bool_iff in E. rewrite E in Hm. exfalso. exact (Qlt_irrefl _ Hm).
Qed.

(** The quotient of the maximum by itself is exactly 1. *)
Lemma np_div_lt_self m t : 0 < m -> t <= 1 -> np_div_lt m m t = false.
Proof.
  intros Hm Ht. rewrite np_div_lt_pos by exact Hm.
  apply Qlt_bool_false_iff. rewrite (float64_1 (m / m)); [exact Ht|].
  apply Qmult_inv_r. intros E. rewrite E in Hm. exact (Qlt_irrefl _ Hm).
Qed.

Lemma intensity_filter_head mri r rest :
  descending_intensity (r :: rest) ->
  (forall t, mri = PyVal t -> t <= 1 /\ 0 < intensity r) ->
  exists rest', intensity_filter mri (r :: rest) = inr (r :: rest').
Proof.
  intros Hs Hmri. destruct mri as [|t]; [exists rest; reflexivity|].
  destruct (Hmri t eq_refl) as [Ht Hr].
  unfold intensity_filter. rewrite (cell_max_head _ _ Hs), !fmap_cons.
  cbn [keep_unmasked]. rewrite (np_div_lt_self _ _ Hr Ht). eauto.
Qed.

Lemma sweep_mask_head r rest r2 :
  exists mask, sweep_mask (r :: rest) r2 = false :: mask.
Proof.
  pose proof (length_sweep_mask_upto (r :: rest) r2 (length (r :: rest))) as Hlen.
  fold (sweep_mask (r :: rest) r2) in Hlen.
  destruct (sweep_mask (r :: rest) r2) as [|b mask] eqn:E; [discriminate Hlen|].
  exists mask. f_equal. destruct b; [|reflexivity].
  assert (nth 0 (sweep_mask (r :: rest) r2) false = true) as H0 by (rewrite E; reflexivity).
  apply sweep_mask_spec in H0 as (i & Hi & _); [lia|simpl; lia].
Qed.

Lemma spacing_filter_head mps mnp r rest :
  exists rest', spacing_filter mps mnp (r :: rest) = r :: rest'.
Proof.
  unfold spacing_filter. destruct (is_not_False mnp); [|eauto].
  destruct (sweep_mask_head r rest (py_square mps)) as (mask & ->).
  cbn [keep_unmasked]. eauto.
Qed.

Lemma count_filter_head mnp r rest :
  (forall k, mnp = PyVal k -> (1 <= k)%Z) ->
  exists rest', count_filter mnp (r :: rest) = r :: rest'.
Proof.
  intros Hk. destruct mnp as [|k]; [exists rest; reflexivity|].
  specialize (Hk k eq_refl). rewrite count_filter_take.
  destruct (Z.ltb_spec k (Z.of_nat (length (r :: rest)))) as [Hlt|]; [|eauto].
  unfold slice_start. destruct (Z.ltb_spec k 0); [lia|].
  destruct (Z.to_nat k `min` length (r :: rest))%nat as [|n] eqn:E; [simpl in *; lia|].
  cbn [take]. eauto.
Qed.

Lemma sorted_head_brightest rows r rest :
  stable_sort descending intensity rows = r :: rest ->
  r ∈ rows /\ Forall (fun x => intensity x <= intensity r) rows.
Proof.
  intros E. pose proof (stable_sort_descending rows) as Hs. rewrite E in Hs.
  apply StronglySorted_inv in Hs as [_ Hr].
  pose proof (stable_sort_Permutation descending intensity rows) as Hp. rewrite E in Hp.
  split; [rewrite <- Hp; left|].
  rewrite <- Hp. constructor; [apply Qle_refl|exact Hr].
Qed.

(** X5.  The brightest peak of a cell survives the whole loop body, as the
    first row, provided the relative threshold (if on) is at most 1 with a
    positive brightest intensity, and the count limit (if on) is at least 1:
    neither the sweep nor the truncation ever removes the first row. *)
Theorem X5_brightest_survives s l pl mri mps mnp r rest :
  heap s !! l = Some pl ->
  stable_sort descending intensity (data pl) = r :: rest ->
  (forall t, mri = PyVal t -> t <= 1 /\ 0 < intensity r) ->
  (forall k, mnp = PyVal k -> (1 <= k)%Z) ->
  (r ∈ data pl /\ Forall (fun x => intensity x <= intensity r) (data pl))
  /\ exists rest',
       threshold_cell l mri mps mnp s = (inr tt, upd s l (with_data pl (r :: rest'))).
Proof.
  intros H E Hmri Hk. split; [apply (sorted_head_brightest _ _ _ E)|].
  rewrite (threshold_cell_run _ _ _ _ _ _ H). unfold cell_filters. rewrite E.
  pose proof (stable_sort_descending (data pl)) as Hs. rewrite E in Hs.
  destruct (intensity_filter_head mri r rest Hs Hmri) as (rest1 & ->).
  destruct (spacing_filter_head mps mnp r rest1) as (rest2 & ->).
  destruct (count_filter_head mnp r rest2 Hk) as (rest3 & ->).
  exists rest3. reflexivity.
Qed.

(** The brightest of three peaks under the strictest admissible settings. *)
Lemma X5_brightest_survives_witness :
  (peak_at 1 1 100 ∈ [peak_at 0 0 3; peak_at 1 1 100; peak_at 2 2 40]
   /\ Forall (fun x => intensity x <= intensity (peak_at 1 1 100))
        [peak_at 0 0 3; peak_at 1 1 100; peak_at 2 2 40])
  /\ exists rest',
       run (threshold_cell 0%nat (PyVal 1) (PyVal 1000) (PyVal 1%Z))
           (test_cell [peak_at 0 0 3; peak_at 1 1 100; peak_at 2 2 40])
       = (inr tt, mkState (test_cell (peak_at 1 1 100 :: rest')) []).
Proof.
  apply (X5_brightest_survives
           (mkState (test_cell [peak_at 0 0 3; peak_at 1 1 100; peak_at 2 2 40]) []) 0%nat
           (mkPointList Bragg_coords [peak_at 0 0 3; peak_at 1 1 100; peak_at 2 2 40])
           (PyVal 1) (PyVal 1000) (PyVal 1%Z)
           (peak_at 1 1 100) [peak_at 2 2 40; peak_at 0 0 3] eq_refl eq_refl).
  - intros t [= <-]. split; vm_compute; [discriminate|reflexivity].
  - intros k [= <-]. lia.
Defined.

(** ** A relative threshold above one *)

Lemma keep_unmasked_all rows (f : Q -> bool) :
  Forall (fun r => f (intensity r) = true) rows ->
  keep_unmasked rows (f <$> (intensity <$> rows)) = [].
Proof.
  induction 1 as [|r rows Hr _ IH]; [reflexivity|].
  rewrite !fmap_cons. cbn [keep_unmasked]. rewrite Hr. exact IH.
Qed.

Lemma intensity_filter_above_one t rows :
  1 < t -> 0 < cell_max rows -> intensity_filter (PyVal t) rows = inr [].
Proof.
  intros Ht Hm. unfold intensity_filter.
  destruct rows as [|r rows]; [exfalso; exact (Qlt_irrefl 0 Hm)|].
  f_equal. apply keep_unmasked_all. apply Forall_forall. intros x Hx.
  rewrite np_div_lt_pos by exact Hm. apply Qlt_bool_iff.
  eapply Qle_lt_trans; [|exact Ht].
  apply float64_le_1, Qle_shift_div_r; [exact Hm|].
  rewrite Qmult_1_l. apply cell_max_ge, Hx.
Qed.

(** X6.  A [minRelativeIntensity] above 1 on a cell that has a peak of
    positive intensity deletes every row of the cell; the loop body goes
    through, and run again on the cell it has emptied it raises the
    ValueError of [max]. *)
Theorem X6_threshold_above_one_empties s l pl t mps mnp :
  heap s !! l = Some pl -> 1 < t ->
  Exists (fun r => 0 < intensity r) (data pl) ->
  threshold_cell l (PyVal t) mps mnp s = (inr tt, upd s l (with_data pl []))
  /\ fst (threshold_cell l (PyVal t) mps mnp (upd s l (with_data pl []))) = inl ValueError.
Proof.
  intros H Ht Hpos. split.
  - rewrite (threshold_cell_run _ _ _ _ _ _ H). unfold cell_filters.
    rewrite intensity_filter_above_one; [|exact Ht|].
    + assert (spacing_filter mps mnp [] = []) as ->
        by (unfold spacing_filter; destruct (is_not_False mnp); reflexivity).
      assert (count_filter mnp [] = []) as ->; [|reflexivity].
      destruct mnp as [|k]; [reflexivity|]. rewrite count_filter_take.
      destruct (_ <? _)%Z; [apply take_nil|reflexivity].
    + apply Exists_exists in Hpos as (r & Hin & Hr).
      eapply Qlt_le_trans; [exact Hr|]. apply cell_max_ge.
      rewrite stable_sort_Permutation. exact Hin.
  - apply threshold_cell_empty_raises with (n := length (heap s)).
    split; [|apply upd_length].
    exists (with_data pl []). split; [eapply upd_lookup, H|reflexivity].
Qed.

(** Intensities [100, 40, 3] and a relative threshold of 1.5. *)
Lemma X6_threshold_above_one_empties_witness :
  run (threshold_cell 0%nat (PyVal (3 # 2)) (PyVal 60) (PyVal 70%Z))
      (test_cell [peak_at 0 0 100; peak_at 1 1 40; peak_at 2 2 3])
  = (inr tt, mkState (test_cell []) [])
  /\ fst (run (threshold_cell 0%nat (PyVal (3 # 2)) (PyVal 60) (PyVal 70%Z)) (test_cell []))
     = inl ValueError.
Proof.
  apply (X6_threshold_above_one_empties
           (mkState (test_cell [peak_at 0 0 100; peak_at 1 1 40; peak_at 2 2 3]) []) 0%nat
           (mkPointList Bragg_coords [peak_at 0 0 100; peak_at 1 1 40; peak_at 2 2 3])
           (3 # 2) (PyVal 60) (PyVal 70%Z) eq_refl).
  - vm_compute. reflexivity.
  - apply Exists_cons_hd. vm_compute. reflexivity.
Defined.

(** ** The whole grid *)








(** * Further properties of the detection on one pattern *)

Section DetectionMore.
Context {N : Numerics}.

Lemma invalid_subpixel_raises DP pk kw return_cc peaks s :
  valid_subpixel kw = false ->
  find_Bragg_disks_single_DP_FK DP pk kw return_cc peaks s = (inl InvalidConfiguration, s).
Proof.
  intros Hv. unfold find_Bragg_disks_single_DP_FK. unfold valid_subpixel in Hv.
  rewrite Hv. reflexivity.
Qed.

(** X12.  With a recognised [subpixel] and a caller-supplied list of three
    columns, [find_Bragg_disks_single_DP_FK] returns that very list: the
    rows it held are still there, in front of the rows just detected, and no
    other object of the heap has changed.  A second value comes back exactly
    when [return_cc] is set. *)
Theorem X12_detection_appends_in_place DP pk kw return_cc l pl s :
  valid_subpixel kw = true ->
  heap s !! l = Some pl -> length (coordinates pl) = 3%nat ->
  exists out s',
    find_Bragg_disks_single_DP_FK DP pk kw return_cc (Some l) s = (inr (l, out), s')
    /\ heap s' !! l = Some (with_data pl (data pl ++ detected_rows DP pk kw))
    /\ length (heap s') = length (heap s)
    /\ (forall l', l' <> l -> heap s' !! l' = heap s !! l')
    /\ (out = None <-> return_cc = false).
Proof.
  intros Hv H Hc. eexists _, _.
  rewrite (find_Bragg_disks_single_DP_FK_run_Some _ _ _ _ _ _ _ Hv H Hc).
  split; [reflexivity|]. cbn [heap].
  split; [apply list_lookup_insert_eq; eapply lookup_lt_Some, H|].
  split; [apply length_insert|].
  split; [intros l' Hne; apply list_lookup_insert_ne; congruence|].
  destruct return_cc; split; congruence.
Qed.

(** X13.  [find_Bragg_disks_single_DP] transforms the real-space probe once,
    conjugates the transform, and detects into a list of its own: for a
    recognised [subpixel] the heap grows by exactly that list, which holds
    the rows detected with the conjugated transform; for an unrecognised one
    the assertion fails after the transform of the probe was computed, the
    heap being as it was. *)
Theorem X13_single_DP_real_space_probe DP probe_kernel kw return_cc s :
  find_Bragg_disks_single_DP DP probe_kernel kw return_cc s
  = if valid_subpixel kw
    then (inr (length (heap s),
               if return_cc
               then Some (gaussian_filter
                            (hybrid_surface DP (np_conj (np_fft2 probe_kernel)) (corrPower kw))
                            (sigma kw))
               else None),
          mkState
            (heap s ++ [mkPointList Bragg_coords
                          (detected_rows DP (np_conj (np_fft2 probe_kernel)) kw)])
            (log s ++ ev_fft2
               :: detection_events DP (np_conj (np_fft2 probe_kernel)) kw return_cc))
    else (inl InvalidConfiguration, mkState (heap s) (log s ++ [ev_fft2])).
Proof.
  unfold find_Bragg_disks_single_DP, fft2.
  rewrite (bind_inr _ _ _ _ _ (emit_then _ _ _)).
  destruct (valid_subpixel kw) eqn:Hv.
  - rewrite (find_Bragg_disks_single_DP_FK_run_None _ _ _ _ _ Hv). cbn [heap log].
    rewrite <- app_assoc. reflexivity.
  - apply invalid_subpixel_raises, Hv.
Qed.

Lemma upsample_calls_app evs1 evs2 :
  upsample_calls (evs1 ++ evs2) = upsample_calls evs1 ++ upsample_calls evs2.
Proof. apply omap_app. Qed.

(** X9.  In the modes 'none' and 'poly' the upsampler is never called: the
    call makes one correlation and one maxima search (with [subpixel=False]
    for 'none' and [subpixel=True] for 'poly'), then the smoothing if
    [return_cc] is set, and the rows appended are the maxima as the search
    returned them. *)
Theorem X9_no_refinement_outside_multicorr DP pk kw return_cc peaks s :
  subpixel kw = "none"%string \/ subpixel kw = "poly"%string ->
  peaks_ok peaks s ->
  exists l out s' pl',
    find_Bragg_disks_single_DP_FK DP pk kw return_cc peaks s = (inr (l, out), s')
    /\ log s'
       = log s
         ++ [ev_get_cross_correlation_fk;
             ev_get_maxima_2D (hybrid_surface DP pk (corrPower kw))]
         ++ (if return_cc
             then [ev_gaussian_filter (hybrid_surface DP pk (corrPower kw))]
             else [])
    /\ upsample_calls (detection_events DP pk kw return_cc) = []
    /\ heap s' !! l = Some pl'
    /\ data pl'
       = prior_rows peaks s
         ++ (let '(xs, ys, ints) :=
               get_maxima_2D (hybrid_surface DP pk (corrPower kw)) (sigma kw)
                 (edgeBoundary kw) (minRelativeIntensity kw) (minPeakSpacing kw)
                 (maxNumPeaks kw) (String.eqb (subpixel kw) "poly") in
             rows_of_arrays xs ys ints).
Proof.
  intros Hmode Hp.
  assert (valid_subpixel kw = true) as Hv
    by (unfold valid_subpixel; destruct Hmode as [-> | ->]; reflexivity).
  assert (detection_events DP pk kw return_cc
          = [ev_get_cross_correlation_fk;
             ev_get_maxima_2D (hybrid_surface DP pk (corrPower kw))]
            ++ (if return_cc
                then [ev_gaussian_filter (hybrid_surface DP pk (corrPower kw))]
                else [])) as Hev
    by (unfold detection_events, correlation_events; destruct Hmode as [-> | ->]; reflexivity).
  assert (detected_rows DP pk kw
          = (let '(xs, ys, ints) :=
               get_maxima_2D (hybrid_surface DP pk (corrPower kw)) (sigma kw)
                 (edgeBoundary kw) (minRelativeIntensity kw) (minPeakSpacing kw)
                 (maxNumPeaks kw) (String.eqb (subpixel kw) "poly") in
             rows_of_arrays xs ys ints)) as Hrows
    by (unfold detected_rows, final_maxima, found_maxima;
        destruct Hmode as [-> | ->]; reflexivity).
  assert (upsample_calls (detection_events DP pk kw return_cc) = []) as Hup
    by (rewrite Hev; destruct return_cc; reflexivity).
  destruct peaks as [l|].
  - destruct Hp as (pl & H & Hc). eexists _, _, _, _.
    rewrite (find_Bragg_disks_single_DP_FK_run_Some _ _ _ _ _ _ _ Hv H Hc).
    split; [reflexivity|]. cbn [heap log].
    split; [rewrite Hev; reflexivity|]. split; [exact Hup|].
    split; [apply list_lookup_insert_eq; eapply lookup_lt_Some, H|].
    unfold prior_rows. rewrite H, <- Hrows. reflexivity.
  - eexists _, _, _, _. rewrite (find_Bragg_disks_single_DP_FK_run_None _ _ _ _ _ Hv).
    split; [reflexivity|]. cbn [heap log].
    split; [rewrite Hev; reflexivity|]. split; [exact Hup|].
    split; [apply list_lookup_middle; reflexivity|].
    rewrite <- Hrows. reflexivity.
Qed.

End DetectionMore.

(** ** The refinement of 'multicorr' *)

Lemma nth_insert_Q (l : list Q) (i j : nat) (v : Q) :
  nth j (<[i := v]> l) 0
  = if decide (i = j /\ (i < length l)%nat) then v else nth j l 0.
Proof.
  rewrite !nth_lookup, list_lookup_insert. destruct (decide _); reflexivity.
Qed.

Lemma rows_of_arrays_range xs ys ints :
  length ys = length xs -> length ints = length xs ->
  rows_of_arrays xs ys ints
  = (fun i => mkPeak (nth i xs 0) (nth i ys 0) (nth i ints 0)) <$> range (length xs).
Proof.
  revert ys ints. induction xs as [|x xs IH]; intros [|y ys] [|v ints];
    cbn [rows_of_arrays length]; try discriminate; [reflexivity|].
  intros [= H1] [= H2]. unfold range in *. cbn [seq]. rewrite fmap_cons.
  cbn [nth]. f_equal. rewrite (IH ys ints H1 H2), <- fmap_S_seq, <- list_fmap_compose.
  reflexivity.
Qed.

Section Refinement.
Context {N : Numerics}.

Lemma refine_events_app ccc uf is1 is2 maxima :
  refine_events ccc uf (is1 ++ is2) maxima
  = refine_events ccc uf is1 maxima
    ++ refine_events ccc uf is2 (fold_left (refined_at ccc uf) is1 maxima).
Proof.
  revert maxima. induction is1 as [|i is1 IH]; intros maxima; [reflexivity|].
  cbn [app refine_events fold_left]. rewrite IH. reflexivity.
Qed.

(** After the turns [0 .. k-1], the first [k] positions are the refined ones
    and the others are as the maxima search gave them; every turn starts from
    the half-pixel estimate of its own maximum. *)
Lemma refined_fold_spec ccc uf xs ys ints k :
  length ys = length xs -> (k <= length xs)%nat ->
  snd (fold_left (refined_at ccc uf) (range k) (xs, ys, ints)) = ints
  /\ length (fst (fst (fold_left (refined_at ccc uf) (range k) (xs, ys, ints))))
     = length xs
  /\ length (snd (fst (fold_left (refined_at ccc uf) (range k) (xs, ys, ints))))
     = length ys
  /\ (forall j,
        nth j (fst (fst (fold_left (refined_at ccc uf) (range k) (xs, ys, ints)))) 0
        = if (j <? k)%nat
          then fst (refined_position ccc uf (nth j xs 0) (nth j ys 0))
          else nth j xs 0)
  /\ (forall j,
        nth j (snd (fst (fold_left (refined_at ccc uf) (range k) (xs, ys, ints)))) 0
        = if (j <? k)%nat
          then snd (refined_position ccc uf (nth j xs 0) (nth j ys 0))
          else nth j ys 0).
Proof.
  intros Hlen. induction k as [|k IH]; intros Hk.
  - cbn [range seq fold_left fst snd]. auto.
  - destruct IH as (Hi & Hlx & Hly & Hx & Hy); [lia|].
    rewrite range_S, fold_left_app. cbn [fold_left].
    set (m := fold_left (refined_at ccc uf) (range k) (xs, ys, ints)) in *.
    assert (xyShift_of m k = (half_pixel (nth k xs 0), half_pixel (nth k ys 0))) as Hshift.
    { unfold xyShift_of, half_pixel. rewrite Hx, Hy, Nat.ltb_irrefl. reflexivity. }
    unfold refined_at. rewrite Hshift. cbn [fst snd].
    fold (refined_position ccc uf (nth k xs 0) (nth k ys 0)).
    rewrite !length_insert.
    split; [exact Hi|]. split; [exact Hlx|]. split; [exact Hly|].
    split; intros j; rewrite nth_insert_Q.
    + rewrite Hx, Hlx. destruct (decide _) as [[<- _]|Hn].
      * destruct (Nat.ltb_spec k (S k)); [reflexivity|lia].
      * destruct (Nat.ltb_spec j k), (Nat.ltb_spec j (S k)); try reflexivity; lia.
    + rewrite Hy, Hly. destruct (decide _) as [[<- _]|Hn].
      * destruct (Nat.ltb_spec k (S k)); [reflexivity|lia].
      * destruct (Nat.ltb_spec j k), (Nat.ltb_spec j (S k)); try reflexivity; lia.
Qed.

Lemma refine_events_spec ccc uf xs ys ints k :
  length ys = length xs -> (k <= length xs)%nat ->
  refine_events ccc uf (range k) (xs, ys, ints)
  = (fun i => ev_upsampled_correlation (half_pixel (nth i xs 0), half_pixel (nth i ys 0)))
      <$> range k.
Proof.
  intros Hlen. induction k as [|k IH]; intros Hk; [reflexivity|].
  rewrite range_S, refine_events_app, fmap_app, IH by lia. f_equal.
  cbn [refine_events fmap list_fmap]. f_equal. f_equal.
  destruct (refined_fold_spec ccc uf xs ys ints k Hlen) as (_ & _ & _ & Hx & Hy); [lia|].
  unfold xyShift_of, half_pixel. rewrite Hx, Hy, Nat.ltb_irrefl. reflexivity.
Qed.

Lemma upsample_calls_refine (f : nat -> Q * Q) (ipeaks : list nat) :
  upsample_calls ((fun i => ev_upsampled_correlation (f i)) <$> ipeaks) = f <$> ipeaks.
Proof.
  induction ipeaks as [|i ipeaks IH]; [reflexivity|].
  rewrite !fmap_cons. unfold upsample_calls in *. cbn [omap list_omap]. rewrite IH.
  reflexivity.
Qed.

(** X10.  In 'multicorr' mode every maximum found is refined on its own: the
    [i]-th appended row is the position returned by the upsampler for the
    half-pixel estimate of the [i]-th maximum, with the intensity of the
    [i]-th maximum, and the upsampler is called once per maximum, in order,
    with those estimates. *)
Theorem X10_multicorr_refines_each_maximum DP pk kw return_cc peaks s :
  subpixel kw = "multicorr"%string -> peaks_ok peaks s ->
  let maxima :=
    get_maxima_2D (hybrid_surface DP pk (corrPower kw)) (sigma kw) (edgeBoundary kw)
      (minRelativeIntensity kw) (minPeakSpacing kw) (maxNumPeaks kw) true in
  let xs := fst (fst maxima) in
  let ys := snd (fst maxima) in
  exists l out s' pl',
    find_Bragg_disks_single_DP_FK DP pk kw return_cc peaks s = (inr (l, out), s')
    /\ heap s' !! l = Some pl'
    /\ data pl'
       = prior_rows peaks s
         ++ ((fun i =>
                let p := refined_position (hybrid_ccc DP pk (corrPower kw))
                           (upsample_factor kw) (nth i xs 0) (nth i ys 0) in
                mkPeak (fst p) (snd p) (nth i (snd maxima) 0))
               <$> range (length xs))
    /\ upsample_calls (log s')
       = upsample_calls (log s)
         ++ ((fun i => (half_pixel (nth i xs 0), half_pixel (nth i ys 0)))
               <$> range (length xs)).
Proof.
  intros Hm Hp maxima xs ys.
  pose proof (valid_subpixel_multicorr kw Hm) as Hv.
  pose proof (found_maxima_parallel DP pk kw) as [Hly Hli].
  rewrite (found_maxima_multicorr _ _ _ Hm) in Hly, Hli. fold maxima in Hly, Hli.
  assert (final_maxima DP pk kw
          = fold_left (refined_at (hybrid_ccc DP pk (corrPower kw)) (upsample_factor kw))
              (range (length xs)) (xs, ys, snd maxima)) as Hfinal.
  { unfold final_maxima. rewrite (found_maxima_multicorr _ _ _ Hm), Hm. fold maxima.
    cbn [String.eqb Ascii.eqb Bool.eqb]. unfold xs, ys. destruct maxima as [[? ?] ?].
    reflexivity. }
  destruct (refined_fold_spec (hybrid_ccc DP pk (corrPower kw)) (upsample_factor kw)
              xs ys (snd maxima) (length xs) Hly (Nat.le_refl _))
    as (Hi & Hlx' & Hly' & Hx & Hy).
  assert (detected_rows DP pk kw
          = (fun i =>
               let p := refined_position (hybrid_ccc DP pk (corrPower kw))
                          (upsample_factor kw) (nth i xs 0) (nth i ys 0) in
               mkPeak (fst p) (snd p) (nth i (snd maxima) 0))
              <$> range (length xs)) as Hrows.
  { unfold detected_rows. rewrite Hfinal.
    destruct (fold_left _ _ _) as [[xs' ys'] ints'] eqn:E. cbn [fst snd] in *. subst ints'.
    rewrite rows_of_arrays_range;
      [|rewrite Hly', Hlx'; exact Hly|rewrite Hlx'; exact Hli]. rewrite Hlx'.
    apply list_fmap_ext. intros i j Hj. apply lookup_seq in Hj as [-> Hj].
    cbn [Nat.add]. rewrite Hx, Hy. destruct (Nat.ltb_spec i (length xs)); [reflexivity|lia]. }
  assert (upsample_calls (detection_events DP pk kw return_cc)
          = (fun i => (half_pixel (nth i xs 0), half_pixel (nth i ys 0)))
              <$> range (length xs)) as Hcalls.
  { unfold detection_events, correlation_events.
    rewrite (found_maxima_multicorr _ _ _ Hm), Hm. fold maxima.
    cbn [String.eqb Ascii.eqb Bool.eqb].
    rewrite !upsample_calls_app.
    assert (maxima = (xs, ys, snd maxima)) as Hmax
      by (unfold xs, ys; destruct maxima as [[? ?] ?]; reflexivity).
    rewrite Hmax at 2. fold xs.
    rewrite (refine_events_spec _ _ xs ys (snd maxima) (length xs) Hly (Nat.le_refl _)).
    rewrite upsample_calls_refine.
    destruct return_cc; cbn [upsample_calls omap list_omap app]; rewrite app_nil_r;
      reflexivity. }
  destruct peaks as [l|].
  - destruct Hp as (pl & H & Hc). eexists _, _, _, _.
    rewrite (find_Bragg_disks_single_DP_FK_run_Some _ _ _ _ _ _ _ Hv H Hc).
    split; [reflexivity|]. cbn [heap log].
    split; [apply list_lookup_insert_eq; eapply lookup_lt_Some, H|].
    split; [unfold prior_rows; rewrite H; exact (f_equal (app _) Hrows)|].
    rewrite upsample_calls_app, Hcalls. reflexivity.
  - eexists _, _, _, _. rewrite (find_Bragg_disks_single_DP_FK_run_None _ _ _ _ _ Hv).
    split; [reflexivity|]. cbn [heap log].
    split; [apply list_lookup_middle; reflexivity|].
    split; [exact Hrows|].
    rewrite upsample_calls_app, Hcalls. reflexivity.
Qed.

End Refinement.

(** ** Instances on the sample inputs *)


Lemma X12_detection_appends_in_place_witness :
  exists out s',
    @find_Bragg_disks_single_DP_FK toy_backend sample_DP flat_kernel default_options true
      (Some 0%nat) (mkState (test_cell [peak_at 0 0 10]) [])
    = (inr (0%nat, out), s')
    /\ heap s' !! 0%nat
       = Some (with_data (mkPointList Bragg_coords [peak_at 0 0 10])
                 ([peak_at 0 0 10]
                  ++ @detected_rows toy_backend sample_DP flat_kernel default_options))
    /\ length (heap s') = 1%nat
    /\ (forall l', l' <> 0%nat -> heap s' !! l' = test_cell [peak_at 0 0 10] !! l')
    /\ (out = None <-> true = false).
Proof.
  exact (@X12_detection_appends_in_place toy_backend sample_DP flat_kernel default_options
           true 0%nat (mkPointList Bragg_coords [peak_at 0 0 10])
           (mkState (test_cell [peak_at 0 0 10]) []) eq_refl eq_refl eq_refl).
Defined.

Lemma X9_no_refinement_outside_multicorr_witness :
  exists l out s' pl',
    @find_Bragg_disks_single_DP_FK toy_backend sample_DP flat_kernel default_options true
      None (mkState [] [])
    = (inr (l, out), s')
    /\ log s'
       = [] ++ [ev_get_cross_correlation_fk;
                ev_get_maxima_2D
                  (@hybrid_surface toy_backend sample_DP flat_kernel
                     (corrPower default_options))]
            ++ [ev_gaussian_filter
                  (@hybrid_surface toy_backend sample_DP flat_kernel
                     (corrPower default_options))]
    /\ upsample_calls (@detection_events toy_backend sample_DP flat_kernel default_options true)
       = []
    /\ heap s' !! l = Some pl'
    /\ data pl'
       = prior_rows None (mkState [] [])
         ++ (let '(xs, ys, ints) :=
               @get_maxima_2D toy_backend
                 (@hybrid_surface toy_backend sample_DP flat_kernel
                    (corrPower default_options))
                 (sigma default_options) (edgeBoundary default_options)
                 (minRelativeIntensity default_options) (minPeakSpacing default_options)
                 (maxNumPeaks default_options)
                 (String.eqb (subpixel default_options) "poly") in
             rows_of_arrays xs ys ints).
Proof.
  exact (@X9_no_refinement_outside_multicorr toy_backend sample_DP flat_kernel
           default_options true None (mkState [] []) (or_intror eq_refl) I).
Defined.

Lemma X10_multicorr_refines_each_maximum_witness :
  let maxima :=
    @get_maxima_2D toy_backend
      (@hybrid_surface toy_backend sample_DP flat_kernel (corrPower multicorr_options))
      (sigma multicorr_options) (edgeBoundary multicorr_options)
      (minRelativeIntensity multicorr_options) (minPeakSpacing multicorr_options)
      (maxNumPeaks multicorr_options) true in
  let xs := fst (fst maxima) in
  let ys := snd (fst maxima) in
  exists l out s' pl',
    @find_Bragg_disks_single_DP_FK toy_backend sample_DP flat_kernel multicorr_options false
      None (mkState [] [])
    = (inr (l, out), s')
    /\ heap s' !! l = Some pl'
    /\ data pl'
       = prior_rows None (mkState [] [])
         ++ ((fun i =>
                let p := @refined_position toy_backend
                           (@hybrid_ccc toy_backend sample_DP flat_kernel
                              (corrPower multicorr_options))
                           (upsample_factor multicorr_options) (nth i xs 0) (nth i ys 0) in
                mkPeak (fst p) (snd p) (nth i (snd maxima) 0))
               <$> range (length xs))
    /\ upsample_calls (log s')
       = upsample_calls []
         ++ ((fun i => (half_pixel (nth i xs 0), half_pixel (nth i ys 0)))
               <$> range (length xs)).
Proof.
  exact (@X10_multicorr_refines_each_maximum toy_backend sample_DP flat_kernel
           multicorr_options false None (mkState [] []) eq_refl I).
Defined.

(** ** The half-pixel estimate *)

Lemma np_round_near x :
  exists z, np_round x = inject_Z z /\ x - (1 # 2) <= inject_Z z /\ inject_Z z <= x + (1 # 2).
Proof.
  unfold np_round.
  pose proof (Qfloor_le x) as Hlo. pose proof (Qlt_floor x) as Hhi.
  rewrite inject_Z_plus in Hhi. change (inject_Z 1) with 1 in Hhi.
  destruct (Qlt_bool (x - inject_Z (Qfloor x)) (1 # 2)) eqn:E1.
  - apply Qlt_bool_iff in E1. exists (Qfloor x). split; [reflexivity|]. split; lra.
  - assert (~ x - inject_Z (Qfloor x) < 1 # 2) as N1
      by (intros H; apply Qlt_bool_iff in H; congruence).
    destruct (Qlt_bool (1 # 2) (x - inject_Z (Qfloor x))) eqn:E2.
    + exists (Qfloor x + 1)%Z. split; [reflexivity|]. rewrite inject_Z_plus.
      change (inject_Z 1) with 1. split; lra.
    + assert (~ 1 # 2 < x - inject_Z (Qfloor x)) as N2
        by (intros H; apply Qlt_bool_iff in H; congruence).
      destruct (Z.even (Qfloor x)).
      * exists (Qfloor x). split; [reflexivity|]. split; lra.
      * exists (Qfloor x + 1)%Z. split; [reflexivity|]. rewrite inject_Z_plus.
        change (inject_Z 1) with 1. split; lra.
Qed.

(** X11.  The estimate handed to the upsampler for a coordinate [v] lies on
    the half-pixel grid (it is an integer divided by two) and is at most a
    quarter of a pixel away from [v]. *)
Theorem X11_half_pixel_estimate (v : Q) :
  exists z : Z, half_pixel v = inject_Z z / 2 /\ Qabs (half_pixel v - v) <= 1 # 4.
Proof.
  unfold half_pixel. destruct (np_round_near (v * 2)) as (z & -> & Hlo & Hhi).
  exists z. split; [reflexivity|]. apply Qabs_Qle_condition.
  unfold Qdiv. change (/ 2) with (1 # 2). split; lra.
Qed.

(** ** Detection at selected scan positions *)

Lemma np_index_ok (i : Z) (n : nat) :
  (- Z.of_nat n <= i < Z.of_nat n)%Z -> np_index i n = Some (Z.to_nat (i mod Z.of_nat n)).
Proof.
  intros [Hlo Hhi]. unfold np_index.
  destruct (Z.leb_spec (- Z.of_nat n) i); [|lia].
  destruct (Z.ltb_spec i (Z.of_nat n)); [reflexivity|lia].
Qed.

Lemma np_index_out (i : Z) (n : nat) :
  ~ (- Z.of_nat n <= i < Z.of_nat n)%Z -> np_index i n = None.
Proof.
  intros Hn. unfold np_index.
  destruct (Z.leb_spec (- Z.of_nat n) i); [|reflexivity].
  destruct (Z.ltb_spec i (Z.of_nat n)); [lia|reflexivity].
Qed.

Lemma indices_ok_nth idx n i :
  indices_ok idx n -> (i < length idx)%nat ->
  (- Z.of_nat n <= nth i idx 0%Z < Z.of_nat n)%Z.
Proof.
  intros H Hi. unfold indices_ok in H. rewrite Forall_lookup in H.
  destruct (lookup_lt_is_Some_2 idx i Hi) as [x Hx].
  rewrite (nth_lookup_Some _ _ _ _ Hx). exact (H i x Hx).
Qed.

Lemma for_acc_app {A S} (xs ys : list A) (body : S -> A -> M S) acc s :
  for_acc (xs ++ ys) body acc s
  = (acc' <- for_acc xs body acc ;; for_acc ys body acc') s.
Proof.
  revert acc s. induction xs as [|x xs IH]; intros acc s; cbn [for_acc app].
  - reflexivity.
  - unfold bind. destruct (body acc x s) as [[e|acc'] s1]; [reflexivity|].
    rewrite IH. reflexivity.
Qed.

Lemma for_acc_range_inv {S} (I : nat -> S -> state -> Prop) n (body : S -> nat -> M S) :
  (forall k acc s, (k < n)%nat -> I k acc s ->
     exists acc' s', body acc k s = (inr acc', s') /\ I (Datatypes.S k) acc' s') ->
  forall acc s, I 0%nat acc s ->
    exists acc' s', for_acc (range n) body acc s = (inr acc', s') /\ I n acc' s'.
Proof.
  intros Hbody. induction n as [|n IH]; intros acc s H0.
  - exists acc, s. split; [reflexivity|exact H0].
  - destruct (IH (fun k acc s Hk => Hbody k acc s (Nat.lt_lt_succ_r _ _ Hk)) acc s H0)
      as (acc1 & s1 & Hrun & H1).
    destruct (Hbody n acc1 s1 (Nat.lt_succ_diag_r n) H1) as (acc2 & s2 & Hstep & H2).
    exists acc2, s2. split; [|exact H2].
    rewrite range_S, for_acc_app, (bind_inr _ _ _ _ _ Hrun). cbn [for_acc].
    rewrite (bind_inr _ _ _ _ _ Hstep). reflexivity.
Qed.

Section SelectedFacts.
Context {N : Numerics}.

Lemma read_DP_at_run datacube rx ry s :
  (- Z.of_nat (R_Nx datacube) <= rx < Z.of_nat (R_Nx datacube))%Z ->
  (- Z.of_nat (R_Ny datacube) <= ry < Z.of_nat (R_Ny datacube))%Z ->
  read_DP_at datacube rx ry s
  = (inr (datacube_data datacube (Z.to_nat (rx mod Z.of_nat (R_Nx datacube)))
            (Z.to_nat (ry mod Z.of_nat (R_Ny datacube)))),
     mkState (heap s)
       (log s ++ [ev_DP (Z.to_nat (rx mod Z.of_nat (R_Nx datacube)))
                    (Z.to_nat (ry mod Z.of_nat (R_Ny datacube)))])).
Proof.
  intros Hx Hy. unfold read_DP_at. rewrite (np_index_ok _ _ Hx), (np_index_ok _ _ Hy).
  reflexivity.
Qed.

Lemma read_DP_at_out datacube rx ry s :
  ~ (- Z.of_nat (R_Nx datacube) <= rx < Z.of_nat (R_Nx datacube))%Z
  \/ ~ (- Z.of_nat (R_Ny datacube) <= ry < Z.of_nat (R_Ny datacube))%Z ->
  read_DP_at datacube rx ry s = (inl IndexError, s).
Proof.
  intros [Hx|Hy]; unfold read_DP_at.
  - rewrite (np_index_out _ _ Hx). reflexivity.
  - rewrite (np_index_out _ _ Hy). destruct (np_index rx _); reflexivity.
Qed.

Lemma selected_turn_run datacube pk Rx Ry kw peaks i s :
  valid_subpixel kw = true ->
  (- Z.of_nat (R_Nx datacube) <= nth i Rx 0 < Z.of_nat (R_Nx datacube))%Z ->
  (- Z.of_nat (R_Ny datacube) <= nth i Ry 0 < Z.of_nat (R_Ny datacube))%Z ->
  selected_turn datacube pk Rx Ry kw peaks i s
  = (inr (peaks ++ [length (heap s)]),
     mkState (heap s ++ [detected_list datacube pk kw (selected_position datacube Rx Ry i)])
       (log s
        ++ [ev_DP (fst (selected_position datacube Rx Ry i))
              (snd (selected_position datacube Rx Ry i))]
        ++ detection_events
             (datacube_data datacube (fst (selected_position datacube Rx Ry i))
                (snd (selected_position datacube Rx Ry i))) pk kw false)).
Proof.
  intros Hv Hi Hj. unfold selected_turn.
  rewrite (bind_inr _ _ _ _ _ (read_DP_at_run datacube _ _ s Hi Hj)).
  rewrite (bind_inr _ _ _ _ _ (find_Bragg_disks_single_DP_FK_run_None _ _ _ _ _ Hv)).
  cbn [heap log fst ret]. unfold ret, detected_list, selected_position. cbn [fst snd].
  rewrite <- app_assoc. reflexivity.
Qed.

(** The first [k] turns of the loop, when their positions are in range. *)
Lemma selected_prefix_run datacube pk Rx Ry kw k s :
  valid_subpixel kw = true ->
  (forall i, (i < k)%nat ->
     (- Z.of_nat (R_Nx datacube) <= nth i Rx 0 < Z.of_nat (R_Nx datacube))%Z
     /\ (- Z.of_nat (R_Ny datacube) <= nth i Ry 0 < Z.of_nat (R_Ny datacube))%Z) ->
  exists s',
    for_acc (range k) (selected_turn datacube pk Rx Ry kw) [] s
    = (inr (seq (length (heap s)) k), s')
    /\ heap s'
       = heap s
         ++ ((fun i => detected_list datacube pk kw (selected_position datacube Rx Ry i))
               <$> range k)
    /\ visited (log s')
       = visited (log s) ++ (selected_position datacube Rx Ry <$> range k).
Proof.
  intros Hv Hin.
  destruct (for_acc_range_inv
              (fun k acc st =>
                 acc = seq (length (heap s)) k
                 /\ heap st
                    = heap s
                      ++ ((fun i => detected_list datacube pk kw
                                      (selected_position datacube Rx Ry i)) <$> range k)
                 /\ visited (log st)
                    = visited (log s) ++ (selected_position datacube Rx Ry <$> range k))
              k (selected_turn datacube pk Rx Ry kw)) with (acc := @nil loc) (s := s)
    as (acc' & s' & Hrun & -> & Hheap & Hlog).
  - intros j acc st Hj (-> & Hh & Hl).
    eexists _, _. split.
    { apply (selected_turn_run datacube pk Rx Ry kw _ j st Hv); apply (Hin j Hj). }
    cbn [heap log]. split; [|split].
    + rewrite Hh, length_app, length_fmap. unfold range. rewrite length_seq.
      rewrite seq_S. reflexivity.
    + rewrite Hh, range_S, fmap_app, <- app_assoc. reflexivity.
    + rewrite !visited_app, visited_detection_events, app_nil_r, Hl, range_S, fmap_app,
        <- app_assoc. reflexivity.
  - split; [reflexivity|]. split; cbn; rewrite app_nil_r; reflexivity.
  - exists s'. split; [exact Hrun|]. split; assumption.
Qed.

(** X16.  Coordinate lists of different lengths are refused before anything
    is computed: the call raises, and neither the heap nor the log of kernel
    calls has changed. *)
Theorem X16_selected_length_mismatch datacube probe Rx Ry kw s :
  length Rx <> length Ry ->
  find_Bragg_disks_selected datacube probe Rx Ry kw s = (inl ShapeMismatch, s).
Proof.
  intros Hne. unfold find_Bragg_disks_selected.
  destruct (Nat.eqb_spec (length Rx) (length Ry)) as [He|_]; [contradiction|].
  reflexivity.
Qed.

(** X17.  With a recognised subpixel mode, coordinate lists of one length
    and indices that numpy accepts (negative ones counting from the end), the
    call returns one new PointList per selected position, in the order of the
    lists: each holds the rows detected on the pattern at its position, the
    objects that existed before are untouched, and the patterns are read in
    the order given. *)
Theorem X17_selected_positions datacube probe Rx Ry kw s :
  valid_subpixel kw = true ->
  length Rx = length Ry ->
  indices_ok Rx (R_Nx datacube) -> indices_ok Ry (R_Ny datacube) ->
  exists s',
    find_Bragg_disks_selected datacube probe Rx Ry kw s
    = (inr (seq (length (heap s)) (length Rx)), s')
    /\ heap s'
       = heap s
         ++ ((fun i => detected_list datacube (np_conj (np_fft2 probe)) kw
                         (selected_position datacube Rx Ry i))
               <$> range (length Rx))
    /\ visited (log s')
       = visited (log s) ++ (selected_position datacube Rx Ry <$> range (length Rx)).
Proof.
  intros Hv Hlen HRx HRy. unfold find_Bragg_disks_selected.
  rewrite Hlen, Nat.eqb_refl. cbn [py_assert]. rewrite <- Hlen.
  set (s0 := mkState (heap s) (log s ++ [ev_fft2])).
  set (pk := np_conj (np_fft2 probe)).
  destruct (selected_prefix_run datacube pk Rx Ry kw (length Rx) s0 Hv)
    as (s' & Hrun & Hheap & Hlog).
  { intros i Hi. split; [apply indices_ok_nth; assumption|].
    apply indices_ok_nth; [assumption|]. rewrite <- Hlen. exact Hi. }
  exists s'. split; [|split].
  - rewrite (bind_inr _ _ s tt s eq_refl).
    rewrite (bind_inr (fft2 probe) _ s (np_fft2 probe) s0 eq_refl).
    fold pk. rewrite (bind_inr _ _ _ _ _ Hrun). reflexivity.
  - exact Hheap.
  - rewrite Hlog. cbn [log s0]. rewrite visited_app. cbn. rewrite !app_nil_r. reflexivity.
Qed.

(** X18.  A position outside the scan is not clamped: at the first pair
    [(Rx[i0], Ry[i0])] with an index numpy rejects the call raises
    IndexError.  The lists detected at the earlier positions have been
    allocated by then, and no later pattern is read. *)
Theorem X18_selected_out_of_range datacube probe Rx Ry kw s i0 :
  valid_subpixel kw = true ->
  length Rx = length Ry -> (i0 < length Rx)%nat ->
  indices_ok (take i0 Rx) (R_Nx datacube) -> indices_ok (take i0 Ry) (R_Ny datacube) ->
  ~ (- Z.of_nat (R_Nx datacube) <= nth i0 Rx 0 < Z.of_nat (R_Nx datacube))%Z
  \/ ~ (- Z.of_nat (R_Ny datacube) <= nth i0 Ry 0 < Z.of_nat (R_Ny datacube))%Z ->
  exists s',
    find_Bragg_disks_selected datacube probe Rx Ry kw s = (inl IndexError, s')
    /\ heap s'
       = heap s
         ++ ((fun i => detected_list datacube (np_conj (np_fft2 probe)) kw
                         (selected_position datacube Rx Ry i))
               <$> range i0)
    /\ visited (log s')
       = visited (log s) ++ (selected_position datacube Rx Ry <$> range i0).
Proof.
  intros Hv Hlen Hi0 HRx HRy Hout. unfold find_Bragg_disks_selected.
  rewrite Hlen, Nat.eqb_refl. cbn [py_assert]. rewrite <- Hlen.
  set (s0 := mkState (heap s) (log s ++ [ev_fft2])).
  set (pk := np_conj (np_fft2 probe)).
  destruct (selected_prefix_run datacube pk Rx Ry kw i0 s0 Hv)
    as (s' & Hrun & Hheap & Hlog).
  { intros i Hi. split.
    - rewrite <- (take_drop i0 Rx), app_nth1 by (rewrite length_take; lia).
      apply indices_ok_nth; [assumption|]. rewrite length_take. lia.
    - rewrite <- (take_drop i0 Ry), app_nth1 by (rewrite length_take; lia).
      apply indices_ok_nth; [assumption|]. rewrite length_take. lia. }
  exists s'. split; [|split].
  - rewrite (bind_inr _ _ s tt s eq_refl).
    rewrite (bind_inr (fft2 probe) _ s (np_fft2 probe) s0 eq_refl).
    fold pk.
    assert (range (length Rx) = range i0 ++ i0 :: seq (S i0) (length Rx - S i0)) as ->.
    { unfold range. replace (length Rx) with (i0 + S (length Rx - S i0))%nat at 1 by lia.
      rewrite seq_app. reflexivity. }
    apply bind_inl. rewrite for_acc_app, (bind_inr _ _ _ _ _ Hrun). cbn [for_acc].
    apply bind_inl. unfold selected_turn. apply bind_inl. apply read_DP_at_out, Hout.
  - exact Hheap.
  - rewrite Hlog. cbn [log s0]. rewrite visited_app. cbn. rewrite !app_nil_r. reflexivity.
Qed.

End SelectedFacts.

(** ** Edge cases and frame of the full scan *)

Section ScanMore.
Context {N : Numerics}.

(** X14.  On a scan with at least one position an unrecognised subpixel mode
    is reported by the first detection: the call raises after it has
    allocated the whole grid, transformed the probe and read the pattern at
    (0,0), and no other pattern is read. *)
Theorem X14_full_scan_unrecognized_subpixel datacube probe kw s :
  valid_subpixel kw = false ->
  (0 < R_Nx datacube)%nat -> (0 < R_Ny datacube)%nat ->
  find_Bragg_disks datacube probe kw s
  = (inl InvalidConfiguration,
     mkState (heap s ++ replicate (R_Nx datacube * R_Ny datacube) (mkPointList Bragg_coords []))
       (log s ++ [ev_fft2; ev_DP 0 0])).
Proof.
  intros Hv Hx Hy. unfold find_Bragg_disks.
  rewrite (bind_inr _ _ _ _ _ (PointListArray_new_run _ _ _ _)).
  unfold fft2. rewrite (bind_inr _ _ _ _ _ (emit_then _ _ _)). cbn [heap log].
  destruct datacube as [nx ny dd]. cbn [R_Nx R_Ny datacube_data] in *.
  destruct nx as [|nx]; [lia|]. destruct ny as [|ny]; [lia|].
  apply bind_inl. unfold range. cbn [seq for_]. apply bind_inl. apply bind_inl.
  unfold read_DP. rewrite (bind_inr _ _ _ _ _ (emit_then _ _ _)).
  cbn [get_pointlist pla_pointlists grid_locs seq]. 
  match goal with |- bind (get_pointlist ?p 0 0) ?k ?st = _ =>
    change (bind (get_pointlist p 0 0) k st) with (k (length (heap s)) st) end.
  cbv beta.
  apply bind_inl. rewrite (invalid_subpixel_raises _ _ _ _ _ _ Hv). cbn [heap log].
  rewrite <- app_assoc. reflexivity.
Qed.

Lemma for_nothing {A} (xs : list A) s : for_ xs (fun _ => ret tt) s = (inr tt, s).
Proof. induction xs as [|x xs IH]; [reflexivity|]. cbn [for_]. exact IH. Qed.

(** X19.  On a scan without positions nothing is detected, so the call
    returns an empty grid of the requested shape whatever the options are;
    an unrecognised subpixel mode is not reported.  No PointList is
    allocated and the only kernel call is the transform of the probe. *)
Theorem X19_empty_scan datacube probe kw s :
  R_Nx datacube = 0%nat \/ R_Ny datacube = 0%nat ->
  exists pla,
  find_Bragg_disks datacube probe kw s
  = (inr pla, mkState (heap s) (log s ++ [ev_fft2]))
  /\ pla_shape pla = (R_Nx datacube, R_Ny datacube)
  /\ concat (pla_pointlists pla) = [].
Proof.
  intros H0. unfold find_Bragg_disks.
  rewrite (bind_inr _ _ _ _ _ (PointListArray_new_run _ _ _ _)).
  unfold fft2. rewrite (bind_inr _ _ _ _ _ (emit_then _ _ _)). cbn [heap log].
  exists (mkPointListArray Bragg_coords (R_Nx datacube, R_Ny datacube)
            (grid_locs (length (heap s)) (R_Nx datacube) (R_Ny datacube))).
  split; [|split; [reflexivity|]].
  - assert (R_Nx datacube * R_Ny datacube = 0)%nat as -> by (destruct H0 as [-> | ->]; lia).
    cbn [replicate]. rewrite app_nil_r.
    destruct H0 as [H0|H0]; rewrite H0.
    + reflexivity.
    + cbn [range seq for_]. 
      rewrite (bind_inr _ _ _ tt _ (for_nothing _ _)). reflexivity.
  - cbn [pla_pointlists]. rewrite concat_grid_locs. 
    assert (R_Nx datacube * R_Ny datacube = 0)%nat as -> by (destruct H0 as [-> | ->]; lia).
    reflexivity.
Qed.

Lemma scan_step_frame datacube pk kw base v0 Rx Ry s s' :
  valid_subpixel kw = true ->
  (Rx < R_Nx datacube)%nat -> (Ry < R_Ny datacube)%nat ->
  scan_inv datacube pk kw base v0 Rx Ry s ->
  (DP <- read_DP datacube Rx Ry ;;
   cell <- get_pointlist
             (mkPointListArray Bragg_coords (R_Nx datacube, R_Ny datacube)
                (grid_locs base (R_Nx datacube) (R_Ny datacube))) Rx Ry ;;
   find_Bragg_disks_single_DP_FK DP pk kw false (Some cell) ;;
   ret tt) s = (inr tt, s') ->
  forall l, (l < base)%nat -> heap s' !! l = heap s !! l.
Proof.
  intros Hv HRx HRy (Hlen & Hcells & Hvis).
  destruct (Hcells Rx Ry HRx HRy) as (pl & H & Hc & Hd).
  destruct (grid_locs_cell base _ _ Rx Ry HRx HRy) as (row & Hrow & Hcell).
  set (s1 := mkState (heap s) (log s ++ [ev_DP Rx Ry])).
  unfold read_DP. rewrite (bind_inr _ _ _ _ _ (emit_then _ _ _)).
  rewrite (bind_inr _ _ _ _ _
             (get_pointlist_run
                (mkPointListArray Bragg_coords (R_Nx datacube, R_Ny datacube)
                   (grid_locs base (R_Nx datacube) (R_Ny datacube)))
                Rx Ry row _ s1 Hrow Hcell)).
  rewrite (bind_inr _ _ _ _ _
             (find_Bragg_disks_single_DP_FK_run_Some _ pk kw false _ pl s1 Hv H
                ltac:(rewrite Hc; reflexivity))).
  intros [= <-] l Hl. cbn [heap]. apply list_lookup_insert_ne. lia.
Qed.

(** X15.  A full scan with a recognised subpixel mode returns the grid it
    allocated at the end of the heap, allocates exactly one PointList per scan
    position and leaves every object that existed before the call as it was. *)
Theorem X15_full_scan_frame datacube probe kw s :
  valid_subpixel kw = true ->
  exists s',
    find_Bragg_disks datacube probe kw s
    = (inr (mkPointListArray Bragg_coords (R_Nx datacube, R_Ny datacube)
              (grid_locs (length (heap s)) (R_Nx datacube) (R_Ny datacube))), s')
    /\ length (heap s') = (length (heap s) + R_Nx datacube * R_Ny datacube)%nat
    /\ take (length (heap s)) (heap s') = heap s.
Proof.
  intros Hv. unfold find_Bragg_disks.
  rewrite (bind_inr _ _ _ _ _ (PointListArray_new_run _ _ _ _)).
  unfold fft2. rewrite (bind_inr _ _ _ _ _ (emit_then _ _ _)). cbn [heap log].
  set (base := length (heap s)).
  set (pk := np_conj (np_fft2 probe)).
  set (pla := mkPointListArray Bragg_coords (R_Nx datacube, R_Ny datacube)
                (grid_locs base (R_Nx datacube) (R_Ny datacube))).
  set (s0 := mkState _ _).
  set (J := fun Rx Ry st =>
              scan_inv datacube pk kw base (visited (log s)) Rx Ry st
              /\ forall l, (l < base)%nat -> heap st !! l = heap s !! l).
  assert (J 0%nat 0%nat s0) as H0.
  { split; [apply scan_inv_start; reflexivity|]. intros l Hl. cbn [heap s0].
    apply lookup_app_l. exact Hl. }
  destruct (for_range_inv (fun Rx => J Rx 0%nat)
              (R_Nx datacube)
              (fun Rx => for_ (range (R_Ny datacube)) (fun Ry =>
                 DP <- read_DP datacube Rx Ry ;;
                 cell <- get_pointlist pla Rx Ry ;;
                 find_Bragg_disks_single_DP_FK DP pk kw false (Some cell) ;;
                 ret tt))) with (s := s0) as (s' & Hrun & Hinv & Hframe); [|exact H0|].
  { intros Rx s1 HRx H1.
    destruct (for_range_inv (fun Ry => J Rx Ry)
                (R_Ny datacube)
                (fun Ry =>
                   DP <- read_DP datacube Rx Ry ;;
                   cell <- get_pointlist pla Rx Ry ;;
                   find_Bragg_disks_single_DP_FK DP pk kw false (Some cell) ;;
                   ret tt)) with (s := s1) as (s2 & Hrun & Hinv & Hframe); [|exact H1|].
    - intros Ry s2 HRy [H2 Hf2].
      destruct (scan_step datacube pk kw base _ Rx Ry s2 Hv HRx HRy H2) as (s3 & Hstep & H3).
      exists s3. split; [exact Hstep|]. split; [exact H3|].
      intros l Hl.
      rewrite (scan_step_frame datacube pk kw base _ Rx Ry s2 s3 Hv HRx HRy H2 Hstep l Hl).
      apply Hf2, Hl.
    - exists s2. split; [exact Hrun|]. split; [apply scan_inv_row, Hinv|exact Hframe]. }
  exists s'. rewrite (bind_inr _ _ _ _ _ Hrun).
  destruct Hinv as (Hlen & _ & _).
  split; [reflexivity|]. split; [exact Hlen|].
  apply list_eq. intros l. destruct (decide (l < base)%nat) as [Hl|Hl].
  - rewrite lookup_take_lt by exact Hl. apply Hframe, Hl.
  - rewrite lookup_take_ge by lia. symmetry. apply lookup_ge_None. unfold base in Hl. lia.
Qed.

End ScanMore.

Lemma X14_full_scan_unrecognized_subpixel_witness :
  @find_Bragg_disks toy_backend sample_datacube flat_kernel gaussian_options (mkState [] [])
  = (inl InvalidConfiguration,
     mkState ([] ++ replicate (R_Nx sample_datacube * R_Ny sample_datacube)
                      (mkPointList Bragg_coords []))
       ([] ++ [ev_fft2; ev_DP 0 0])).
Proof.
  apply (@X14_full_scan_unrecognized_subpixel toy_backend sample_datacube flat_kernel
           gaussian_options (mkState [] [])).
  - reflexivity.
  - cbn. lia.
  - cbn. lia.
Defined.

Lemma X15_full_scan_frame_witness :
  exists s',
    @find_Bragg_disks toy_backend sample_datacube flat_kernel default_options
      (mkState (test_cell [peak_at 0 0 10]) [])
    = (inr (mkPointListArray Bragg_coords (R_Nx sample_datacube, R_Ny sample_datacube)
              (grid_locs 1 (R_Nx sample_datacube) (R_Ny sample_datacube))), s')
    /\ length (heap s') = (1 + R_Nx sample_datacube * R_Ny sample_datacube)%nat
    /\ take 1 (heap s') = test_cell [peak_at 0 0 10].
Proof.
  exact (@X15_full_scan_frame toy_backend sample_datacube flat_kernel default_options
           (mkState (test_cell [peak_at 0 0 10]) []) eq_refl).
Defined.

Lemma X19_empty_scan_witness :
  exists pla,
    @find_Bragg_disks toy_backend empty_datacube flat_kernel gaussian_options (mkState [] [])
    = (inr pla, mkState [] ([] ++ [ev_fft2]))
    /\ pla_shape pla = (2%nat, 0%nat)
    /\ concat (pla_pointlists pla) = [].
Proof.
  exact (@X19_empty_scan toy_backend empty_datacube flat_kernel gaussian_options
           (mkState [] []) (or_intror eq_refl)).
Defined.

Lemma X16_selected_length_mismatch_witness :
  @find_Bragg_disks_selected toy_backend sample_datacube flat_kernel [0; 1]%Z [0]%Z
    default_options (mkState [] [])
  = (inl ShapeMismatch, mkState [] []).
Proof.
  apply (@X16_selected_length_mismatch toy_backend sample_datacube flat_kernel [0; 1]%Z [0]%Z
           default_options (mkState [] [])).
  cbn. lia.
Defined.

Lemma X17_selected_positions_witness :
  exists s',
    @find_Bragg_disks_selected toy_backend sample_datacube flat_kernel [1; -1; 0]%Z
      [2; 0; -3]%Z default_options (mkState [] [])
    = (inr (seq 0 3), s')
    /\ heap s'
       = [] ++ ((fun i => @detected_list toy_backend sample_datacube
                            (@np_conj toy_backend (@np_fft2 toy_backend flat_kernel))
                            default_options
                            (selected_position sample_datacube [1; -1; 0]%Z [2; 0; -3]%Z i))
                  <$> range 3)
    /\ visited (log s')
       = [] ++ (selected_position sample_datacube [1; -1; 0]%Z [2; 0; -3]%Z <$> range 3).
Proof.
  apply (@X17_selected_positions toy_backend sample_datacube flat_kernel [1; -1; 0]%Z
           [2; 0; -3]%Z default_options (mkState [] [])).
  - reflexivity.
  - reflexivity.
  - repeat (constructor; [cbn; lia|]). constructor.
  - repeat (constructor; [cbn; lia|]). constructor.
Defined.

Lemma X18_selected_out_of_range_witness :
  exists s',
    @find_Bragg_disks_selected toy_backend sample_datacube flat_kernel [1; 5]%Z [2; 0]%Z
      default_options (mkState [] [])
    = (inl IndexError, s')
    /\ heap s'
       = [] ++ ((fun i => @detected_list toy_backend sample_datacube
                            (@np_conj toy_backend (@np_fft2 toy_backend flat_kernel))
                            default_options
                            (selected_position sample_datacube [1; 5]%Z [2; 0]%Z i))
                  <$> range 1)
    /\ visited (log s')
       = [] ++ (selected_position sample_datacube [1; 5]%Z [2; 0]%Z <$> range 1).
Proof.
  apply (@X18_selected_out_of_range toy_backend sample_datacube flat_kernel [1; 5]%Z [2; 0]%Z
           default_options (mkState [] []) 1%nat).
  - reflexivity.
  - reflexivity.
  - cbn. lia.
  - repeat (constructor; [cbn; lia|]). constructor.
  - repeat (constructor; [cbn; lia|]). constructor.
  - left. cbn. lia.
Defined.
